(** * Pythonic Ecosystem Simulator: a shallow embedding of
      [organisms.py] and [ecosystem.py], and the properties of the
      world registry, the organism behaviours and the tick scheduler. *)

From stdpp Require Import base numbers list gmap strings.
From Stdlib Require Import ZArith Lia.

Local Open Scope Z_scope.

(** ** The random generator

    Both modules draw from Python's module-level [random] generator,
    seeded once when [ecosystem.py] is imported.  The generator is
    modelled by the sequence of raw draws it will deliver from that
    seed on: every primitive consumes one draw and reduces it to the
    range it needs, so quantifying over all tapes quantifies over all
    outcomes of the random choices.  An exhausted tape keeps
    delivering [0]. *)

Definition Rng := list nat.

Definition next_draw (g : Rng) : nat * Rng :=
  match g with
  | [] => (0%nat, [])
  | d :: g' => (d, g')
  end.

(** [_randbelow(n)] for [n > 0]: an index in [0, n). *)
Definition randbelow (n : nat) (g : Rng) : nat * Rng :=
  let '(d, g') := next_draw g in (d mod n, g')%nat.

(** [random.randint(a, b)]: [ValueError] (here [None]) on an empty range. *)
Definition randint (a b : Z) (g : Rng) : option (Z * Rng) :=
  if decide (b < a) then None
  else let '(k, g') := randbelow (Z.to_nat (b - a + 1)) g in
       Some (a + Z.of_nat k, g').

(** [random.random() < p] for a chance [p] given in hundredths: the
    float in [0, 1) is below [pct/100] exactly when the hundredth it
    falls in is below [pct]. *)
Definition random_lt (pct : nat) (g : Rng) : bool * Rng :=
  let '(d, g') := next_draw g in (bool_decide (d mod 100 < pct)%nat, g').

(** [random.choice(seq)] on the non-empty sequence [a :: l]. *)
Definition choice {A : Type} (a : A) (l : list A) (g : Rng) : A * Rng :=
  let '(i, g') := randbelow (S (length l)) g in (nth i (a :: l) a, g').

(** [x[i], x[j] = x[j], x[i]] *)
Definition swap {A : Type} (l : list A) (i j : nat) : list A :=
  match l !! i, l !! j with
  | Some a, Some b => <[i := b]> (<[j := a]> l)
  | _, _ => l
  end.

(** [random.shuffle(x)]:
    [for i in reversed(range(1, len(x))): j = randbelow(i + 1); swap]. *)
Fixpoint shuffle_from {A : Type} (i : nat) (l : list A) (g : Rng)
  : list A * Rng :=
  match i with
  | O => (l, g)
  | S i' => let '(j, g') := randbelow (S i) g in
            shuffle_from i' (swap l i j) g'
  end.

Definition shuffle {A : Type} (l : list A) (g : Rng) : list A * Rng :=
  shuffle_from (length l - 1)%nat l g.

(** ** organisms.py: constants and the organism objects *)

Definition PLANT_SYMBOL : string := "☘".
Definition PLANT_REPRODUCTION_CHANCE : nat := 10.

Definition METABOLIC_ENERGY_COST : Z := 1.

Definition HERBIVORE_SYMBOL : string := "🐇".
Definition HERBIVORE_INITIAL_ENERGY : Z := 15.
Definition HERBIVORE_EAT_GAIN : Z := 10.
Definition HERBIVORE_REPRODUCTION_ENERGY_THRESHOLD : Z := 20.
Definition HERBIVORE_REPRODUCTION_CHANCE : nat := 15.
Definition HERBIVORE_REPRODUCTION_COST : Z := 8.
Definition HERBIVORE_CHILD_ENERGY : Z := 10.

Definition CARNIVORE_SYMBOL : string := "🐅".
Definition CARNIVORE_INITIAL_ENERGY : Z := 25.
Definition CARNIVORE_EAT_GAIN : Z := 15.
Definition CARNIVORE_REPRODUCTION_ENERGY_THRESHOLD : Z := 40.
Definition CARNIVORE_REPRODUCTION_CHANCE : nat := 10.
Definition CARNIVORE_REPRODUCTION_COST : Z := 20.
Definition CARNIVORE_CHILD_ENERGY : Z := 20.

(** The concrete classes; [isinstance] is only ever asked about these. *)
Inductive Class := Plant | Herbivore | Carnivore.

Global Instance Class_eq_dec : EqDecision Class.
Proof. solve_decision. Defined.

Module Organism.
(** One Python object.  [energy] is an attribute of animals only: no
    code path reads or writes it on a [Plant], whose field stays [0]. *)
Record t := mk {
  x : Z;
  y : Z;
  symbol : string;
  alive : bool;
  cls : Class;
  energy : Z
}.

(** [Organism.__init__]: position, symbol, [alive = True]. *)
Definition init (c : Class) (x0 y0 : Z) (s : string) (e : Z) : t :=
  {| x := x0; y := y0; symbol := s; alive := true; cls := c; energy := e |}.

Definition set_pos (o : t) (nx ny : Z) : t :=
  {| x := nx; y := ny; symbol := symbol o; alive := alive o;
     cls := cls o; energy := energy o |}.

Definition set_alive (o : t) (b : bool) : t :=
  {| x := x o; y := y o; symbol := symbol o; alive := b;
     cls := cls o; energy := energy o |}.

Definition set_energy (o : t) (e : Z) : t :=
  {| x := x o; y := y o; symbol := symbol o; alive := alive o;
     cls := cls o; energy := e |}.

Definition isinstance (o : t) (c : Class) : bool := bool_decide (cls o = c).
End Organism.

Global Instance Organism_inhabited : Inhabited Organism.t :=
  populate (Organism.init Plant 0 0 PLANT_SYMBOL 0).

(** [Plant(x, y)], [Herbivore(x, y)], [Carnivore(x, y)] *)
Definition construct (c : Class) (x y : Z) : Organism.t :=
  match c with
  | Plant => Organism.init Plant x y PLANT_SYMBOL 0
  | Herbivore => Organism.init Herbivore x y HERBIVORE_SYMBOL HERBIVORE_INITIAL_ENERGY
  | Carnivore => Organism.init Carnivore x y CARNIVORE_SYMBOL CARNIVORE_INITIAL_ENERGY
  end.

(** ** ecosystem.py: the world registry *)

Definition DIRECTIONS : list (Z * Z) :=
  [(-1, 0); (1, 0); (0, -1); (0, 1); (-1, -1); (-1, 1); (1, -1); (1, 1)].

(** Objects live in [heap]; the lists of the registry hold references
    (indices into [heap]), so an object queued as a birth or a death is
    the same object the main storage and the queries see. *)
Definition ref := nat.

Record Ecosystem := mkEcosystem {
  width : Z;
  height : Z;
  heap : list Organism.t;
  organisms : list ref;
  total_ticks : Z;
  initial_helper_set : gset (Z * Z);
  temp_added_organisms : list ref;
  temp_removed_organisms : list ref
}.

Definition obj (eco : Ecosystem) (r : ref) : Organism.t := heap eco !!! r.

Definition set_heap (eco : Ecosystem) (h : list Organism.t) : Ecosystem :=
  {| width := width eco; height := height eco; heap := h;
     organisms := organisms eco; total_ticks := total_ticks eco;
     initial_helper_set := initial_helper_set eco;
     temp_added_organisms := temp_added_organisms eco;
     temp_removed_organisms := temp_removed_organisms eco |}.

Definition set_obj (r : ref) (o : Organism.t) (eco : Ecosystem) : Ecosystem :=
  set_heap eco (<[r := o]> (heap eco)).

(** Allocation of a freshly constructed object. *)
Definition new_object (o : Organism.t) (eco : Ecosystem) : ref * Ecosystem :=
  (length (heap eco), set_heap eco (heap eco ++ [o])).

(** The references a query scans: [self.organisms + self.temp_added_organisms]. *)
Definition visible (eco : Ecosystem) : list ref :=
  organisms eco ++ temp_added_organisms eco.

Definition at_cell (eco : Ecosystem) (x y : Z) (r : ref) : Prop :=
  Organism.x (obj eco r) = x ∧ Organism.y (obj eco r) = y
  ∧ Organism.alive (obj eco r) = true.

Global Instance at_cell_dec eco x y r : Decision (at_cell eco x y r).
Proof. unfold at_cell. apply _. Defined.

Definition get_organism_at (eco : Ecosystem) (x y : Z) : list ref :=
  filter (at_cell eco x y) (visible eco).

Definition in_bounds (eco : Ecosystem) (c : Z * Z) : Prop :=
  (0 ≤ c.1 ∧ c.1 < width eco) ∧ (0 ≤ c.2 ∧ c.2 < height eco).

Global Instance in_bounds_dec eco c : Decision (in_bounds eco c).
Proof. unfold in_bounds. apply _. Defined.

Definition get_adjacent_cells (eco : Ecosystem) (x y : Z) : list (Z * Z) :=
  filter (in_bounds eco) ((λ d, (x + d.1, y + d.2)) <$> DIRECTIONS).

Definition is_empty_cell (eco : Ecosystem) (c : Z * Z) : Prop :=
  get_organism_at eco c.1 c.2 = [].

Global Instance is_empty_cell_dec eco c : Decision (is_empty_cell eco c).
Proof. unfold is_empty_cell. apply _. Defined.

Definition get_adjacent_empty_cells (eco : Ecosystem) (x y : Z) : list (Z * Z) :=
  filter (is_empty_cell eco) (get_adjacent_cells eco x y).

Definition prey_at (eco : Ecosystem) (c : Z * Z) (target : Class) (r : ref) : Prop :=
  Organism.x (obj eco r) = c.1 ∧ Organism.y (obj eco r) = c.2
  ∧ Organism.isinstance (obj eco r) target = true
  ∧ Organism.alive (obj eco r) = true.

Global Instance prey_at_dec eco c target r : Decision (prey_at eco c target r).
Proof. unfold prey_at. apply _. Defined.

Definition get_adjacent_organisms (eco : Ecosystem) (x y : Z) (target : Class)
  : list ref :=
  mjoin ((λ c, filter (prey_at eco c target) (visible eco))
           <$> get_adjacent_cells eco x y).

Definition add_organism (r : ref) (eco : Ecosystem) : Ecosystem :=
  {| width := width eco; height := height eco; heap := heap eco;
     organisms := organisms eco; total_ticks := total_ticks eco;
     initial_helper_set := initial_helper_set eco;
     temp_added_organisms := temp_added_organisms eco ++ [r];
     temp_removed_organisms := temp_removed_organisms eco |}.

Definition remove_organism (r : ref) (eco : Ecosystem) : Ecosystem :=
  let eco1 := set_obj r (Organism.set_alive (obj eco r) false) eco in
  {| width := width eco1; height := height eco1; heap := heap eco1;
     organisms := organisms eco1; total_ticks := total_ticks eco1;
     initial_helper_set := initial_helper_set eco1;
     temp_added_organisms := temp_added_organisms eco1;
     temp_removed_organisms := temp_removed_organisms eco1 ++ [r] |}.

Definition move_organism (r : ref) (new_x new_y : Z) (eco : Ecosystem) : Ecosystem :=
  set_obj r (Organism.set_pos (obj eco r) new_x new_y) eco.

(** ** organisms.py: behaviour

    Every method takes the reference [self], the registry and the
    generator, and returns its Python result with the registry and
    generator it leaves behind. *)

Definition set_energy (r : ref) (e : Z) (eco : Ecosystem) : Ecosystem :=
  set_obj r (Organism.set_energy (obj eco r) e) eco.

Module Plant.
(** [Plant.update] *)
Definition update (self : ref) (eco : Ecosystem) (g : Rng) : Ecosystem * Rng :=
  let '(roll, g1) := random_lt PLANT_REPRODUCTION_CHANCE g in
  if roll then
    match get_adjacent_empty_cells eco (Organism.x (obj eco self))
                                       (Organism.y (obj eco self)) with
    | [] => (eco, g1)
    | c :: cs =>
        let '((new_x, new_y), g2) := choice c cs g1 in
        let '(new_plant, eco1) := new_object (construct Plant new_x new_y) eco in
        (add_organism new_plant eco1, g2)
    end
  else (eco, g1).
End Plant.

Module Animal.
(** [Animal.update]: the metabolic cost. *)
Definition update (self : ref) (eco : Ecosystem) : Ecosystem :=
  set_energy self (Organism.energy (obj eco self) - METABOLIC_ENERGY_COST) eco.

(** The cell [move] relocates to, when there is an empty neighbour. *)
Definition move_target (self : ref) (eco : Ecosystem) (g : Rng)
  : option ((Z * Z) * Rng) :=
  match get_adjacent_empty_cells eco (Organism.x (obj eco self))
                                     (Organism.y (obj eco self)) with
  | [] => None
  | c :: cs => Some (choice c cs g)
  end.

(** [Animal.move] *)
Definition move (self : ref) (eco : Ecosystem) (g : Rng) : Ecosystem * Rng :=
  match move_target self eco g with
  | None => (eco, g)
  | Some ((new_x, new_y), g1) => (move_organism self new_x new_y eco, g1)
  end.

(** The prey [eat] picks, when there is adjacent prey. *)
Definition eat_target (self : ref) (eco : Ecosystem) (prey_class : Class) (g : Rng)
  : option (ref * Rng) :=
  match get_adjacent_organisms eco (Organism.x (obj eco self))
                                   (Organism.y (obj eco self)) prey_class with
  | [] => None
  | p :: ps => Some (choice p ps g)
  end.

(** [Animal.eat] *)
Definition eat (self : ref) (eco : Ecosystem) (prey_class : Class) (eat_gain : Z)
           (g : Rng) : bool * Ecosystem * Rng :=
  match eat_target self eco prey_class g with
  | Some (prey, g1) =>
      let eco1 := move_organism self (Organism.x (obj eco prey))
                                     (Organism.y (obj eco prey)) eco in
      let eco2 := remove_organism prey eco1 in
      let eco3 := set_energy self (Organism.energy (obj eco2 self) + eat_gain) eco2 in
      (true, eco3, g1)
  | None => (false, eco, g)
  end.

(** [Animal.reproduce]; the roll is only drawn when the energy test
    passes ([and] short-circuits). *)
Definition reproduce (self : ref) (eco : Ecosystem)
           (reproduction_energy_threshold : Z) (reproduction_chance : nat)
           (reproduction_cost : Z) (child_class : Class) (child_energy : Z)
           (g : Rng) : bool * Ecosystem * Rng :=
  if decide (reproduction_energy_threshold ≤ Organism.energy (obj eco self)) then
    let '(roll, g1) := random_lt reproduction_chance g in
    if roll then
      match get_adjacent_empty_cells eco (Organism.x (obj eco self))
                                         (Organism.y (obj eco self)) with
      | [] => (false, eco, g1)
      | c :: cs =>
          let '((new_x, new_y), g2) := choice c cs g1 in
          let '(new_child, eco1) :=
            new_object (construct child_class new_x new_y) eco in
          let eco2 := set_energy new_child child_energy eco1 in
          let eco3 := add_organism new_child eco2 in
          let eco4 :=
            set_energy self (Organism.energy (obj eco3 self) - reproduction_cost) eco3 in
          (true, eco4, g2)
      end
    else (false, eco, g1)
  else (false, eco, g).

(** [Animal.survive] *)
Definition survive (self : ref) (eco : Ecosystem) : bool * Ecosystem :=
  if decide (Organism.energy (obj eco self) ≤ 0) then
    (false, remove_organism self eco)
  else (true, eco).

(** The body shared by [Herbivore.update] and [Carnivore.update]:
    metabolic cost, then the first of eat, reproduce, move that
    succeeds, then the survival check. *)
Definition act (self : ref) (eco : Ecosystem) (prey_class : Class) (eat_gain : Z)
           (threshold : Z) (chance : nat) (cost : Z) (child_class : Class)
           (child_energy : Z) (g : Rng) : Ecosystem * Rng :=
  let eco1 := update self eco in
  let '(ate, eco2, g2) := eat self eco1 prey_class eat_gain g in
  let '(acted, eco3, g3) :=
    if ate then (true, eco2, g2)
    else reproduce self eco2 threshold chance cost child_class child_energy g2 in
  let '(eco4, g4) := if acted then (eco3, g3) else move self eco3 g3 in
  ((survive self eco4).2, g4).
End Animal.

Module Herbivore.
(** [Herbivore.update] *)
Definition update (self : ref) (eco : Ecosystem) (g : Rng) : Ecosystem * Rng :=
  Animal.act self eco Plant HERBIVORE_EAT_GAIN
    HERBIVORE_REPRODUCTION_ENERGY_THRESHOLD HERBIVORE_REPRODUCTION_CHANCE
    HERBIVORE_REPRODUCTION_COST Herbivore HERBIVORE_CHILD_ENERGY g.
End Herbivore.

Module Carnivore.
(** [Carnivore.update] *)
Definition update (self : ref) (eco : Ecosystem) (g : Rng) : Ecosystem * Rng :=
  Animal.act self eco Herbivore CARNIVORE_EAT_GAIN
    CARNIVORE_REPRODUCTION_ENERGY_THRESHOLD CARNIVORE_REPRODUCTION_CHANCE
    CARNIVORE_REPRODUCTION_COST Carnivore CARNIVORE_CHILD_ENERGY g.
End Carnivore.

(** [org.update(ecosystem)], dispatched on the object's class. *)
Definition update (self : ref) (eco : Ecosystem) (g : Rng) : Ecosystem * Rng :=
  match Organism.cls (obj eco self) with
  | Plant => Plant.update self eco g
  | Herbivore => Herbivore.update self eco g
  | Carnivore => Carnivore.update self eco g
  end.

(** ** ecosystem.py: seeding, the tick loop and the display *)

Inductive Exn := ValueError | IndexError | OverflowError | RecursionError.

(** What a call that may raise or loop leaves behind: a result, an
    exception, or no result within the attempts granted ([OutOfFuel]). *)
Inductive Outcome (A : Type) :=
  | Ok (a : A)
  | Raise (e : Exn)
  | OutOfFuel.
Arguments Ok {A} a.
Arguments Raise {A} e.
Arguments OutOfFuel {A}.

Definition set_helper (eco : Ecosystem) (s : gset (Z * Z)) : Ecosystem :=
  {| width := width eco; height := height eco; heap := heap eco;
     organisms := organisms eco; total_ticks := total_ticks eco;
     initial_helper_set := s;
     temp_added_organisms := temp_added_organisms eco;
     temp_removed_organisms := temp_removed_organisms eco |}.

Definition set_organisms (eco : Ecosystem) (l : list ref) : Ecosystem :=
  {| width := width eco; height := height eco; heap := heap eco;
     organisms := l; total_ticks := total_ticks eco;
     initial_helper_set := initial_helper_set eco;
     temp_added_organisms := temp_added_organisms eco;
     temp_removed_organisms := temp_removed_organisms eco |}.

(** [x, y = random.randint(0, self.width-1), random.randint(0, self.height-1)] *)
Definition draw_cell (eco : Ecosystem) (g : Rng) : option ((Z * Z) * Rng) :=
  match randint 0 (width eco - 1) g with
  | None => None
  | Some (x, g1) =>
      match randint 0 (height eco - 1) g1 with
      | None => None
      | Some (y, g2) => Some ((x, y), g2)
      end
  end.

(** [random_empty_cell]: the [while True] loop, unrolled at most [fuel]
    times. *)
Fixpoint random_empty_cell (fuel : nat) (eco : Ecosystem) (g : Rng)
  : Outcome ((Z * Z) * Ecosystem * Rng) :=
  match fuel with
  | O => OutOfFuel
  | S fuel' =>
      match draw_cell eco g with
      | None => Raise ValueError
      | Some (c, g2) =>
          if decide (c ∈ initial_helper_set eco)
          then random_empty_cell fuel' eco g2
          else Ok (c, set_helper eco (initial_helper_set eco ∪ {[ c ]}), g2)
      end
  end.

(** The cell drawn at attempt number [k] (from 0) of the search, and
    the generator after it. *)
Fixpoint nth_attempt (k : nat) (eco : Ecosystem) (g : Rng) : option ((Z * Z) * Rng) :=
  match draw_cell eco g with
  | None => None
  | Some (c, g') =>
      match k with
      | O => Some (c, g')
      | S k' => nth_attempt k' eco g'
      end
  end.

(** Attempt [k] is the first to draw a cell outside the helper set. *)
Definition first_free (k : nat) (eco : Ecosystem) (g : Rng) (c : Z * Z) (g' : Rng)
  : Prop :=
  nth_attempt k eco g = Some (c, g')
  ∧ (c ∉ initial_helper_set eco)
  ∧ Forall (λ j, ∃ cj gj, nth_attempt j eco g = Some (cj, gj)
                          ∧ cj ∈ initial_helper_set eco) (seq 0 k).

(** Every cell of the grid is in the helper set. *)
Definition grid_full (eco : Ecosystem) : Prop :=
  ∀ c, in_bounds eco c → c ∈ initial_helper_set eco.

(** The truth value of the tuple in [if (x, y):]: a tuple of two
    components is never empty. *)
Definition tuple_truth (c : Z * Z) : bool := true.

(** [populate]: [count] rounds of the [for] loop, each search granted
    [fuel] attempts. *)
Fixpoint populate_loop (fuel : nat) (organism_class : Class) (n : nat)
         (eco : Ecosystem) (g : Rng) : Outcome (Ecosystem * Rng) :=
  match n with
  | O => Ok (eco, g)
  | S n' =>
      match random_empty_cell fuel eco g with
      | Ok ((x, y), eco1, g1) =>
          if tuple_truth (x, y) then
            let '(organism, eco2) := new_object (construct organism_class x y) eco1 in
            populate_loop fuel organism_class n'
              (set_organisms eco2 (organisms eco2 ++ [organism])) g1
          else populate_loop fuel organism_class n' eco1 g1
      | Raise e => Raise e
      | OutOfFuel => OutOfFuel
      end
  end.

Definition populate (fuel : nat) (organism_class : Class) (count : Z)
           (eco : Ecosystem) (g : Rng) : Outcome (Ecosystem * Rng) :=
  populate_loop fuel organism_class (Z.to_nat count) eco g.

Definition EMPTY_SYMBOL : string := ".".

(** What [display] shows: the tick, the three counters and the grid of
    symbols (the column alignment of the printed text is left out). *)
Record Snapshot := mkSnapshot {
  snap_tick : Z;
  snap_plants : nat;
  snap_herbivores : nat;
  snap_carnivores : nat;
  snap_grid : list (list string)
}.

(** A Python list index: negative indices count from the end, anything
    else out of range is an [IndexError]. *)
Definition py_index (n : nat) (i : Z) : option nat :=
  if decide (0 ≤ i < Z.of_nat n) then Some (Z.to_nat i)
  else if decide (- Z.of_nat n ≤ i < 0) then Some (Z.to_nat (Z.of_nat n + i))
  else None.

(** [grid[oy][ox] = s] *)
Definition grid_set (grid : list (list string)) (ox oy : Z) (s : string)
  : option (list (list string)) :=
  iy ← py_index (length grid) oy;
  row ← grid !! iy;
  ix ← py_index (length row) ox;
  Some (<[iy := <[ix := s]> row]> grid).

Fixpoint place_organisms (eco : Ecosystem) (l : list ref) (grid : list (list string))
  : option (list (list string)) :=
  match l with
  | [] => Some grid
  | org :: l' =>
      if Organism.alive (obj eco org) then
        grid' ← grid_set grid (Organism.x (obj eco org)) (Organism.y (obj eco org))
                         (Organism.symbol (obj eco org));
        place_organisms eco l' grid'
      else place_organisms eco l' grid
  end.

Definition count_alive (eco : Ecosystem) (c : Class) : nat :=
  length (filter (λ o, Organism.isinstance (obj eco o) c && Organism.alive (obj eco o) = true)
                 (organisms eco)).

(** [display]: the grid of empty symbols, the symbols of the alive
    organisms of the main storage written into it, the three counters.
    The separator line it ends with is the line [__init__] has printed
    before the first display ([separator] below), of the same width.
    (The memory the grid takes is not modelled.) *)
Definition display (eco : Ecosystem) (tick : Z) : Outcome Snapshot :=
  let grid := replicate (Z.to_nat (height eco))
                        (replicate (Z.to_nat (width eco)) EMPTY_SYMBOL) in
  match place_organisms eco (organisms eco) grid with
  | None => Raise IndexError
  | Some grid' =>
      Ok {| snap_tick := tick;
            snap_plants := count_alive eco Plant;
            snap_herbivores := count_alive eco Herbivore;
            snap_carnivores := count_alive eco Carnivore;
            snap_grid := grid' |}
  end.

Definition CELL_WIDTH : Z := 2.

(** The bounds of [Py_ssize_t], the index type of the interpreter, on a
    64-bit build: [2^63 - 1] and [-2^63]. *)
Definition PY_SSIZE_T_MAX : Z := 9223372036854775807.
Definition PY_SSIZE_T_MIN : Z := -9223372036854775808.

(** ["=" * (self.width * (CELL_WIDTH+1))], the line [__init__] prints
    before the first display: the count of a repetition must fit
    [Py_ssize_t], or the interpreter raises [OverflowError]; a count
    that is not positive gives the empty line.  The result is the
    length of the line.  (The memory the line takes is not modelled.) *)
Definition separator (eco : Ecosystem) : Outcome nat :=
  let count := width eco * (CELL_WIDTH + 1) in
  if decide (PY_SSIZE_T_MIN ≤ count ≤ PY_SSIZE_T_MAX) then Ok (Z.to_nat count)
  else Raise OverflowError.

(** [Ecosystem.__init__], with the snapshot of tick 0 it displays. *)
Definition init (fuel : nat) (width height initial_plants initial_herbivores
                 initial_carnivores total_ticks : Z) (g : Rng)
  : Outcome (Ecosystem * Rng * Snapshot) :=
  let eco0 := {| width := width; height := height; heap := [];
                 organisms := []; total_ticks := total_ticks;
                 initial_helper_set := ∅;
                 temp_added_organisms := [];
                 temp_removed_organisms := [] |} in
  match populate fuel Plant initial_plants eco0 g with
  | Ok (eco1, g1) =>
      match populate fuel Herbivore initial_herbivores eco1 g1 with
      | Ok (eco2, g2) =>
          match populate fuel Carnivore initial_carnivores eco2 g2 with
          | Ok (eco3, g3) =>
              let eco4 := set_helper eco3 ∅ in
              match separator eco4 with
              | Ok _ =>
                  match display eco4 0 with
                  | Ok s => Ok (eco4, g3, s)
                  | Raise e => Raise e
                  | OutOfFuel => OutOfFuel
                  end
              | Raise e => Raise e
              | OutOfFuel => OutOfFuel
              end
          | Raise e => Raise e
          | OutOfFuel => OutOfFuel
          end
      | Raise e => Raise e
      | OutOfFuel => OutOfFuel
      end
  | Raise e => Raise e
  | OutOfFuel => OutOfFuel
  end.

(** One turn of the scheduler: [if org.alive: org.update(self)]. *)
Definition turn (st : Ecosystem * Rng) (org : ref) : Ecosystem * Rng :=
  if Organism.alive (obj st.1 org) then update org st.1 st.2 else st.

Definition run_turns (order : list ref) (eco : Ecosystem) (g : Rng)
  : Ecosystem * Rng :=
  foldl turn (eco, g) order.

(** [list.remove(org)]: the first occurrence goes. *)
Fixpoint remove_first (org : ref) (l : list ref) : list ref :=
  match l with
  | [] => []
  | r :: l' => if decide (r = org) then l' else r :: remove_first org l'
  end.

(** [for org in self.temp_added_organisms: if org.alive: self.organisms.append(org)] *)
Definition commit_births (eco : Ecosystem) : Ecosystem :=
  foldl (λ e org, if Organism.alive (obj e org)
                  then set_organisms e (organisms e ++ [org]) else e)
        eco (temp_added_organisms eco).

(** [for org in self.temp_removed_organisms:
       if org in self.organisms: self.organisms.remove(org)] *)
Definition commit_deaths (eco : Ecosystem) : Ecosystem :=
  foldl (λ e org, if decide (org ∈ organisms e)
                  then set_organisms e (remove_first org (organisms e)) else e)
        eco (temp_removed_organisms eco).

Definition clear_queues (eco : Ecosystem) : Ecosystem :=
  {| width := width eco; height := height eco; heap := heap eco;
     organisms := organisms eco; total_ticks := total_ticks eco;
     initial_helper_set := initial_helper_set eco;
     temp_added_organisms := [];
     temp_removed_organisms := [] |}.

Definition commit (eco : Ecosystem) : Ecosystem :=
  clear_queues (commit_deaths (commit_births eco)).

(** The body of the [for tick] loop up to the display: shuffle a copy
    of the main storage, give every organism its turn, commit. *)
Definition tick (eco : Ecosystem) (g : Rng) : Ecosystem * Rng :=
  let '(order, g1) := shuffle (organisms eco) g in
  let '(eco1, g2) := run_turns order eco g1 in
  (commit eco1, g2).

(** The registry at the boundary after [n] ticks. *)
Fixpoint ticks (n : nat) (eco : Ecosystem) (g : Rng) : Ecosystem * Rng :=
  match n with
  | O => (eco, g)
  | S n' => let '(eco1, g1) := tick eco g in ticks n' eco1 g1
  end.

(** [run]: [n] more rounds of the loop after tick number [t], with the
    snapshots displayed; [time.sleep] leaves no trace in the state. *)
Fixpoint run_from (n : nat) (t : Z) (eco : Ecosystem) (g : Rng)
  : Outcome (Ecosystem * Rng * list Snapshot) :=
  match n with
  | O => Ok (eco, g, [])
  | S n' =>
      let '(eco1, g1) := tick eco g in
      match display eco1 (t + 1) with
      | Ok s =>
          match run_from n' (t + 1) eco1 g1 with
          | Ok (eco2, g2, ss) => Ok (eco2, g2, s :: ss)
          | Raise e => Raise e
          | OutOfFuel => OutOfFuel
          end
      | Raise e => Raise e
      | OutOfFuel => OutOfFuel
      end
  end.

Definition run (eco : Ecosystem) (g : Rng) : Outcome (Ecosystem * Rng * list Snapshot) :=
  run_from (Z.to_nat (total_ticks eco)) 0 eco g.

(** [main] after the parameters are read: construct, run, and the
    snapshots shown from tick 0 on. *)
Definition simulate (fuel : nat) (width height plants herbivores carnivores ticks : Z)
           (g : Rng) : Outcome (list Snapshot) :=
  match init fuel width height plants herbivores carnivores ticks g with
  | Ok (eco, g1, s0) =>
      match run eco g1 with
      | Ok (_, _, ss) => Ok (s0 :: ss)
      | Raise e => Raise e
      | OutOfFuel => OutOfFuel
      end
  | Raise e => Raise e
  | OutOfFuel => OutOfFuel
  end.

(** The main storage once the queued deaths [dead] are purged from [l]. *)
Definition purge (dead : list ref) (l : list ref) : list ref :=
  foldl (λ acc org, if decide (org ∈ acc) then remove_first org acc else acc) l dead.

(** No reference the queries scan dangles. *)
Definition no_dangling (eco : Ecosystem) : Prop :=
  Forall (λ r, (r < length (heap eco))%nat) (visible eco).

Global Instance no_dangling_dec eco : Decision (no_dangling eco).
Proof. unfold no_dangling. apply _. Defined.

(** The registry [populate] goes on with once the search returned
    [c]: the helper set holds [c], and a new organism of the class stands
    on it at the end of the main storage. *)
Definition spawned (organism_class : Class) (c : Z * Z) (eco : Ecosystem) : Ecosystem :=
  let eco1 := set_helper eco (initial_helper_set eco ∪ {[ c ]}) in
  let eco2 := (new_object (construct organism_class c.1 c.2) eco1).2 in
  set_organisms eco2 (organisms eco2 ++ [length (heap eco)]).

(** ** The calls of [move_organism]

    [move_organism] has two call sites: [Animal.move], with the cell it
    chose, and [Animal.eat], with the cell of the prey it chose.
    [relocation who eco self x y] says that [who], run on the registry
    [eco] for [self], calls [move_organism self x y] on [eco] (neither
    method changes the registry before that call). *)
Inductive Caller := ByMove | ByEat (prey : ref).

Inductive relocation : Caller → Ecosystem → ref → Z → Z → Prop :=
  | relocation_move self eco g c g1 :
      Animal.move_target self eco g = Some (c, g1) →
      relocation ByMove eco self c.1 c.2
  | relocation_eat self eco prey_class g prey g1 :
      Animal.eat_target self eco prey_class g = Some (prey, g1) →
      relocation (ByEat prey) eco self (Organism.x (obj eco prey))
                                       (Organism.y (obj eco prey)).

(** The species constants, unfolded. *)
Ltac unfold_constants :=
  unfold HERBIVORE_EAT_GAIN, HERBIVORE_REPRODUCTION_ENERGY_THRESHOLD,
    HERBIVORE_REPRODUCTION_CHANCE, HERBIVORE_REPRODUCTION_COST,
    HERBIVORE_CHILD_ENERGY, CARNIVORE_EAT_GAIN,
    CARNIVORE_REPRODUCTION_ENERGY_THRESHOLD, CARNIVORE_REPRODUCTION_CHANCE,
    CARNIVORE_REPRODUCTION_COST, CARNIVORE_CHILD_ENERGY in *.

(** ** Invariants of the registry *)

(** The state the registry keeps between two turns of a tick: the
    references the queries scan are distinct and allocated, no two
    alive organisms among them share a cell, and every dead organism of
    the main storage is queued for removal. *)
Record wf (eco : Ecosystem) : Prop := mk_wf {
  wf_nodup : NoDup (visible eco);
  wf_valid : ∀ r, r ∈ visible eco → (r < length (heap eco))%nat;
  wf_cells : ∀ r1 r2, r1 ∈ visible eco → r2 ∈ visible eco →
    Organism.alive (obj eco r1) = true → Organism.alive (obj eco r2) = true →
    Organism.x (obj eco r1) = Organism.x (obj eco r2) →
    Organism.y (obj eco r1) = Organism.y (obj eco r2) → r1 = r2;
  wf_dead : ∀ r, r ∈ organisms eco → Organism.alive (obj eco r) = false →
    r ∈ temp_removed_organisms eco
}.

(** [wf] in a form that can be decided by evaluation. *)
Definition wf_check (eco : Ecosystem) : Prop :=
  NoDup (visible eco)
  ∧ Forall (λ r, (r < length (heap eco))%nat) (visible eco)
  ∧ Forall (λ r1, Forall (λ r2,
      Organism.alive (obj eco r1) = true → Organism.alive (obj eco r2) = true →
      Organism.x (obj eco r1) = Organism.x (obj eco r2) →
      Organism.y (obj eco r1) = Organism.y (obj eco r2) → r1 = r2)
      (visible eco)) (visible eco)
  ∧ Forall (λ r, Organism.alive (obj eco r) = false →
                 r ∈ temp_removed_organisms eco) (organisms eco).

Global Instance wf_check_dec eco : Decision (wf_check eco).
Proof. unfold wf_check. apply _. Defined.

(** The object [o] is frozen in [eco] under the reference [r]: it is
    what [r] holds, the scheduler skips it, and no predator picks it. *)
Definition frozen (o : Organism.t) (eco : Ecosystem) (r : ref) : Prop :=
  obj eco r = o
  ∧ (∀ g, turn (eco, g) r = (eco, g))
  ∧ (∀ self prey_class g prey g',
       Animal.eat_target self eco prey_class g = Some (prey, g') → prey ≠ r).

(** The registry at a tick boundary: well formed, both queues empty. *)
Definition boundary (eco : Ecosystem) : Prop :=
  wf eco ∧ temp_added_organisms eco = [] ∧ temp_removed_organisms eco = [].

(** An organism whose turn it is: in the main storage and alive. *)
Definition on_turn (self : ref) (eco : Ecosystem) : Prop :=
  wf eco ∧ self ∈ organisms eco ∧ Organism.alive (obj eco self) = true.

(** What any part of a turn may do to the registry: the main storage
    stays, the queues and the heap only grow, and an object that is
    dead is left as it is. *)
Record extends (eco eco' : Ecosystem) : Prop := mk_extends {
  ext_organisms : organisms eco' = organisms eco;
  ext_added : temp_added_organisms eco `prefix_of` temp_added_organisms eco';
  ext_removed : temp_removed_organisms eco `prefix_of` temp_removed_organisms eco';
  ext_heap : (length (heap eco) ≤ length (heap eco'))%nat;
  ext_dead : ∀ r, (r < length (heap eco))%nat →
    Organism.alive (obj eco r) = false → obj eco' r = obj eco r
}.

(** The registry while [__init__] seeds it: every object allocated so
    far is in the main storage, alive, on a cell of the helper set, and
    no two share a cell. *)
Record seeding (eco : Ecosystem) : Prop := mk_seeding {
  seed_organisms : organisms eco = seq 0 (length (heap eco));
  seed_added : temp_added_organisms eco = [];
  seed_removed : temp_removed_organisms eco = [];
  seed_alive : ∀ r, (r < length (heap eco))%nat →
    Organism.alive (obj eco r) = true;
  seed_cell : ∀ r, (r < length (heap eco))%nat →
    (Organism.x (obj eco r), Organism.y (obj eco r)) ∈ initial_helper_set eco;
  seed_distinct : ∀ r1 r2, (r1 < length (heap eco))%nat →
    (r2 < length (heap eco))%nat →
    Organism.x (obj eco r1) = Organism.x (obj eco r2) →
    Organism.y (obj eco r1) = Organism.y (obj eco r2) → r1 = r2
}.

(** ** Concrete worlds

    A tape for seeding and running a 3x3 world. *)

Definition demo_tape : Rng :=
  [3; 1; 4; 1; 5; 9; 2; 6; 5; 3; 5; 8; 9; 7; 9; 3; 2; 3; 8; 4; 6; 2; 6; 4; 3; 3;
   8; 3; 2; 7; 9; 5; 0; 2; 8; 8; 4; 1; 9; 7; 1; 6; 9; 3; 9; 9; 3; 7; 5; 1; 0; 5;
   8; 2; 0; 9; 7; 4; 9; 4; 4; 5; 9; 2; 3; 0; 7; 8; 1; 6; 4; 0; 6; 2; 8; 6; 2; 0;
   8; 9; 9; 8; 6; 2; 8; 0; 3; 4; 8; 2; 5; 3; 4; 2; 1; 1; 7; 0; 6; 7; 9]%nat.

(** The scenario of the specification: a 3x3 grid, one Herbivore at
    (1,1) with energy 1, one Plant at (1,2). *)
Definition scenario_eco : Ecosystem :=
  {| width := 3; height := 3;
     heap := [Organism.set_energy (construct Herbivore 1 1) 1; construct Plant 1 2];
     organisms := [0; 1]%nat;
     total_ticks := 1;
     initial_helper_set := ∅;
     temp_added_organisms := [];
     temp_removed_organisms := [] |}.

(** The scenario right after the herbivore's eat step. *)
Definition scenario_after_eat : Ecosystem :=
  (Animal.eat 0%nat (Animal.update 0%nat scenario_eco) Plant 10 []).1.2.

(** A 3x3 grid with a single well-fed Herbivore (energy 30) at (1,1),
    and the registry after it paid the metabolic cost and reproduced. *)
Definition lone_herbivore : Ecosystem :=
  {| width := 3; height := 3;
     heap := [Organism.set_energy (construct Herbivore 1 1) 30];
     organisms := [0%nat];
     total_ticks := 1;
     initial_helper_set := ∅;
     temp_added_organisms := [];
     temp_removed_organisms := [] |}.

Definition lone_herbivore_reproduced : Ecosystem :=
  (Animal.reproduce 0%nat (Animal.update 0%nat lone_herbivore)
     20 15 8 Herbivore 10 []).1.2.

(** A 3x3 grid with a single Herbivore at (1,1) down to its last unit
    of energy. *)
Definition starving_eco : Ecosystem :=
  {| width := 3; height := 3;
     heap := [Organism.set_energy (construct Herbivore 1 1) 1];
     organisms := [0%nat];
     total_ticks := 1;
     initial_helper_set := ∅;
     temp_added_organisms := [];
     temp_removed_organisms := [] |}.

(** A 1x1 grid whose only cell is taken. *)
Definition full_1x1 : Ecosystem :=
  {| width := 1; height := 1;
     heap := [construct Plant 0 0];
     organisms := [0%nat];
     total_ticks := 1;
     initial_helper_set := {[ (0, 0) ]};
     temp_added_organisms := [];
     temp_removed_organisms := [] |}.

(** A 2x2 grid being seeded, with the cell (0,0) taken. *)
Definition seeding_2x2 : Ecosystem :=
  {| width := 2; height := 2;
     heap := [construct Plant 0 0];
     organisms := [0%nat];
     total_ticks := 1;
     initial_helper_set := {[ (0, 0) ]};
     temp_added_organisms := [];
     temp_removed_organisms := [] |}.

(** A 3x3 grid with a Plant at (0,0) and a Herbivore at (2,2): the
    cell (1,1) between them neighbours both. *)
Definition nursery_eco : Ecosystem :=
  {| width := 3; height := 3;
     heap := [construct Plant 0 0; construct Herbivore 2 2];
     organisms := [0; 1]%nat;
     total_ticks := 1;
     initial_helper_set := ∅;
     temp_added_organisms := [];
     temp_removed_organisms := [] |}.

(** ** main.py: reading the parameters

    The console is modelled by what [int(input(prompt).strip())] makes
    of each line the user types, in order: an integer, or a
    [ValueError].  When the lines run out, [input] raises [EOFError],
    which the [except Exception] of the loop swallows, so the loop
    never returns: that is the [None] below. *)
Inductive Entry :=
  | NotAnInteger
  | Integer (value : Z).

Definition Console := list Entry.

(** [get_positive_integer(prompt, allow_zero)] with the lines left. *)
Fixpoint get_positive_integer (allow_zero : bool) (inputs : Console)
  : option (Z * Console) :=
  match inputs with
  | [] => None
  | NotAnInteger :: rest => get_positive_integer allow_zero rest
  | Integer value :: rest =>
      if decide (value < 0 ∨ (allow_zero = false ∧ value = 0))
      then get_positive_integer allow_zero rest
      else Some (value, rest)
  end.

(** [get_simulation_parameters].  When the populations exceed the
    capacity it calls itself again, from inside its [except] clause, so
    every round of exceeding populations sits one call deeper; [depth]
    is the number of nested calls the recursion limit of the
    interpreter leaves room for (some 995 under the default limit of
    1000), and the call that would go deeper raises [RecursionError],
    which nothing catches.  A read that never returns is [OutOfFuel]. *)
Fixpoint get_simulation_parameters (depth : nat) (inputs : Console)
  : Outcome (Z * Z * Z * Z * Z * Z * Console) :=
  match depth with
  | O => Raise RecursionError
  | S depth' =>
  match get_positive_integer false inputs with
  | None => OutOfFuel
  | Some (width, i1) =>
  match get_positive_integer false i1 with
  | None => OutOfFuel
  | Some (height, i2) =>
  let max_capacity := width * height in
  match get_positive_integer true i2 with
  | None => OutOfFuel
  | Some (plants, i3) =>
  match get_positive_integer true i3 with
  | None => OutOfFuel
  | Some (herbivores, i4) =>
  match get_positive_integer true i4 with
  | None => OutOfFuel
  | Some (carnivores, i5) =>
      let total := plants + herbivores + carnivores in
      if decide (max_capacity < total) then
        get_simulation_parameters depth' i5
      else
        match get_positive_integer false i5 with
        | None => OutOfFuel
        | Some (ticks, i6) =>
            Ok (width, height, plants, herbivores, carnivores, ticks, i6)
        end
  end end end end end
  end.


(** What [get_positive_integer] takes and what it asks again for. *)
Definition accepted (allow_zero : bool) (value : Z) : Prop :=
  0 ≤ value ∧ (allow_zero = false → value ≠ 0).

Definition rejected (allow_zero : bool) (e : Entry) : Prop :=
  match e with
  | NotAnInteger => True
  | Integer value => ¬ accepted allow_zero value
  end.

(** ** The cells of the grid *)

Definition all_cells (eco : Ecosystem) : list (Z * Z) :=
  mjoin ((λ x, (λ y, (x, y)) <$> seqZ 0 (height eco)) <$> seqZ 0 (width eco)).

(** The cells the organisms of the heap stand on. *)
Definition seeded_cells (eco : Ecosystem) : list (Z * Z) :=
  (λ o, (Organism.x o, Organism.y o)) <$> heap eco.

(** While seeding, the helper set holds the cells of the seeded
    organisms and nothing else, all of them cells of the grid, and every
    object is as its constructor made it. *)
Record packed (eco : Ecosystem) : Prop := mk_packed {
  packed_helper : ∀ c, c ∈ initial_helper_set eco ↔ c ∈ seeded_cells eco;
  packed_bounds : ∀ c, c ∈ seeded_cells eco → in_bounds eco c;
  packed_nodup : NoDup (seeded_cells eco);
  packed_fresh : ∀ o, o ∈ heap eco →
    o = construct (Organism.cls o) (Organism.x o) (Organism.y o)
}.

(** A session at the console: a width and a height of 2 (after a line
    that is no integer), populations 3, 1 and 1 that exceed the four
    cells, so everything is asked again; then 3 by 3 (a zero width
    being refused), populations 2, 2 (a negative one being refused)
    and 1, and 3 ticks; one more line is left unread. *)
Definition demo_console : Console :=
  [Integer 2; NotAnInteger; Integer 2; Integer 3; Integer 1; Integer 1;
   Integer 0; Integer 3; Integer 3; Integer 2; Integer (-1); Integer 2;
   Integer 1; Integer 3; NotAnInteger].

(** ** Further invariants of the registry *)

(** The symbol each class is constructed with. *)
Definition class_symbol (c : Class) : string :=
  match c with
  | Plant => PLANT_SYMBOL
  | Herbivore => HERBIVORE_SYMBOL
  | Carnivore => CARNIVORE_SYMBOL
  end.

(** The energy [reproduce] gives a child of each animal class. *)
Definition newborn_energy (o : Organism.t) : Prop :=
  match Organism.cls o with
  | Plant => True
  | Herbivore => Organism.energy o = HERBIVORE_CHILD_ENERGY
  | Carnivore => Organism.energy o = CARNIVORE_CHILD_ENERGY
  end.

(** What the objects of the registry satisfy besides [wf]: every
    organism the queries scan stands inside the grid and shows the
    symbol of its class; every alive animal among them, except the one
    whose turn is running ([exempt]), has positive energy; whatever is
    queued for removal is an allocated dead object; and every animal in
    the birth queue has the child energy of its class. *)
Record tidy (exempt : option ref) (eco : Ecosystem) : Prop := mk_tidy {
  tidy_bounds : ∀ r, r ∈ visible eco →
    in_bounds eco (Organism.x (obj eco r), Organism.y (obj eco r));
  tidy_symbol : ∀ r, r ∈ visible eco →
    Organism.symbol (obj eco r) = class_symbol (Organism.cls (obj eco r));
  tidy_energy : ∀ r, r ∈ visible eco → Some r ≠ exempt →
    Organism.alive (obj eco r) = true → Organism.cls (obj eco r) ≠ Plant →
    0 < Organism.energy (obj eco r);
  tidy_queued : ∀ r, r ∈ temp_removed_organisms eco →
    (r < length (heap eco))%nat ∧ Organism.alive (obj eco r) = false;
  tidy_newborn : ∀ r, r ∈ temp_added_organisms eco → newborn_energy (obj eco r)
}.

Global Instance newborn_energy_dec o : Decision (newborn_energy o).
Proof. unfold newborn_energy. destruct (Organism.cls o); apply _. Defined.

(** [tidy None] in a form that can be decided by evaluation. *)
Definition tidy_check (eco : Ecosystem) : Prop :=
  Forall (λ r,
      in_bounds eco (Organism.x (obj eco r), Organism.y (obj eco r))
      ∧ Organism.symbol (obj eco r) = class_symbol (Organism.cls (obj eco r))
      ∧ (Organism.alive (obj eco r) = true → Organism.cls (obj eco r) ≠ Plant →
         0 < Organism.energy (obj eco r))) (visible eco)
  ∧ Forall (λ r, (r < length (heap eco))%nat ∧ Organism.alive (obj eco r) = false)
           (temp_removed_organisms eco)
  ∧ Forall (λ r, newborn_energy (obj eco r)) (temp_added_organisms eco).

Global Instance tidy_check_dec eco : Decision (tidy_check eco).
Proof. unfold tidy_check. apply _. Defined.

(** A registry at a tick boundary whose objects are tidy. *)
Definition settled (eco : Ecosystem) : Prop := boundary eco ∧ tidy None eco.

(** ** Reading a displayed grid *)

(** A grid of [rows] rows of [cols] symbols each. *)
Definition grid_shape (cols rows : nat) (grid : list (list string)) : Prop :=
  length grid = rows ∧ Forall (λ row, length row = cols) grid.

(** [grid[y][x]] for indices inside the grid, [None] outside. *)
Definition grid_cell (grid : list (list string)) (x y : Z) : option string :=
  if decide (0 ≤ x ∧ 0 ≤ y) then
    row ← grid !! Z.to_nat y; row !! Z.to_nat x
  else None.

(** ** What no step ever changes

    [steady eco eco']: from [eco] to [eco'] the grid keeps its
    dimensions and the run its length, the heap only grows, no object
    changes its class or its symbol, and a plant changes in nothing but
    its [alive] flag going down. *)
Record steady (eco eco' : Ecosystem) : Prop := mk_steady {
  steady_dims : width eco' = width eco ∧ height eco' = height eco
                ∧ total_ticks eco' = total_ticks eco;
  steady_heap : (length (heap eco) ≤ length (heap eco'))%nat;
  steady_class : ∀ r, (r < length (heap eco))%nat →
    Organism.cls (obj eco' r) = Organism.cls (obj eco r)
    ∧ Organism.symbol (obj eco' r) = Organism.symbol (obj eco r);
  steady_plant : ∀ r, (r < length (heap eco))%nat →
    Organism.cls (obj eco r) = Plant →
    obj eco' r = obj eco r ∨ obj eco' r = Organism.set_alive (obj eco r) false
}.

(** ** The registries a run passes through

    Every statement of a turn that writes to an object or to a list of
    the registry leaves a registry behind.  For one call of a method,
    [<method>_states] lists these registries in the order of the
    statements, the registry the call starts from left out; the
    history of a run is the registry it starts from followed by the
    states of its ticks. *)

(** [organism.alive = False], then [self.temp_removed_organisms.append(organism)]. *)
Definition remove_organism_states (organism : ref) (eco : Ecosystem)
  : list Ecosystem :=
  [set_obj organism (Organism.set_alive (obj eco organism) false) eco;
   remove_organism organism eco].

(** [organism.x = new_x], then [organism.y = new_y]. *)
Definition move_organism_states (organism : ref) (new_x new_y : Z) (eco : Ecosystem)
  : list Ecosystem :=
  [set_obj organism
     (Organism.set_pos (obj eco organism) new_x (Organism.y (obj eco organism))) eco;
   move_organism organism new_x new_y eco].

(** [Plant.update]: the new plant is made, then queued. *)
Definition Plant_update_states (self : ref) (eco : Ecosystem) (g : Rng)
  : list Ecosystem :=
  let '(roll, g1) := random_lt PLANT_REPRODUCTION_CHANCE g in
  if roll then
    match get_adjacent_empty_cells eco (Organism.x (obj eco self))
                                       (Organism.y (obj eco self)) with
    | [] => []
    | c :: cs =>
        let '((new_x, new_y), g2) := choice c cs g1 in
        let '(new_plant, eco1) := new_object (construct Plant new_x new_y) eco in
        [eco1; add_organism new_plant eco1]
    end
  else [].

Definition Animal_update_states (self : ref) (eco : Ecosystem) : list Ecosystem :=
  [Animal.update self eco].

(** [Animal.eat]: the move onto the prey's cell, the removal of the
    prey, the gain. *)
Definition Animal_eat_states (self : ref) (eco : Ecosystem) (prey_class : Class)
           (eat_gain : Z) (g : Rng) : list Ecosystem :=
  match Animal.eat_target self eco prey_class g with
  | Some (prey, _) =>
      let eco1 := move_organism self (Organism.x (obj eco prey))
                                     (Organism.y (obj eco prey)) eco in
      let eco2 := remove_organism prey eco1 in
      move_organism_states self (Organism.x (obj eco prey))
                                (Organism.y (obj eco prey)) eco
      ++ remove_organism_states prey eco1
      ++ [set_energy self (Organism.energy (obj eco2 self) + eat_gain) eco2]
  | None => []
  end.

(** [Animal.reproduce]: the child is made, given its energy and queued,
    then the parent pays. *)
Definition Animal_reproduce_states (self : ref) (eco : Ecosystem)
           (reproduction_energy_threshold : Z) (reproduction_chance : nat)
           (reproduction_cost : Z) (child_class : Class) (child_energy : Z)
           (g : Rng) : list Ecosystem :=
  if decide (reproduction_energy_threshold ≤ Organism.energy (obj eco self)) then
    let '(roll, g1) := random_lt reproduction_chance g in
    if roll then
      match get_adjacent_empty_cells eco (Organism.x (obj eco self))
                                         (Organism.y (obj eco self)) with
      | [] => []
      | c :: cs =>
          let '((new_x, new_y), g2) := choice c cs g1 in
          let '(new_child, eco1) :=
            new_object (construct child_class new_x new_y) eco in
          let eco2 := set_energy new_child child_energy eco1 in
          let eco3 := add_organism new_child eco2 in
          [eco1; eco2; eco3;
           set_energy self (Organism.energy (obj eco3 self) - reproduction_cost) eco3]
      end
    else []
  else [].

Definition Animal_move_states (self : ref) (eco : Ecosystem) (g : Rng)
  : list Ecosystem :=
  match Animal.move_target self eco g with
  | None => []
  | Some ((new_x, new_y), _) => move_organism_states self new_x new_y eco
  end.

Definition Animal_survive_states (self : ref) (eco : Ecosystem) : list Ecosystem :=
  if decide (Organism.energy (obj eco self) ≤ 0) then remove_organism_states self eco
  else [].

(** The states of [Herbivore.update] and [Carnivore.update], step by
    step as in [Animal.act]. *)
Definition Animal_act_states (self : ref) (eco : Ecosystem) (prey_class : Class)
           (eat_gain : Z) (threshold : Z) (chance : nat) (cost : Z)
           (child_class : Class) (child_energy : Z) (g : Rng) : list Ecosystem :=
  let eco1 := Animal.update self eco in
  let '(ate, eco2, g2) := Animal.eat self eco1 prey_class eat_gain g in
  let '(acted, eco3, g3) :=
    if ate then (true, eco2, g2)
    else Animal.reproduce self eco2 threshold chance cost child_class child_energy g2 in
  let '(eco4, g4) := if acted then (eco3, g3) else Animal.move self eco3 g3 in
  Animal_update_states self eco
  ++ Animal_eat_states self eco1 prey_class eat_gain g
  ++ (if ate then []
      else Animal_reproduce_states self eco2 threshold chance cost child_class
             child_energy g2)
  ++ (if acted then [] else Animal_move_states self eco3 g3)
  ++ Animal_survive_states self eco4.

Definition update_states (self : ref) (eco : Ecosystem) (g : Rng) : list Ecosystem :=
  match Organism.cls (obj eco self) with
  | Plant => Plant_update_states self eco g
  | Herbivore =>
      Animal_act_states self eco Plant HERBIVORE_EAT_GAIN
        HERBIVORE_REPRODUCTION_ENERGY_THRESHOLD HERBIVORE_REPRODUCTION_CHANCE
        HERBIVORE_REPRODUCTION_COST Herbivore HERBIVORE_CHILD_ENERGY g
  | Carnivore =>
      Animal_act_states self eco Herbivore CARNIVORE_EAT_GAIN
        CARNIVORE_REPRODUCTION_ENERGY_THRESHOLD CARNIVORE_REPRODUCTION_CHANCE
        CARNIVORE_REPRODUCTION_COST Carnivore CARNIVORE_CHILD_ENERGY g
  end.

Definition turn_states (st : Ecosystem * Rng) (org : ref) : list Ecosystem :=
  if Organism.alive (obj st.1 org) then update_states org st.1 st.2 else [].

Fixpoint run_turns_states (order : list ref) (st : Ecosystem * Rng)
  : list Ecosystem :=
  match order with
  | [] => []
  | org :: order' => turn_states st org ++ run_turns_states order' (turn st org)
  end.

(** The commit: the births are appended, the deaths removed, the
    queues cleared; it writes to the lists only. *)
Definition commit_states (eco : Ecosystem) : list Ecosystem :=
  [commit_births eco; commit_deaths (commit_births eco); commit eco].

Definition tick_states (eco : Ecosystem) (g : Rng) : list Ecosystem :=
  let '(order, g1) := shuffle (organisms eco) g in
  run_turns_states order (eco, g1) ++ commit_states (run_turns order eco g1).1.

Fixpoint run_states (n : nat) (eco : Ecosystem) (g : Rng) : list Ecosystem :=
  match n with
  | O => []
  | S n' => tick_states eco g ++ run_states n' (tick eco g).1 (tick eco g).2
  end.

(** The registry a list of states ends on, starting from [eco]. *)
Definition last_state (eco : Ecosystem) (states : list Ecosystem) : Ecosystem :=
  default eco (last states).

(** From [eco] to [eco'] no dead object has changed. *)
Definition keeps_dead (eco eco' : Ecosystem) : Prop :=
  ∀ r, Organism.alive (obj eco r) = false → obj eco' r = obj eco r.

(** Along the states, from each to the next, no dead object changes. *)
Fixpoint dead_chain (eco : Ecosystem) (states : list Ecosystem) : Prop :=
  match states with
  | [] => True
  | s :: states' => keeps_dead eco s ∧ dead_chain s states'
  end.

(** ** Generators that give the same draws

    A seeded generator is the stream of the draws it will give: draw
    number [i] of the tape, and 0 once the tape is exhausted.  Two
    generator states are those of the same seed when they give the same
    stream. *)
Definition draw (i : nat) (g : Rng) : nat := nth i g 0%nat.

Definition same_stream (g g' : Rng) : Prop := ∀ i, draw i g = draw i g'.

(** Two results, each with the generator it leaves: the same value,
    generators of the same stream. *)
Definition same_result {A : Type} (r r' : A * Rng) : Prop :=
  r.1 = r'.1 ∧ same_stream r.2 r'.2.



(** * Properties *)

(** ** Objects under update and allocation *)

Lemma obj_set_obj_ne r r' o eco : r ≠ r' → obj (set_obj r o eco) r' = obj eco r'.
Proof. intros. unfold obj, set_obj; simpl. by apply list_lookup_total_insert_ne. Qed.

Lemma obj_set_obj_eq r o eco :
  (r < length (heap eco))%nat → obj (set_obj r o eco) r = o.
Proof. intros. unfold obj, set_obj; simpl. by apply list_lookup_total_insert_eq. Qed.

Lemma obj_set_obj_dangling r o eco :
  (length (heap eco) ≤ r)%nat → set_obj r o eco = eco.
Proof.
  intros. unfold set_obj. rewrite list_insert_ge by done. by destruct eco.
Qed.

Lemma obj_set_heap_app_old eco o r :
  (r < length (heap eco))%nat → obj (set_heap eco (heap eco ++ [o])) r = obj eco r.
Proof. intros. unfold obj; simpl. by apply lookup_total_app_l. Qed.

Lemma obj_set_heap_app_new eco o :
  obj (set_heap eco (heap eco ++ [o])) (length (heap eco)) = o.
Proof. unfold obj; simpl. by rewrite list_lookup_total_middle. Qed.

Lemma length_heap_set_obj r o eco :
  length (heap (set_obj r o eco)) = length (heap eco).
Proof. unfold set_obj; simpl. apply length_insert. Qed.

(** A field update changes at most the object it is aimed at. *)
Lemma obj_set_obj_cases r o eco r' :
  obj (set_obj r o eco) r' = obj eco r' ∨
  (r' = r ∧ (r < length (heap eco))%nat ∧ obj (set_obj r o eco) r' = o).
Proof.
  destruct (decide (r = r')) as [->|Hne].
  - destruct (decide (r' < length (heap eco))%nat).
    + right. by rewrite obj_set_obj_eq.
    + left. rewrite obj_set_obj_dangling; [done|lia].
  - left. by apply obj_set_obj_ne.
Qed.

(** ** The generator's primitives *)

Lemma choice_elem {A} (a : A) l g : (choice a l g).1 ∈ a :: l.
Proof.
  unfold choice, randbelow. destruct (next_draw g) as [d g'].
  cbn [fst]. apply list_elem_of_In, nth_In.
  cbn [length]. apply Nat.mod_upper_bound. lia.
Qed.

Lemma swap_Permutation {A} (l : list A) i j : swap l i j ≡ₚ l.
Proof.
  unfold swap. destruct (l !! i) as [a|] eqn:Hi; [|done].
  destruct (l !! j) as [b|] eqn:Hj; [|done].
  by apply Permutation_insert_swap.
Qed.

Lemma shuffle_from_Permutation {A} i (l : list A) g :
  (shuffle_from i l g).1 ≡ₚ l.
Proof.
  revert l g. induction i as [|i IH]; intros l g; simpl; [done|].
  destruct (randbelow (S (S i)) g) as [j g'].
  rewrite IH. apply swap_Permutation.
Qed.

Lemma shuffle_Permutation {A} (l : list A) g : (shuffle l g).1 ≡ₚ l.
Proof. apply shuffle_from_Permutation. Qed.


Lemma obj_set_obj r o eco r' :
  (r < length (heap eco))%nat →
  obj (set_obj r o eco) r' = if decide (r' = r) then o else obj eco r'.
Proof.
  intros. case_decide as Hd.
  - subst. by apply obj_set_obj_eq.
  - apply obj_set_obj_ne. congruence.
Qed.

(** ** The queries *)

Lemma elem_of_get_organism_at eco x y r :
  r ∈ get_organism_at eco x y ↔ r ∈ visible eco ∧ at_cell eco x y r.
Proof. unfold get_organism_at. rewrite list_elem_of_filter. tauto. Qed.

Lemma elem_of_get_adjacent_cells eco x y c :
  c ∈ get_adjacent_cells eco x y →
  in_bounds eco c ∧ c ≠ (x, y).
Proof.
  unfold get_adjacent_cells. rewrite list_elem_of_filter.
  intros [Hb Hin]. split; [done|].
  apply list_elem_of_fmap in Hin as (d & -> & Hd).
  unfold DIRECTIONS in Hd.
  repeat (apply elem_of_cons in Hd as [->|Hd]; [simpl; intros [=]; lia|]).
  by apply elem_of_nil in Hd.
Qed.

Lemma elem_of_get_adjacent_empty_cells eco x y c :
  c ∈ get_adjacent_empty_cells eco x y ↔
  c ∈ get_adjacent_cells eco x y ∧ get_organism_at eco c.1 c.2 = [].
Proof. unfold get_adjacent_empty_cells. rewrite list_elem_of_filter. tauto. Qed.

Lemma elem_of_get_adjacent_organisms eco x y target r :
  r ∈ get_adjacent_organisms eco x y target ↔
  r ∈ visible eco
  ∧ (Organism.x (obj eco r), Organism.y (obj eco r)) ∈ get_adjacent_cells eco x y
  ∧ Organism.isinstance (obj eco r) target = true
  ∧ Organism.alive (obj eco r) = true.
Proof.
  unfold get_adjacent_organisms. rewrite list_elem_of_join. split.
  - intros (l & Hr & Hl). apply list_elem_of_fmap in Hl as (c & -> & Hc).
    apply list_elem_of_filter in Hr as [(Hx & Hy & Hi & Ha) Hv].
    repeat split; try done.
    destruct c as [cx cy]; simpl in *. by rewrite Hx, Hy.
  - intros (Hv & Hc & Hi & Ha).
    eexists. split; [|apply list_elem_of_fmap; eexists; split; [reflexivity|exact Hc]].
    apply list_elem_of_filter. split; [|done]. by repeat split.
Qed.

(** A cell is empty exactly when no alive visible organism stands on it. *)
Lemma empty_cell_iff eco x y :
  get_organism_at eco x y = [] ↔
  ∀ r, r ∈ visible eco → Organism.alive (obj eco r) = true →
       Organism.x (obj eco r) = x → Organism.y (obj eco r) = y → False.
Proof.
  split.
  - intros He r Hv Ha Hx Hy.
    assert (r ∈ get_organism_at eco x y) as Hin
      by (apply elem_of_get_organism_at; by repeat split).
    rewrite He in Hin. by apply elem_of_nil in Hin.
  - intros H. apply elem_of_nil_inv. intros r Hr.
    apply elem_of_get_organism_at in Hr as (Hv & Hx & Hy & Ha). eauto.
Qed.

(** ** The registry's mutators and the invariant *)

Lemma obj_remove_organism p eco r :
  obj (remove_organism p eco) r
  = obj (set_obj p (Organism.set_alive (obj eco p) false) eco) r.
Proof. reflexivity. Qed.

Lemma obj_add_organism p eco r : obj (add_organism p eco) r = obj eco r.
Proof. reflexivity. Qed.

Lemma length_heap_remove_organism p eco :
  length (heap (remove_organism p eco)) = length (heap eco).
Proof. unfold remove_organism; simpl. apply length_insert. Qed.

(** Rewriting an object without touching its position or its [alive]
    flag (an energy update) keeps the registry well formed. *)
Lemma wf_set_obj_same r o eco :
  wf eco →
  Organism.x o = Organism.x (obj eco r) →
  Organism.y o = Organism.y (obj eco r) →
  Organism.alive o = Organism.alive (obj eco r) →
  wf (set_obj r o eco).
Proof.
  intros Hwf Hx Hy Ha.
  destruct (decide (r < length (heap eco))%nat) as [Hr|Hr];
    [|rewrite obj_set_obj_dangling; [done|lia]].
  assert (∀ r', Organism.x (obj (set_obj r o eco) r') = Organism.x (obj eco r')
              ∧ Organism.y (obj (set_obj r o eco) r') = Organism.y (obj eco r')
              ∧ Organism.alive (obj (set_obj r o eco) r') = Organism.alive (obj eco r'))
    as Hsame.
  { intros r'. rewrite obj_set_obj by done. case_decide; subst; done. }
  destruct Hwf as [Hnd Hv Hc Hd]. split.
  - done.
  - intros r' Hin. rewrite length_heap_set_obj. by apply Hv.
  - intros r1 r2 H1 H2.
    destruct (Hsame r1) as (-> & -> & ->). destruct (Hsame r2) as (-> & -> & ->).
    by apply Hc.
  - intros r' Hin. destruct (Hsame r') as (_ & _ & ->). by apply Hd.
Qed.

Lemma wf_set_energy r e eco : wf eco → wf (set_energy r e eco).
Proof. intros. by apply wf_set_obj_same. Qed.

(** [move_organism] onto an empty cell keeps occupancy. *)
Lemma wf_move_organism r nx ny eco :
  wf eco → get_organism_at eco nx ny = [] → wf (move_organism r nx ny eco).
Proof.
  intros Hwf Hempty. unfold move_organism.
  destruct (decide (r < length (heap eco))%nat) as [Hr|Hr];
    [|rewrite obj_set_obj_dangling; [done|lia]].
  rewrite empty_cell_iff in Hempty.
  destruct Hwf as [Hnd Hv Hc Hd]. split.
  - done.
  - intros r' Hin. rewrite length_heap_set_obj. by apply Hv.
  - intros r1 r2 H1 H2. rewrite !obj_set_obj by done.
    repeat case_decide; subst; simpl; try done.
    + intros Ha1 Ha2 Hx Hy. exfalso. by eapply (Hempty r2).
    + intros Ha1 Ha2 Hx Hy. exfalso. by eapply (Hempty r1).
    + by apply Hc.
  - intros r' Hin. rewrite obj_set_obj by done.
    case_decide; subst; simpl; by apply Hd.
Qed.

(** [remove_organism] keeps the invariant whatever it is aimed at. *)
Lemma wf_remove_organism p eco : wf eco → wf (remove_organism p eco).
Proof.
  intros Hwf.
  destruct Hwf as [Hnd Hv Hc Hd]. split.
  - done.
  - intros r' Hin. rewrite length_heap_remove_organism. by apply Hv.
  - intros r1 r2 H1 H2. rewrite !obj_remove_organism.
    destruct (decide (p < length (heap eco))%nat) as [Hp|Hp].
    + rewrite !obj_set_obj by done.
      repeat case_decide; subst; simpl; try done. by apply Hc.
    + rewrite obj_set_obj_dangling by lia. by apply Hc.
  - intros r' Hin. rewrite obj_remove_organism. simpl.
    destruct (decide (p < length (heap eco))%nat) as [Hp|Hp].
    + rewrite obj_set_obj by done. case_decide; subst.
      * intros _. apply elem_of_app. right. by apply list_elem_of_singleton.
      * intros Ha. apply elem_of_app. left. by apply Hd.
    + rewrite obj_set_obj_dangling by lia.
      intros Ha. apply elem_of_app. left. by apply Hd.
Qed.

(** The two registry calls of [eat]: the predator steps onto the cell
    of its alive prey, then the prey is removed. *)
Lemma wf_eat_step s p eco :
  wf eco → s ∈ visible eco → s ≠ p → p ∈ visible eco →
  Organism.alive (obj eco p) = true →
  wf (remove_organism p
        (move_organism s (Organism.x (obj eco p)) (Organism.y (obj eco p)) eco)).
Proof.
  intros Hwf Hsv Hsp Hpv Hpa.
  pose proof (wf_valid _ Hwf p Hpv) as Hp.
  pose proof (wf_valid _ Hwf s Hsv) as Hs.
  set (eco1 := move_organism s _ _ eco).
  assert (length (heap eco1) = length (heap eco)) as Hlen
    by apply length_heap_set_obj.
  assert (∀ r, r ≠ p →
    obj (remove_organism p eco1) r = obj eco1 r) as Hother.
  { intros r Hr. rewrite obj_remove_organism. apply obj_set_obj_ne. congruence. }
  assert (Organism.alive (obj (remove_organism p eco1) p) = false) as Hdead.
  { rewrite obj_remove_organism, obj_set_obj_eq; [done|lia]. }
  assert (∀ r, r ≠ s → obj eco1 r = obj eco r) as Hns.
  { intros r Hr. apply obj_set_obj_ne. congruence. }
  assert (Organism.alive (obj eco1 s) = Organism.alive (obj eco s)
          ∧ (Organism.alive (obj eco1 s) = true →
             Organism.x (obj eco1 s) = Organism.x (obj eco p)
             ∧ Organism.y (obj eco1 s) = Organism.y (obj eco p))) as [Hsa Hspos].
  { subst eco1. unfold move_organism. by rewrite obj_set_obj_eq. }
  destruct Hwf as [Hnd Hv Hc Hd]. split.
  - done.
  - intros r' Hin. rewrite length_heap_remove_organism, Hlen. by apply Hv.
  - intros r1 r2 H1 H2 Ha1 Ha2.
    destruct (decide (r1 = p)) as [->|Hr1]; [congruence|].
    destruct (decide (r2 = p)) as [->|Hr2]; [congruence|].
    rewrite !Hother in * by done.
    destruct (decide (r1 = s)) as [->|Hs1]; destruct (decide (r2 = s)) as [->|Hs2];
      try done.
    + destruct (Hspos Ha1) as [-> ->]. rewrite Hns in * by done.
      intros Hx Hy. exfalso. apply Hr2. symmetry. by apply Hc.
    + destruct (Hspos Ha2) as [-> ->]. rewrite Hns in * by done.
      intros Hx Hy. exfalso. apply Hr1. by apply Hc.
    + rewrite !Hns in * by done. by apply Hc.
  - intros r Hin Ha. simpl. apply elem_of_app.
    destruct (decide (r = p)) as [->|Hr]; [right; by apply list_elem_of_singleton|].
    left. apply Hd; [done|]. rewrite Hother in Ha by done.
    destruct (decide (r = s)) as [->|Hrs]; [congruence|].
    by rewrite Hns in Ha.
Qed.

(** A newborn allocated on an empty cell and queued as a birth. *)
Lemma wf_birth o eco :
  wf eco → get_organism_at eco (Organism.x o) (Organism.y o) = [] →
  wf (add_organism (length (heap eco)) (set_heap eco (heap eco ++ [o]))).
Proof.
  intros Hwf Hempty. rewrite empty_cell_iff in Hempty.
  set (n := length (heap eco)).
  set (eco' := add_organism n _).
  assert (visible eco' = visible eco ++ [n]) as Hvis
    by (unfold visible; simpl; by rewrite app_assoc).
  assert (∀ r, r ∈ visible eco → obj eco' r = obj eco r) as Hold.
  { intros r Hr. apply obj_set_heap_app_old. by apply (wf_valid _ Hwf). }
  assert (obj eco' n = o) as Hnew by apply obj_set_heap_app_new.
  assert (n ∉ visible eco) as Hfresh.
  { intros Hin. apply (wf_valid _ Hwf) in Hin. subst n. lia. }
  destruct Hwf as [Hnd Hv Hc Hd]. split.
  - rewrite Hvis. apply NoDup_app. split; [done|]. split; [|apply NoDup_singleton].
    intros r Hr ->%list_elem_of_singleton. done.
  - intros r. rewrite Hvis. simpl. rewrite length_app. simpl.
    intros [Hr| ->%list_elem_of_singleton]%elem_of_app; [apply Hv in Hr|]; subst n; lia.
  - intros r1 r2. rewrite Hvis.
    intros [H1| ->%list_elem_of_singleton]%elem_of_app
           [H2| ->%list_elem_of_singleton]%elem_of_app; try done.
    + rewrite !Hold by done. by apply Hc.
    + rewrite Hnew, Hold by done. intros Ha1 _ Hx Hy. exfalso. by eapply (Hempty r1).
    + rewrite Hnew, Hold by done. intros _ Ha2 Hx Hy. exfalso. by eapply (Hempty r2).
  - intros r Hr. simpl in Hr. rewrite Hold; [by apply Hd|].
    apply elem_of_app. by left.
Qed.

(** ** What a part of a turn may change *)

Lemma extends_refl eco : extends eco eco.
Proof. by split. Qed.

Lemma extends_trans eco1 eco2 eco3 :
  extends eco1 eco2 → extends eco2 eco3 → extends eco1 eco3.
Proof.
  intros [Ho1 Ha1 Hr1 Hh1 Hd1] [Ho2 Ha2 Hr2 Hh2 Hd2]. split.
  - congruence.
  - by etrans.
  - by etrans.
  - lia.
  - intros r Hr Ha. rewrite Hd2; [by apply Hd1| lia |].
    by rewrite Hd1.
Qed.

Lemma extends_set_obj r o eco :
  Organism.alive (obj eco r) = true → extends eco (set_obj r o eco).
Proof.
  intros Ha. split; try done.
  - by rewrite length_heap_set_obj.
  - intros r' Hr' Hd. apply obj_set_obj_ne. congruence.
Qed.

Lemma extends_remove_organism p eco :
  Organism.alive (obj eco p) = true → extends eco (remove_organism p eco).
Proof.
  intros Ha. split; try done.
  - simpl. by apply prefix_app_r.
  - by rewrite length_heap_remove_organism.
  - intros r' Hr' Hd. rewrite obj_remove_organism. apply obj_set_obj_ne. congruence.
Qed.

Lemma extends_birth o eco :
  extends eco (add_organism (length (heap eco)) (set_heap eco (heap eco ++ [o]))).
Proof.
  split; try done.
  - simpl. by apply prefix_app_r.
  - simpl. rewrite length_app. lia.
  - intros r Hr _. by apply obj_set_heap_app_old.
Qed.

(** An organism stays on turn across a step that leaves it alive. *)
Lemma on_turn_step self eco eco' :
  wf eco' → extends eco eco' → on_turn self eco →
  Organism.alive (obj eco' self) = true → on_turn self eco'.
Proof.
  intros Hwf Hext (_ & Hin & _) Ha. split; [done|]. split; [|done].
  by rewrite (ext_organisms _ _ Hext).
Qed.

Lemma on_turn_visible self eco : on_turn self eco → self ∈ visible eco.
Proof. intros (_ & Hin & _). apply elem_of_app. by left. Qed.

Lemma on_turn_valid self eco : on_turn self eco → (self < length (heap eco))%nat.
Proof. intros H. apply (wf_valid eco); [apply H|by apply on_turn_visible]. Qed.

(** ** The behaviours, one method at a time *)

Lemma eat_target_Some self eco prey_class g prey g1 :
  Animal.eat_target self eco prey_class g = Some (prey, g1) →
  prey ∈ get_adjacent_organisms eco (Organism.x (obj eco self))
                                    (Organism.y (obj eco self)) prey_class.
Proof.
  unfold Animal.eat_target.
  destruct (get_adjacent_organisms _ _ _ _) as [|p ps] eqn:Hl; [done|].
  intros [= Hc]. pose proof (choice_elem p ps g) as Hin.
  by rewrite Hc in Hin.
Qed.

Lemma eat_target_prey self eco prey_class g prey g1 :
  Animal.eat_target self eco prey_class g = Some (prey, g1) →
  prey ∈ visible eco ∧ Organism.alive (obj eco prey) = true
  ∧ Organism.cls (obj eco prey) = prey_class ∧ prey ≠ self.
Proof.
  intros Ht%eat_target_Some.
  apply elem_of_get_adjacent_organisms in Ht as (Hv & Hc & Hi & Ha).
  repeat split; try done.
  - unfold Organism.isinstance in Hi. by apply bool_decide_eq_true in Hi.
  - intros ->. apply elem_of_get_adjacent_cells in Hc as [_ Hne]. done.
Qed.

Lemma move_target_Some self eco g c g1 :
  Animal.move_target self eco g = Some (c, g1) →
  c ∈ get_adjacent_empty_cells eco (Organism.x (obj eco self))
                                   (Organism.y (obj eco self)).
Proof.
  unfold Animal.move_target.
  destruct (get_adjacent_empty_cells _ _ _) as [|c0 cs] eqn:Hl; [done|].
  intros [= Hc]. pose proof (choice_elem c0 cs g) as Hin.
  by rewrite Hc in Hin.
Qed.

Lemma Animal_update_spec self eco :
  on_turn self eco →
  on_turn self (Animal.update self eco) ∧ extends eco (Animal.update self eco).
Proof.
  intros Hon. pose proof (on_turn_valid _ _ Hon) as Hv.
  destruct Hon as (Hwf & Hin & Ha).
  assert (extends eco (Animal.update self eco)) as Hext
    by by apply extends_set_obj.
  split; [|done]. apply (on_turn_step self eco); try done.
  - by apply wf_set_energy.
  - unfold Animal.update, set_energy. by rewrite obj_set_obj_eq.
Qed.

Lemma Animal_eat_spec self eco prey_class eat_gain g :
  on_turn self eco →
  on_turn self (Animal.eat self eco prey_class eat_gain g).1.2
  ∧ extends eco (Animal.eat self eco prey_class eat_gain g).1.2.
Proof.
  intros Hon. unfold Animal.eat.
  destruct (Animal.eat_target self eco prey_class g) as [[prey g1]|] eqn:Ht;
    simpl; [|split; [done|apply extends_refl]].
  apply eat_target_prey in Ht as (Hpv & Hpa & _ & Hne).
  pose proof (on_turn_valid _ _ Hon) as Hv.
  pose proof (on_turn_visible _ _ Hon) as Hsv.
  pose proof Hon as (Hwf & Hin & Ha).
  set (eco1 := move_organism self _ _ eco).
  set (eco2 := remove_organism prey eco1).
  assert (obj eco1 prey = obj eco prey) as Hp1 by by apply obj_set_obj_ne.
  assert (Organism.alive (obj eco1 self) = true) as Ha1.
  { subst eco1. unfold move_organism. by rewrite obj_set_obj_eq. }
  assert (obj eco2 self = obj eco1 self) as Hs2.
  { subst eco2. rewrite obj_remove_organism. apply obj_set_obj_ne. congruence. }
  assert (extends eco eco2) as Hext2.
  { eapply extends_trans; [by apply extends_set_obj|].
    apply extends_remove_organism. fold eco1. by rewrite Hp1. }
  assert (wf eco2) as Hwf2 by by apply wf_eat_step.
  assert (extends eco (set_energy self (Organism.energy (obj eco2 self) + eat_gain) eco2))
    as Hext3.
  { eapply extends_trans; [exact Hext2|]. apply extends_set_obj. by rewrite Hs2. }
  split; [|done]. apply (on_turn_step self eco); try done.
  - by apply wf_set_energy.
  - assert (self < length (heap eco2))%nat as Hv2.
    { subst eco2 eco1. rewrite length_heap_remove_organism.
      unfold move_organism. by rewrite length_heap_set_obj. }
    unfold set_energy. rewrite obj_set_obj_eq by done. simpl. by rewrite Hs2.
Qed.

Lemma Animal_move_spec self eco g :
  on_turn self eco →
  on_turn self (Animal.move self eco g).1 ∧ extends eco (Animal.move self eco g).1.
Proof.
  intros Hon. unfold Animal.move.
  destruct (Animal.move_target self eco g) as [[[nx ny] g1]|] eqn:Ht;
    simpl; [|split; [done|apply extends_refl]].
  apply move_target_Some, elem_of_get_adjacent_empty_cells in Ht as [_ Hempty].
  pose proof (on_turn_valid _ _ Hon) as Hv.
  pose proof Hon as (Hwf & Hin & Ha).
  assert (extends eco (move_organism self nx ny eco)) as Hext
    by by apply extends_set_obj.
  split; [|done]. apply (on_turn_step self eco); try done.
  - by apply wf_move_organism.
  - unfold move_organism. by rewrite obj_set_obj_eq.
Qed.

Lemma Animal_survive_spec self eco :
  on_turn self eco →
  wf (Animal.survive self eco).2 ∧ extends eco (Animal.survive self eco).2.
Proof.
  intros (Hwf & Hin & Ha). unfold Animal.survive. case_decide; simpl.
  - split; [by apply wf_remove_organism|by apply extends_remove_organism].
  - split; [done|apply extends_refl].
Qed.

Lemma construct_fields c x y :
  Organism.x (construct c x y) = x ∧ Organism.y (construct c x y) = y
  ∧ Organism.alive (construct c x y) = true ∧ Organism.cls (construct c x y) = c.
Proof. by destruct c. Qed.

(** A child allocated on an empty cell, given its energy and queued. *)
Lemma birth_spec self eco o e :
  on_turn self eco →
  get_organism_at eco (Organism.x o) (Organism.y o) = [] →
  Organism.alive o = true →
  let eco' := add_organism (length (heap eco))
                (set_energy (length (heap eco)) e (set_heap eco (heap eco ++ [o]))) in
  on_turn self eco' ∧ extends eco eco' ∧ obj eco' self = obj eco self.
Proof.
  intros Hon Hempty Hao eco'.
  pose proof (on_turn_valid _ _ Hon) as Hv.
  pose proof Hon as (Hwf & Hin & Ha).
  set (n := length (heap eco)) in *.
  set (ecob := add_organism n (set_heap eco (heap eco ++ [o]))).
  assert (eco' = set_energy n e ecob) as -> by reflexivity.
  assert (wf ecob) as Hwfb by by apply wf_birth.
  assert (extends eco ecob) as Hextb by apply extends_birth.
  assert (obj ecob n = o) as Hnew by apply obj_set_heap_app_new.
  assert (extends eco (set_energy n e ecob)) as Hext.
  { eapply extends_trans; [exact Hextb|]. apply extends_set_obj. by rewrite Hnew. }
  assert (obj (set_energy n e ecob) self = obj eco self) as Hself.
  { unfold set_energy. rewrite obj_set_obj_ne by lia.
    by apply obj_set_heap_app_old. }
  split; [|done]. apply (on_turn_step self eco); try done.
  - by apply wf_set_energy.
  - by rewrite Hself.
Qed.

Lemma Animal_reproduce_spec self eco thr chance cost child_class child_energy g :
  on_turn self eco →
  on_turn self (Animal.reproduce self eco thr chance cost child_class child_energy g).1.2
  ∧ extends eco (Animal.reproduce self eco thr chance cost child_class child_energy g).1.2.
Proof.
  intros Hon. unfold Animal.reproduce.
  case_decide; simpl; [|split; [done|apply extends_refl]].
  destruct (random_lt chance g) as [[] g1]; simpl; [|split; [done|apply extends_refl]].
  destruct (get_adjacent_empty_cells _ _ _) as [|c cs] eqn:Hl;
    simpl; [split; [done|apply extends_refl]|].
  pose proof (choice_elem c cs g1) as Hin. rewrite <- Hl in Hin.
  destruct (choice c cs g1) as [[nx ny] g2]. simpl in Hin.
  apply elem_of_get_adjacent_empty_cells in Hin as [_ Hempty]. simpl in Hempty.
  destruct (construct_fields child_class nx ny) as (Hx & Hy & Ha & _).
  unfold new_object.
  destruct (birth_spec self eco (construct child_class nx ny) child_energy Hon)
    as (Hon' & Hext & Hself); [by rewrite Hx, Hy|done|].
  set (eco3 := add_organism _ _) in *. simpl.
  pose proof (on_turn_valid _ _ Hon') as Hv'.
  pose proof Hon' as (Hwf' & Hin' & Ha').
  assert (extends eco3 (set_energy self (Organism.energy (obj eco3 self) - cost) eco3))
    as Hext' by by apply extends_set_obj.
  split; [|by eapply extends_trans].
  apply (on_turn_step self eco3); try done.
  - by apply wf_set_energy.
  - unfold set_energy. by rewrite obj_set_obj_eq.
Qed.

Lemma Plant_update_spec self eco g :
  on_turn self eco →
  wf (Plant.update self eco g).1 ∧ extends eco (Plant.update self eco g).1.
Proof.
  intros Hon. pose proof Hon as (Hwf & _). unfold Plant.update.
  destruct (random_lt _ g) as [[] g1]; simpl; [|split; [done|apply extends_refl]].
  destruct (get_adjacent_empty_cells _ _ _) as [|c cs] eqn:Hl;
    simpl; [split; [done|apply extends_refl]|].
  pose proof (choice_elem c cs g1) as Hin. rewrite <- Hl in Hin.
  destruct (choice c cs g1) as [[nx ny] g2]. simpl in Hin.
  apply elem_of_get_adjacent_empty_cells in Hin as [_ Hempty]. simpl in Hempty.
  unfold new_object. simpl. split; [|apply extends_birth].
  by apply wf_birth.
Qed.

(** A turn of an animal ends with the survival check, run on a registry
    in which the animal is still on turn. *)
Lemma Animal_act_survive self eco prey_class eat_gain thr chance cost child_class
      child_energy g :
  on_turn self eco →
  ∃ eco4,
    (Animal.act self eco prey_class eat_gain thr chance cost child_class
       child_energy g).1 = (Animal.survive self eco4).2
    ∧ on_turn self eco4 ∧ extends eco eco4.
Proof.
  intros Hon. unfold Animal.act.
  destruct (Animal_update_spec self eco Hon) as [Hon1 Hext1].
  pose proof (Animal_eat_spec self _ prey_class eat_gain g Hon1) as [Hon2 Hext2].
  destruct (Animal.eat _ _ _ _ _) as [[ate eco2] g2]. simpl in Hon2, Hext2.
  assert (∃ acted eco3 g3,
    (if ate then (true, eco2, g2)
     else Animal.reproduce self eco2 thr chance cost child_class child_energy g2)
    = (acted, eco3, g3) ∧ on_turn self eco3 ∧ extends eco2 eco3)
    as (acted & eco3 & g3 & -> & Hon3 & Hext3).
  { destruct ate.
    - do 3 eexists. split; [done|]. split; [done|apply extends_refl].
    - pose proof (Animal_reproduce_spec self eco2 thr chance cost child_class
                    child_energy g2 Hon2) as [? ?].
      destruct (Animal.reproduce _ _ _ _ _ _ _ _) as [[b e3] g3]. by do 3 eexists. }
  assert (∃ eco4 g4,
    (if acted then (eco3, g3) else Animal.move self eco3 g3) = (eco4, g4)
    ∧ on_turn self eco4 ∧ extends eco3 eco4) as (eco4 & g4 & -> & Hon4 & Hext4).
  { destruct acted.
    - do 2 eexists. split; [done|]. split; [done|apply extends_refl].
    - pose proof (Animal_move_spec self eco3 g3 Hon3) as [? ?].
      destruct (Animal.move _ _ _) as [e4 g4]. by do 2 eexists. }
  exists eco4. simpl. split; [done|]. split; [done|].
  eauto using extends_trans.
Qed.

Lemma Animal_act_spec self eco prey_class eat_gain thr chance cost child_class
      child_energy g :
  on_turn self eco →
  wf (Animal.act self eco prey_class eat_gain thr chance cost child_class
        child_energy g).1
  ∧ extends eco (Animal.act self eco prey_class eat_gain thr chance cost child_class
        child_energy g).1.
Proof.
  intros Hon.
  destruct (Animal_act_survive self eco prey_class eat_gain thr chance cost
              child_class child_energy g Hon) as (eco4 & -> & Hon4 & Hext4).
  destruct (Animal_survive_spec self eco4 Hon4) as [Hwf5 Hext5].
  split; [done|]. by eapply extends_trans.
Qed.

(** The survival check is always the last word of an animal's turn: an
    animal left with no energy is dead and queued for removal. *)
Lemma Animal_act_starved self eco prey_class eat_gain thr chance cost child_class
      child_energy g :
  on_turn self eco →
  let eco' := (Animal.act self eco prey_class eat_gain thr chance cost child_class
                 child_energy g).1 in
  Organism.energy (obj eco' self) ≤ 0 →
  Organism.alive (obj eco' self) = false ∧ self ∈ temp_removed_organisms eco'.
Proof.
  intros Hon eco'. subst eco'.
  destruct (Animal_act_survive self eco prey_class eat_gain thr chance cost
              child_class child_energy g Hon) as (eco4 & -> & Hon4 & _).
  pose proof (on_turn_valid _ _ Hon4) as Hv.
  unfold Animal.survive. case_decide as He; simpl; [|lia].
  intros _. split.
  - rewrite obj_remove_organism. by rewrite obj_set_obj_eq.
  - apply elem_of_app. right. by apply list_elem_of_singleton.
Qed.

Lemma update_spec self eco g :
  on_turn self eco → wf (update self eco g).1 ∧ extends eco (update self eco g).1.
Proof.
  intros Hon. unfold update, Herbivore.update, Carnivore.update.
  destruct (Organism.cls (obj eco self)).
  - by apply Plant_update_spec.
  - by apply Animal_act_spec.
  - by apply Animal_act_spec.
Qed.

Lemma turn_spec st org :
  wf st.1 → org ∈ organisms st.1 →
  wf (turn st org).1 ∧ extends st.1 (turn st org).1.
Proof.
  intros Hwf Hin. unfold turn.
  destruct (Organism.alive (obj st.1 org)) eqn:Ha.
  - by apply update_spec.
  - split; [done|apply extends_refl].
Qed.

Lemma run_turns_spec order eco g :
  wf eco → (∀ r, r ∈ order → r ∈ organisms eco) →
  wf (run_turns order eco g).1 ∧ extends eco (run_turns order eco g).1.
Proof.
  unfold run_turns. revert eco g. induction order as [|org order IH]; intros eco g Hwf Hsub.
  - simpl. split; [done|apply extends_refl].
  - simpl. destruct (turn_spec (eco, g) org Hwf) as [Hwf1 Hext1].
    { apply Hsub. by left. }
    destruct (turn (eco, g) org) as [eco1 g1]. simpl in *.
    destruct (IH eco1 g1 Hwf1) as [Hwf2 Hext2].
    { intros r Hr. rewrite (ext_organisms _ _ Hext1). apply Hsub. by right. }
    split; [done|by eapply extends_trans].
Qed.

(** ** The commit phase *)

Lemma commit_births_eq eco :
  commit_births eco
  = set_organisms eco
      (organisms eco
       ++ filter (λ r, Organism.alive (obj eco r) = true) (temp_added_organisms eco)).
Proof.
  unfold commit_births. generalize (temp_added_organisms eco) as l.
  intros l. revert eco. induction l as [|a l IH]; intros eco.
  - simpl. rewrite app_nil_r. by destruct eco.
  - simpl. rewrite filter_cons. destruct (Organism.alive (obj eco a)) eqn:Ha.
    + rewrite IH. rewrite decide_True by done.
      unfold set_organisms; simpl. by rewrite <- app_assoc.
    + rewrite IH. by rewrite decide_False by done.
Qed.

Lemma commit_deaths_eq eco :
  commit_deaths eco
  = set_organisms eco (purge (temp_removed_organisms eco) (organisms eco)).
Proof.
  unfold commit_deaths, purge. generalize (temp_removed_organisms eco) as l.
  intros l. revert eco. induction l as [|a l IH]; intros eco.
  - simpl. by destruct eco.
  - simpl. case_decide; by rewrite IH.
Qed.

Lemma sublist_elem {A} (r : A) l1 l2 : r ∈ l1 → l1 `sublist_of` l2 → r ∈ l2.
Proof. intros Hr Hsub. by apply (sublist_subseteq _ _ Hsub). Qed.

Lemma remove_first_sublist r l : remove_first r l `sublist_of` l.
Proof.
  induction l as [|a l IH]; simpl; [done|].
  case_decide; [by apply sublist_cons|by apply sublist_skip].
Qed.

Lemma remove_first_gone r l : NoDup l → r ∉ remove_first r l.
Proof.
  induction 1 as [|a l Ha Hnd IH]; simpl; [apply not_elem_of_nil|].
  case_decide; subst; [done|].
  intros [?|?]%elem_of_cons; [congruence|done].
Qed.

Lemma purge_sublist dead l : purge dead l `sublist_of` l.
Proof.
  unfold purge. revert l. induction dead as [|d dead IH]; intros l; simpl; [done|].
  case_decide; [|done]. etrans; [apply IH|apply remove_first_sublist].
Qed.

Lemma purge_gone dead l r : NoDup l → r ∈ dead → r ∉ purge dead l.
Proof.
  revert l. induction dead as [|d dead IH]; intros l Hnd Hin.
  { by apply elem_of_nil in Hin. }
  assert (purge (d :: dead) l
          = purge dead (if decide (d ∈ l) then remove_first d l else l)) as ->
    by reflexivity.
  apply elem_of_cons in Hin as [->|Hin].
  - intros Hp. eapply sublist_elem in Hp; [|apply purge_sublist].
    case_decide; [by eapply remove_first_gone|done].
  - apply IH; [|done]. case_decide; [|done].
    eapply sublist_NoDup; [exact Hnd|apply remove_first_sublist].
Qed.

Lemma organisms_commit eco :
  organisms (commit eco)
  = purge (temp_removed_organisms eco)
      (organisms eco
       ++ filter (λ r, Organism.alive (obj eco r) = true) (temp_added_organisms eco)).
Proof.
  unfold commit. rewrite commit_deaths_eq, commit_births_eq. reflexivity.
Qed.

Lemma heap_commit eco : heap (commit eco) = heap eco.
Proof.
  unfold commit. rewrite commit_deaths_eq, commit_births_eq. reflexivity.
Qed.

Lemma organisms_commit_sublist eco :
  organisms (commit eco) `sublist_of` visible eco.
Proof.
  rewrite organisms_commit. etrans; [apply purge_sublist|].
  unfold visible. apply sublist_app; [done|]. apply sublist_filter.
Qed.

(** The commit leaves a well-formed registry with empty queues, in
    which every organism of the main storage is alive. *)
Lemma commit_boundary eco : wf eco → boundary (commit eco).
Proof.
  intros Hwf. pose proof (organisms_commit_sublist eco) as Hsub.
  assert (visible (commit eco) = organisms (commit eco)) as Hvis.
  { unfold visible, commit; simpl. by rewrite app_nil_r. }
  assert (∀ r, obj (commit eco) r = obj eco r) as Hobj.
  { intros r. unfold obj. by rewrite heap_commit. }
  split; [|done]. split.
  - rewrite Hvis. eapply sublist_NoDup; [apply Hwf|exact Hsub].
  - intros r. rewrite Hvis, heap_commit. intros Hr.
    apply (wf_valid _ Hwf). by eapply sublist_elem.
  - intros r1 r2. rewrite Hvis, !Hobj. intros H1 H2.
    apply (wf_cells _ Hwf); by eapply sublist_elem.
  - intros r Hr. rewrite Hobj. intros Ha. exfalso.
    pose proof Hr as Hr'. rewrite organisms_commit in Hr'.
    revert Hr'. apply purge_gone.
    + eapply sublist_NoDup; [apply (wf_nodup _ Hwf)|].
      unfold visible. apply sublist_app; [done|]. apply sublist_filter.
    + apply (wf_dead _ Hwf); [|done].
      rewrite organisms_commit in Hr.
      eapply sublist_elem in Hr; [|apply purge_sublist].
      apply elem_of_app in Hr as [?|Hr]; [done|].
      apply list_elem_of_filter in Hr as [? _]. congruence.
Qed.

Lemma boundary_alive eco r :
  boundary eco → r ∈ organisms eco → Organism.alive (obj eco r) = true.
Proof.
  intros (Hwf & _ & Hrem) Hr.
  destruct (Organism.alive (obj eco r)) eqn:Ha; [done|].
  apply (wf_dead _ Hwf) in Ha; [|done]. rewrite Hrem in Ha.
  by apply elem_of_nil in Ha.
Qed.

Lemma tick_boundary eco g : boundary eco → boundary (tick eco g).1.
Proof.
  intros (Hwf & _). unfold tick.
  pose proof (shuffle_Permutation (organisms eco) g) as Hperm.
  destruct (shuffle (organisms eco) g) as [order g1]. simpl in Hperm.
  destruct (run_turns_spec order eco g1 Hwf) as [Hwf1 _].
  { intros r Hr. by rewrite <- Hperm. }
  destruct (run_turns order eco g1) as [eco1 g2]. simpl in *.
  by apply commit_boundary.
Qed.

Lemma ticks_boundary n eco g : boundary eco → boundary (ticks n eco g).1.
Proof.
  revert eco g. induction n as [|n IH]; intros eco g Hb; simpl; [done|].
  pose proof (tick_boundary eco g Hb) as Hb1.
  destruct (tick eco g) as [eco1 g1]. by apply IH.
Qed.

(** Occupancy follows from well-formedness. *)
Lemma wf_occupancy eco x y : wf eco → (length (get_organism_at eco x y) ≤ 1)%nat.
Proof.
  intros Hwf.
  assert (NoDup (get_organism_at eco x y)) as Hnd
    by (apply NoDup_filter, Hwf).
  destruct (get_organism_at eco x y) as [|r1 [|r2 l]] eqn:Hl; simpl; try lia.
  exfalso.
  assert (r1 ∈ get_organism_at eco x y) as H1 by (rewrite Hl; by left).
  assert (r2 ∈ get_organism_at eco x y) as H2 by (rewrite Hl; right; by left).
  apply elem_of_get_organism_at in H1 as (Hv1 & Hx1 & Hy1 & Ha1).
  apply elem_of_get_organism_at in H2 as (Hv2 & Hx2 & Hy2 & Ha2).
  assert (r1 = r2) as -> by (apply (wf_cells _ Hwf); congruence).
  apply NoDup_cons in Hnd as [Hnot _]. apply Hnot. by left.
Qed.

(** ** Seeding *)

Lemma randint_bounds a b g v g' : randint a b g = Some (v, g') → a ≤ v ≤ b.
Proof.
  unfold randint, randbelow. case_decide; [done|].
  destruct (next_draw g) as [d g1]. intros [= <- _].
  assert (d mod Z.to_nat (b - a + 1) < Z.to_nat (b - a + 1))%nat
    by (apply Nat.mod_upper_bound; lia).
  lia.
Qed.

Lemma draw_cell_bounds eco g c g' : draw_cell eco g = Some (c, g') → in_bounds eco c.
Proof.
  unfold draw_cell.
  destruct (randint 0 (width eco - 1) g) as [[x g2]|] eqn:Hx; [|done].
  destruct (randint 0 (height eco - 1) g2) as [[y g3]|] eqn:Hy; [|done].
  intros [= <- <-]. apply randint_bounds in Hx, Hy.
  unfold in_bounds; simpl. lia.
Qed.

Lemma random_empty_cell_Ok fuel eco g c eco1 g1 :
  random_empty_cell fuel eco g = Ok (c, eco1, g1) →
  (c ∉ initial_helper_set eco)
  ∧ eco1 = set_helper eco (initial_helper_set eco ∪ {[ c ]})
  ∧ in_bounds eco c.
Proof.
  revert g. induction fuel as [|fuel IH]; intros g; simpl; [done|].
  destruct (draw_cell eco g) as [[c' g2]|] eqn:Hc; [|done].
  case_decide as Hin; [apply IH|].
  intros [= <- <- <-]. apply draw_cell_bounds in Hc. done.
Qed.

Lemma seeding_step eco c o :
  seeding eco → c ∉ initial_helper_set eco →
  Organism.x o = c.1 → Organism.y o = c.2 → Organism.alive o = true →
  seeding (set_organisms
             (set_heap (set_helper eco (initial_helper_set eco ∪ {[ c ]}))
                       (heap eco ++ [o]))
             (organisms eco ++ [length (heap eco)])).
Proof.
  intros [Hos Had Hre Hal Hce Hdi] Hfresh Hx Hy Ha.
  set (eco' := set_organisms _ _).
  assert (length (heap eco') = S (length (heap eco))) as Hlen
    by (subst eco'; simpl; rewrite length_app; simpl; lia).
  assert (∀ r, (r < length (heap eco))%nat → obj eco' r = obj eco r) as Hold.
  { intros r Hr. subst eco'. unfold obj; simpl. by apply lookup_total_app_l. }
  assert (obj eco' (length (heap eco)) = o) as Hnew.
  { subst eco'. unfold obj; simpl. by rewrite list_lookup_total_middle. }
  assert (∀ r, (r < length (heap eco))%nat →
    (Organism.x (obj eco r), Organism.y (obj eco r)) ≠ c) as Hne.
  { intros r Hr Heq. apply Hfresh. rewrite <- Heq. by apply Hce. }
  assert (∀ r, (r < length (heap eco'))%nat →
    (r < length (heap eco))%nat ∨ r = length (heap eco)) as Hcase
    by (intros r; rewrite Hlen; lia).
  split.
  - rewrite Hlen, seq_S. simpl. by rewrite Hos.
  - done.
  - done.
  - intros r [Hr| ->]%Hcase; [rewrite Hold by done; by apply Hal|by rewrite Hnew].
  - intros r [Hr| ->]%Hcase; simpl.
    + rewrite Hold by done. apply elem_of_union. left. by apply Hce.
    + rewrite Hnew, Hx, Hy. apply elem_of_union. right.
      apply elem_of_singleton. by destruct c.
  - intros r1 r2 [H1| ->]%Hcase [H2| ->]%Hcase; try done.
    + rewrite !Hold by done. by apply Hdi.
    + rewrite Hnew, Hold by done. intros Hx' Hy'. exfalso.
      apply (Hne r1 H1). destruct c; simpl in *. congruence.
    + rewrite Hnew, Hold by done. intros Hx' Hy'. exfalso.
      apply (Hne r2 H2). destruct c; simpl in *. congruence.
Qed.

Lemma populate_loop_seeding fuel c n eco g eco' g' :
  seeding eco → populate_loop fuel c n eco g = Ok (eco', g') → seeding eco'.
Proof.
  revert eco g. induction n as [|n IH]; intros eco g Hs; simpl.
  { by intros [= <- _]. }
  destruct (random_empty_cell fuel eco g) as [[[[x y] eco1] g1]| |] eqn:Hc;
    try done.
  apply random_empty_cell_Ok in Hc as (Hfresh & -> & _).
  unfold new_object; simpl. apply IH.
  destruct (construct_fields c x y) as (Hx & Hy & Ha & _).
  by apply (seeding_step eco (x, y) (construct c x y)).
Qed.

Lemma seeding_boundary eco : seeding eco → boundary (set_helper eco ∅).
Proof.
  intros [Hos Had Hre Hal Hce Hdi].
  assert (visible (set_helper eco ∅) = seq 0 (length (heap eco))) as Hvis
    by (unfold visible; simpl; by rewrite Had, app_nil_r).
  split; [|done]. split.
  - rewrite Hvis. apply NoDup_seq.
  - intros r. rewrite Hvis. intros Hr%elem_of_seq. simpl. lia.
  - intros r1 r2. rewrite Hvis. intros H1%elem_of_seq H2%elem_of_seq _ _.
    apply Hdi; lia.
  - intros r. simpl. rewrite Hos. intros Hr%elem_of_seq Ha.
    change (obj (set_helper eco ∅) r) with (obj eco r) in Ha.
    rewrite Hal in Ha; [done|lia].
Qed.

Lemma init_boundary fuel w h np nh nc t g eco g' s0 :
  init fuel w h np nh nc t g = Ok (eco, g', s0) → boundary eco.
Proof.
  unfold init, populate.
  set (eco0 := mkEcosystem _ _ _ _ _ _ _ _).
  assert (seeding eco0) as Hs0.
  { split; try done; simpl; intros; lia. }
  destruct (populate_loop fuel Plant _ eco0 g) as [[eco1 g1]| |] eqn:H1; try done.
  destruct (populate_loop fuel Herbivore _ eco1 g1) as [[eco2 g2]| |] eqn:H2; try done.
  destruct (populate_loop fuel Carnivore _ eco2 g2) as [[eco3 g3]| |] eqn:H3; try done.
  destruct (separator _) as [line| |]; try done.
  destruct (display _ 0) as [s| |]; try done.
  intros [= <- _ _]. apply seeding_boundary.
  eauto using populate_loop_seeding.
Qed.

(** The registry [run] ends on is the one [ticks] computes. *)
Lemma run_from_ticks n t eco g eco' g' ss :
  run_from n t eco g = Ok (eco', g', ss) →
  ticks n eco g = (eco', g') ∧ length ss = n.
Proof.
  revert t eco g ss. induction n as [|n IH]; intros t eco g ss; simpl.
  { by intros [= <- <- <-]. }
  destruct (tick eco g) as [eco1 g1].
  destruct (display eco1 (t + 1)) as [s| |]; try done.
  destruct (run_from n (t + 1) eco1 g1) as [[[eco2 g2] ss']| |] eqn:Hr; try done.
  intros [= <- <- <-]. apply IH in Hr as [-> Hlen]. simpl. by rewrite Hlen.
Qed.

(** * The properties of the specification *)

(** C1. Occupancy invariant: whenever the construction returns, then
    after any number of ticks, at the boundary left by the commit phase,
    both queues are empty and every cell holds at most one alive
    organism. *)
Theorem occupancy_after_commit fuel w h np nh nc t g eco g1 s0 n :
  init fuel w h np nh nc t g = Ok (eco, g1, s0) →
  temp_added_organisms (ticks n eco g1).1 = []
  ∧ temp_removed_organisms (ticks n eco g1).1 = []
  ∧ ∀ x y, (length (get_organism_at (ticks n eco g1).1 x y) ≤ 1)%nat.
Proof.
  intros Hinit%init_boundary.
  destruct (ticks_boundary n eco g1 Hinit) as (Hwf & Ha & Hr).
  split; [done|]. split; [done|].
  intros x y. by apply wf_occupancy.
Qed.

Lemma occupancy_after_commit_witness :
  ∃ eco g1 s0,
    init 50 3 3 2 2 1 3 demo_tape = Ok (eco, g1, s0)
    ∧ temp_added_organisms (ticks 2 eco g1).1 = []
    ∧ temp_removed_organisms (ticks 2 eco g1).1 = []
    ∧ ∀ x y, (length (get_organism_at (ticks 2 eco g1).1 x y) ≤ 1)%nat.
Proof.
  destruct (init 50 3 3 2 2 1 3 demo_tape) as [[[eco g1] s0]| |] eqn:Hi.
  - exists eco, g1, s0. split; [reflexivity|].
    exact (occupancy_after_commit 50 3 3 2 2 1 3 demo_tape eco g1 s0 2 Hi).
  - vm_compute in Hi. discriminate Hi.
  - vm_compute in Hi. discriminate Hi.
Defined.

(** ** The eat step in detail *)

Lemma no_dangling_valid eco r :
  no_dangling eco → r ∈ visible eco → (r < length (heap eco))%nat.
Proof. unfold no_dangling. rewrite Forall_forall. auto. Qed.

Lemma wf_no_dangling eco : wf eco → no_dangling eco.
Proof. intros Hwf. apply Forall_forall. apply Hwf. Qed.

(** Everything a successful [eat] leaves behind. *)
Lemma Animal_eat_true self eco prey_class eat_gain g eco' g' :
  no_dangling eco → (self < length (heap eco))%nat →
  Animal.eat self eco prey_class eat_gain g = (true, eco', g') →
  ∃ prey,
    prey ∈ get_adjacent_organisms eco (Organism.x (obj eco self))
                                      (Organism.y (obj eco self)) prey_class
    ∧ prey ≠ self
    ∧ obj eco' prey = Organism.set_alive (obj eco prey) false
    ∧ obj eco' self
      = Organism.set_energy
          (Organism.set_pos (obj eco self) (Organism.x (obj eco prey))
                                           (Organism.y (obj eco prey)))
          (Organism.energy (obj eco self) + eat_gain)
    ∧ (∀ r, r ≠ self → r ≠ prey → obj eco' r = obj eco r)
    ∧ visible eco' = visible eco
    ∧ temp_removed_organisms eco' = temp_removed_organisms eco ++ [prey].
Proof.
  intros Hnd Hself. unfold Animal.eat.
  destruct (Animal.eat_target self eco prey_class g) as [[prey g1]|] eqn:Ht; [|done].
  intros [= <- <-]. exists prey.
  pose proof (eat_target_Some _ _ _ _ _ _ Ht) as Hin.
  apply eat_target_prey in Ht as (Hpv & Hpa & _ & Hne).
  pose proof (no_dangling_valid _ _ Hnd Hpv) as Hp.
  set (eco1 := move_organism self _ _ eco).
  set (eco2 := remove_organism prey eco1).
  assert (length (heap eco1) = length (heap eco)) as Hl1
    by apply length_heap_set_obj.
  assert (length (heap eco2) = length (heap eco)) as Hl2
    by (subst eco2; by rewrite length_heap_remove_organism).
  assert (∀ r, obj eco1 r
    = if decide (r = self)
      then Organism.set_pos (obj eco self) (Organism.x (obj eco prey))
                                           (Organism.y (obj eco prey))
      else obj eco r) as H1.
  { intros r. subst eco1. unfold move_organism. by rewrite obj_set_obj. }
  assert (∀ r, obj eco2 r
    = if decide (r = prey) then Organism.set_alive (obj eco1 prey) false
      else obj eco1 r) as H2.
  { intros r. subst eco2. rewrite obj_remove_organism, obj_set_obj; [done|lia]. }
  assert (∀ r, obj (set_energy self (Organism.energy (obj eco2 self) + eat_gain) eco2) r
    = if decide (r = self)
      then Organism.set_energy (obj eco2 self) (Organism.energy (obj eco2 self) + eat_gain)
      else obj eco2 r) as H3.
  { intros r. unfold set_energy. rewrite obj_set_obj; [done|lia]. }
  split; [done|]. split; [done|].
  split. { rewrite H3, !H2, !H1. repeat case_decide; by simplify_eq. }
  split. { rewrite H3, !H2, !H1. repeat case_decide; by simplify_eq. }
  split. { intros r Hrs Hrp. rewrite H3, !H2, !H1. repeat case_decide; by simplify_eq. }
  done.
Qed.

Lemma dead_not_queried eco r :
  Organism.alive (obj eco r) = false →
  (∀ x y, r ∉ get_organism_at eco x y)
  ∧ (∀ x y target, r ∉ get_adjacent_organisms eco x y target).
Proof.
  intros Hd. split.
  - intros x y (_ & _ & _ & Ha)%elem_of_get_organism_at. congruence.
  - intros x y t (_ & _ & _ & Ha)%elem_of_get_adjacent_organisms. congruence.
Qed.

(** The registry after the metabolic cost. *)
Lemma Animal_update_obj self eco r :
  (self < length (heap eco))%nat →
  obj (Animal.update self eco) r
  = if decide (r = self)
    then Organism.set_energy (obj eco self)
           (Organism.energy (obj eco self) - METABOLIC_ENERGY_COST)
    else obj eco r.
Proof. intros. unfold Animal.update, set_energy. by rewrite obj_set_obj. Qed.

Lemma Animal_update_no_dangling self eco :
  no_dangling eco → no_dangling (Animal.update self eco).
Proof.
  unfold no_dangling, Animal.update, set_energy. by rewrite length_heap_set_obj.
Qed.

Lemma Animal_update_fields self eco r :
  Organism.x (obj (Animal.update self eco) r) = Organism.x (obj eco r)
  ∧ Organism.y (obj (Animal.update self eco) r) = Organism.y (obj eco r)
  ∧ Organism.alive (obj (Animal.update self eco) r) = Organism.alive (obj eco r)
  ∧ Organism.cls (obj (Animal.update self eco) r) = Organism.cls (obj eco r).
Proof.
  unfold Animal.update, set_energy.
  destruct (obj_set_obj_cases self
              (Organism.set_energy (obj eco self)
                 (Organism.energy (obj eco self) - METABOLIC_ENERGY_COST)) eco r)
    as [->|(-> & _ & ->)]; done.
Qed.

Lemma get_adjacent_organisms_Animal_update self eco x y target r :
  r ∈ get_adjacent_organisms (Animal.update self eco) x y target
  ↔ r ∈ get_adjacent_organisms eco x y target.
Proof.
  rewrite !elem_of_get_adjacent_organisms.
  destruct (Animal_update_fields self eco r) as (Hx & Hy & Ha & Hc).
  unfold Organism.isinstance. rewrite Hx, Hy, Ha, Hc. done.
Qed.

(** C2. Eat contract: when the eat step of a Herbivore's or Carnivore's
    turn succeeds (it runs on the registry left by the metabolic cost),
    there is a prey of the designated class, adjacent and alive before,
    whose [alive] flag is false right after the step, so that no
    occupancy or adjacency query returns it; the predator stands on the
    prey's former cell; its energy is what it was at the start of the
    turn, minus the metabolic cost of 1, plus the species' eat gain (10
    or 15); and the turn goes straight on to the survival check. *)
Theorem eat_contract self eco prey_class eat_gain g eco2 g2 :
  no_dangling eco → (self < length (heap eco))%nat →
  (Organism.cls (obj eco self), prey_class, eat_gain)
    ∈ [(Herbivore, Plant, 10); (Carnivore, Herbivore, 15)] →
  Animal.eat self (Animal.update self eco) prey_class eat_gain g = (true, eco2, g2) →
  update self eco g = ((Animal.survive self eco2).2, g2)
  ∧ ∃ prey,
      prey ∈ get_adjacent_organisms eco (Organism.x (obj eco self))
                                        (Organism.y (obj eco self)) prey_class
      ∧ Organism.alive (obj eco2 prey) = false
      ∧ (∀ x y, prey ∉ get_organism_at eco2 x y)
      ∧ (∀ x y target, prey ∉ get_adjacent_organisms eco2 x y target)
      ∧ Organism.x (obj eco2 self) = Organism.x (obj eco prey)
      ∧ Organism.y (obj eco2 self) = Organism.y (obj eco prey)
      ∧ Organism.energy (obj eco2 self)
        = Organism.energy (obj eco self) - 1 + eat_gain.
Proof.
  intros Hnd Hself Hspecies Heat. split.
  - unfold update.
    apply elem_of_cons in Hspecies as [[= -> -> ->]|Hspecies];
      [|apply list_elem_of_singleton in Hspecies as [= -> -> ->]].
    + unfold Herbivore.update, Animal.act. unfold_constants. by rewrite Heat.
    + unfold Carnivore.update, Animal.act. unfold_constants. by rewrite Heat.
  - apply Animal_eat_true in Heat
      as (prey & Hin & Hne & Hprey & Hs & _);
      [|by apply Animal_update_no_dangling
       |unfold Animal.update, set_energy; by rewrite length_heap_set_obj].
    exists prey.
    destruct (Animal_update_fields self eco self) as (Hx & Hy & _).
    destruct (Animal_update_fields self eco prey) as (Hpx & Hpy & _).
    rewrite Hx, Hy in Hin. apply get_adjacent_organisms_Animal_update in Hin.
    assert (Organism.alive (obj eco2 prey) = false) as Hdead by by rewrite Hprey.
    destruct (dead_not_queried eco2 prey Hdead) as [Hq1 Hq2].
    repeat split; try done.
    + by rewrite Hs, <- Hpx.
    + by rewrite Hs, <- Hpy.
    + rewrite Hs. simpl. rewrite Animal_update_obj, decide_True by done.
      reflexivity.
Qed.

Lemma eat_contract_witness :
  update 0%nat scenario_eco [] = ((Animal.survive 0%nat scenario_after_eat).2, [])
  ∧ ∃ prey,
      prey ∈ get_adjacent_organisms scenario_eco 1 1 Plant
      ∧ Organism.alive (obj scenario_after_eat prey) = false
      ∧ (∀ x y, prey ∉ get_organism_at scenario_after_eat x y)
      ∧ (∀ x y target, prey ∉ get_adjacent_organisms scenario_after_eat x y target)
      ∧ Organism.x (obj scenario_after_eat 0%nat) = Organism.x (obj scenario_eco prey)
      ∧ Organism.y (obj scenario_after_eat 0%nat) = Organism.y (obj scenario_eco prey)
      ∧ Organism.energy (obj scenario_after_eat 0%nat) = 1 - 1 + 10.
Proof.
  apply (eat_contract 0%nat scenario_eco Plant 10 [] scenario_after_eat []).
  - apply (bool_decide_unpack (no_dangling scenario_eco)). by vm_compute.
  - simpl. lia.
  - left.
  - by vm_compute.
Defined.

(** The scenario's first tick: the herbivore eats the plant, ends on
    the plant's cell with energy 10, and the plant is purged. *)
Example scenario_tick :
  let eco' := (tick scenario_eco [1; 0]%nat).1 in
  organisms eco' = [0%nat]
  ∧ Organism.energy (obj eco' 0%nat) = 10
  ∧ (Organism.x (obj eco' 0%nat), Organism.y (obj eco' 0%nat)) = (1, 2)
  ∧ Organism.alive (obj eco' 1%nat) = false.
Proof. by vm_compute. Qed.

(** A plant born in a tick can be eaten in the same tick: the plant at
    (0,0) seeds (1,1), the herbivore at (2,2) eats the newborn, and the
    commit drops the newborn without it ever entering the main storage. *)
Example newborn_eaten_same_tick :
  let eco' := (tick nursery_eco [1; 0; 2; 0]%nat).1 in
  organisms eco' = [0; 1]%nat
  ∧ length (heap eco') = 3%nat
  ∧ Organism.cls (obj eco' 2%nat) = Plant
  ∧ Organism.alive (obj eco' 2%nat) = false
  ∧ (Organism.x (obj eco' 1%nat), Organism.y (obj eco' 1%nat)) = (1, 1)
  ∧ Organism.energy (obj eco' 1%nat) = 24.
Proof. by vm_compute. Qed.

(** A plant with no empty neighbouring cell leaves the registry as it
    is, whatever the roll. *)
Lemma Plant_update_surrounded self eco g :
  get_adjacent_empty_cells eco (Organism.x (obj eco self))
                               (Organism.y (obj eco self)) = [] →
  (Plant.update self eco g).1 = eco.
Proof.
  intros He. unfold Plant.update. rewrite He.
  by destruct (random_lt PLANT_REPRODUCTION_CHANCE g) as [[] g1].
Qed.

(** ** The reproduce step in detail *)

(** Everything a successful [reproduce] leaves behind. *)
Lemma Animal_reproduce_true self eco thr chance cost child_class child_energy g eco' g' :
  (self < length (heap eco))%nat →
  Animal.reproduce self eco thr chance cost child_class child_energy g = (true, eco', g') →
  thr ≤ Organism.energy (obj eco self)
  ∧ (∃ c, c ∈ get_adjacent_empty_cells eco (Organism.x (obj eco self))
                                           (Organism.y (obj eco self))
          ∧ obj eco' (length (heap eco))
            = Organism.set_energy (construct child_class c.1 c.2) child_energy)
  ∧ obj eco' self
    = Organism.set_energy (obj eco self) (Organism.energy (obj eco self) - cost)
  ∧ length (heap eco') = S (length (heap eco))
  ∧ (∀ r, (r < length (heap eco))%nat → r ≠ self → obj eco' r = obj eco r)
  ∧ organisms eco' = organisms eco
  ∧ temp_added_organisms eco' = temp_added_organisms eco ++ [length (heap eco)]
  ∧ temp_removed_organisms eco' = temp_removed_organisms eco.
Proof.
  intros Hself. unfold Animal.reproduce.
  case_decide as Hthr; [|done].
  destruct (random_lt chance g) as [[] g1]; [|done].
  destruct (get_adjacent_empty_cells _ _ _) as [|c cs] eqn:Hl; [done|].
  pose proof (choice_elem c cs g1) as Hin. rewrite <- Hl in Hin.
  destruct (choice c cs g1) as [[nx ny] g2]. simpl in Hin.
  unfold new_object. intros [= <- <-].
  set (n := length (heap eco)).
  set (o := construct child_class nx ny).
  set (eco1 := set_heap eco (heap eco ++ [o])).
  set (eco2 := set_energy n child_energy eco1).
  set (eco3 := add_organism n eco2).
  assert (obj eco1 n = o) as Hn1 by apply obj_set_heap_app_new.
  assert (length (heap eco1) = S n) as Hl1
    by (subst eco1 n; simpl; rewrite length_app; simpl; lia).
  assert (∀ r, obj eco3 r
    = if decide (r = n) then Organism.set_energy o child_energy else obj eco1 r) as H3.
  { intros r. subst eco3 eco2. rewrite obj_add_organism. unfold set_energy.
    rewrite obj_set_obj by lia. by rewrite Hn1. }
  assert (obj eco1 self = obj eco self) as Hs1
    by by apply obj_set_heap_app_old.
  assert (length (heap eco3) = S n) as Hl3.
  { subst eco3 eco2. simpl. by rewrite length_insert. }
  assert (obj eco3 self = obj eco self) as Hs3.
  { rewrite H3, decide_False by (subst n; lia). done. }
  assert (∀ r, obj (set_energy self (Organism.energy (obj eco3 self) - cost) eco3) r
    = if decide (r = self)
      then Organism.set_energy (obj eco self) (Organism.energy (obj eco self) - cost)
      else obj eco3 r) as H4.
  { intros r. unfold set_energy. rewrite obj_set_obj by lia. by rewrite Hs3. }
  split; [done|]. split.
  { exists (nx, ny). split; [by rewrite <- Hl|].
    rewrite H4, decide_False by (subst n; lia).
    by rewrite H3, decide_True. }
  split. { by rewrite H4, decide_True. }
  split. { unfold set_energy. by rewrite length_heap_set_obj. }
  split; [|by repeat split].
  intros r Hr Hrs. rewrite H4, decide_False by done.
  rewrite H3, decide_False by (subst n; lia).
  by apply obj_set_heap_app_old.
Qed.

Lemma Animal_eat_false self eco prey_class eat_gain g :
  (Animal.eat self eco prey_class eat_gain g).1.1 = false →
  Animal.eat self eco prey_class eat_gain g = (false, eco, g).
Proof.
  unfold Animal.eat. by destruct (Animal.eat_target _ _ _ _) as [[prey g1]|].
Qed.

(** C3. Reproduction contract: when, in the turn of a Herbivore or a
    Carnivore, the eat step fails and the reproduce step succeeds, the
    turn goes on to the survival check; the parent's energy dropped by
    exactly the species' reproduction cost (8 or 20) across the step;
    exactly one object was allocated and exactly one reference, the
    child's, was appended to the birth queue; and the child is alive, of
    the parent's class, on an empty neighbouring cell, with the species'
    fixed child energy (10 or 20) whatever the parent's energy is. *)
Theorem reproduction_contract self eco prey_class eat_gain thr chance cost
        child_energy g eco3 g3 :
  (self < length (heap eco))%nat →
  (Organism.cls (obj eco self), prey_class, eat_gain, thr, chance, cost, child_energy)
    ∈ [(Herbivore, Plant, 10, 20, 15%nat, 8, 10);
       (Carnivore, Herbivore, 15, 40, 10%nat, 20, 20)] →
  (Animal.eat self (Animal.update self eco) prey_class eat_gain g).1.1 = false →
  Animal.reproduce self (Animal.update self eco) thr chance cost
    (Organism.cls (obj eco self)) child_energy g = (true, eco3, g3) →
  update self eco g = ((Animal.survive self eco3).2, g3)
  ∧ Organism.energy (obj eco3 self)
    = Organism.energy (obj (Animal.update self eco) self) - cost
  ∧ temp_added_organisms eco3 = temp_added_organisms eco ++ [length (heap eco)]
  ∧ length (heap eco3) = S (length (heap eco))
  ∧ Organism.energy (obj eco3 (length (heap eco))) = child_energy
  ∧ Organism.cls (obj eco3 (length (heap eco))) = Organism.cls (obj eco self)
  ∧ Organism.alive (obj eco3 (length (heap eco))) = true
  ∧ (Organism.x (obj eco3 (length (heap eco))),
     Organism.y (obj eco3 (length (heap eco))))
    ∈ get_adjacent_empty_cells (Animal.update self eco)
        (Organism.x (obj eco self)) (Organism.y (obj eco self)).
Proof.
  intros Hself Hspecies Heat%Animal_eat_false Hrep.
  assert (length (heap (Animal.update self eco)) = length (heap eco)) as Hlen
    by apply length_heap_set_obj.
  split.
  - unfold update.
    apply elem_of_cons in Hspecies as [Hsp|Hsp];
      [|apply list_elem_of_singleton in Hsp];
      injection Hsp as Hcls -> -> -> -> -> ->; rewrite Hcls in *.
    + unfold Herbivore.update, Animal.act. unfold_constants.
      by rewrite Heat, Hrep.
    + unfold Carnivore.update, Animal.act. unfold_constants.
      by rewrite Heat, Hrep.
  - apply Animal_reproduce_true in Hrep
      as (_ & (c & Hc & Hchild) & Hs & Hl & _ & _ & Hadd & _); [|by rewrite Hlen].
    rewrite Hlen in *.
    destruct (Animal_update_fields self eco self) as (Hx & Hy & _).
    rewrite Hx, Hy in Hc.
    destruct (construct_fields (Organism.cls (obj eco self)) c.1 c.2)
      as (Hcx & Hcy & Hca & Hcc).
    rewrite Hs, Hchild. simpl. rewrite Hcx, Hcy.
    repeat split; try done. by destruct c.
Qed.

Lemma reproduction_contract_witness :
  update 0%nat lone_herbivore [] = ((Animal.survive 0%nat lone_herbivore_reproduced).2, [])
  ∧ Organism.energy (obj lone_herbivore_reproduced 0%nat)
    = Organism.energy (obj (Animal.update 0%nat lone_herbivore) 0%nat) - 8
  ∧ temp_added_organisms lone_herbivore_reproduced = [] ++ [1%nat]
  ∧ length (heap lone_herbivore_reproduced) = 2%nat
  ∧ Organism.energy (obj lone_herbivore_reproduced 1%nat) = 10
  ∧ Organism.cls (obj lone_herbivore_reproduced 1%nat) = Herbivore
  ∧ Organism.alive (obj lone_herbivore_reproduced 1%nat) = true
  ∧ (Organism.x (obj lone_herbivore_reproduced 1%nat),
     Organism.y (obj lone_herbivore_reproduced 1%nat))
    ∈ get_adjacent_empty_cells (Animal.update 0%nat lone_herbivore) 1 1.
Proof.
  apply (reproduction_contract 0%nat lone_herbivore Plant 10 20 15%nat 8 10 []
           lone_herbivore_reproduced []).
  - simpl. lia.
  - left.
  - by vm_compute.
  - by vm_compute.
Defined.

(** C4. [get_organism_at eco x y] returns exactly the references of the
    main storage or of the birth queue whose object stands at [(x, y)]
    with [alive] true; in particular a dead organism is never returned,
    and an alive organism just queued by [add_organism] is returned at
    its cell and offered as prey to every neighbouring cell at once. *)
Theorem get_organism_at_exact eco x y r :
  (r ∈ get_organism_at eco x y ↔
     (r ∈ organisms eco ∨ r ∈ temp_added_organisms eco)
     ∧ Organism.x (obj eco r) = x ∧ Organism.y (obj eco r) = y
     ∧ Organism.alive (obj eco r) = true)
  ∧ (Organism.alive (obj eco r) = false → r ∉ get_organism_at eco x y)
  ∧ (Organism.alive (obj eco r) = true →
     r ∈ get_organism_at (add_organism r eco)
           (Organism.x (obj eco r)) (Organism.y (obj eco r))
     ∧ ∀ cx cy,
         (Organism.x (obj eco r), Organism.y (obj eco r))
           ∈ get_adjacent_cells eco cx cy →
         r ∈ get_adjacent_organisms (add_organism r eco) cx cy
               (Organism.cls (obj eco r))).
Proof.
  split; [|split].
  - rewrite elem_of_get_organism_at. unfold visible, at_cell.
    by rewrite elem_of_app.
  - intros Hd. by apply dead_not_queried.
  - intros Ha.
    assert (r ∈ visible (add_organism r eco)) as Hv.
    { unfold visible; simpl. rewrite !elem_of_app. right. right.
      by apply list_elem_of_singleton. }
    split.
    + apply elem_of_get_organism_at. split; [done|].
      by rewrite <- (obj_add_organism r eco r) in Ha.
    + intros cx cy Hadj. apply elem_of_get_adjacent_organisms.
      rewrite obj_add_organism. repeat split; try done.
      unfold Organism.isinstance. by apply bool_decide_eq_true.
Qed.

(** ** Starvation *)

Lemma run_turns_app l1 l2 eco g :
  run_turns (l1 ++ l2) eco g
  = run_turns l2 (run_turns l1 eco g).1 (run_turns l1 eco g).2.
Proof.
  unfold run_turns. rewrite foldl_app.
  by destruct (foldl turn (eco, g) l1).
Qed.

Lemma commit_purges eco r :
  wf eco → r ∈ temp_removed_organisms eco → r ∉ organisms (commit eco).
Proof.
  intros Hwf Hr. rewrite organisms_commit. apply purge_gone; [|done].
  eapply sublist_NoDup; [apply (wf_nodup _ Hwf)|].
  unfold visible. apply sublist_app; [done|]. apply sublist_filter.
Qed.

Lemma boundary_starving_eco : boundary starving_eco.
Proof.
  split; [|done]. split.
  - apply NoDup_singleton.
  - intros r ->%list_elem_of_singleton. simpl. lia.
  - by intros r1 r2 ->%list_elem_of_singleton ->%list_elem_of_singleton.
  - by intros r ->%list_elem_of_singleton.
Qed.

(** C5. Starvation: take a tick started at a boundary and an animal [r]
    whose turn comes after the turns [l1]; if it is alive when its turn
    comes and its energy is at most 0 when its turn ends, then, whatever
    action fired, the survival check of that turn marked it dead and
    queued it for removal, and it is absent from the main storage at
    the boundary the tick ends on. *)
Theorem starved_animal_purged eco g l1 r l2 g1 s0 g2 s1 g3 :
  boundary eco →
  shuffle (organisms eco) g = (l1 ++ r :: l2, g1) →
  run_turns l1 eco g1 = (s0, g2) →
  Organism.alive (obj s0 r) = true →
  Organism.cls (obj s0 r) ≠ Plant →
  update r s0 g2 = (s1, g3) →
  Organism.energy (obj s1 r) ≤ 0 →
  r ∈ temp_removed_organisms s1
  ∧ Organism.alive (obj s1 r) = false
  ∧ r ∉ organisms (tick eco g).1.
Proof.
  intros (Hwf & _ & _) Hsh Hl1 Halive Hanimal Hupd Hstarved.
  pose proof (shuffle_Permutation (organisms eco) g) as Hperm.
  rewrite Hsh in Hperm. simpl in Hperm.
  assert (∀ r', r' ∈ l1 ++ r :: l2 → r' ∈ organisms eco) as Hsub
    by (intros r' Hr'; by rewrite <- Hperm).
  destruct (run_turns_spec l1 eco g1 Hwf) as [Hwf0 Hext0].
  { intros r' Hr'. apply Hsub, elem_of_app. by left. }
  rewrite Hl1 in Hwf0, Hext0. simpl in Hwf0, Hext0.
  assert (on_turn r s0) as Hon.
  { split; [done|]. split; [|done]. rewrite (ext_organisms _ _ Hext0).
    apply Hsub, elem_of_app. right. by left. }
  destruct (update_spec r s0 g2 Hon) as [Hwf1 Hext1].
  rewrite Hupd in Hwf1, Hext1. simpl in Hwf1, Hext1.
  assert (Organism.alive (obj s1 r) = false ∧ r ∈ temp_removed_organisms s1)
    as [Hdead Hqueued].
  { unfold update, Herbivore.update, Carnivore.update in Hupd.
    destruct (Organism.cls (obj s0 r)); [done| |].
    - pose proof (Animal_act_starved r s0 Plant HERBIVORE_EAT_GAIN
        HERBIVORE_REPRODUCTION_ENERGY_THRESHOLD HERBIVORE_REPRODUCTION_CHANCE
        HERBIVORE_REPRODUCTION_COST Herbivore HERBIVORE_CHILD_ENERGY g2 Hon) as Hst.
      rewrite Hupd in Hst. by apply Hst.
    - pose proof (Animal_act_starved r s0 Herbivore CARNIVORE_EAT_GAIN
        CARNIVORE_REPRODUCTION_ENERGY_THRESHOLD CARNIVORE_REPRODUCTION_CHANCE
        CARNIVORE_REPRODUCTION_COST Carnivore CARNIVORE_CHILD_ENERGY g2 Hon) as Hst.
      rewrite Hupd in Hst. by apply Hst. }
  split; [done|]. split; [done|].
  unfold tick. rewrite Hsh.
  assert (run_turns (l1 ++ r :: l2) eco g1 = run_turns l2 s1 g3) as ->.
  { rewrite run_turns_app, Hl1. simpl. unfold run_turns at 1. simpl.
    unfold turn at 2. simpl. by rewrite Halive, Hupd. }
  destruct (run_turns_spec l2 s1 g3 Hwf1) as [Hwf2 Hext2].
  { intros r' Hr'. rewrite (ext_organisms _ _ Hext1), (ext_organisms _ _ Hext0).
    apply Hsub, elem_of_app. right. by right. }
  destruct (run_turns l2 s1 g3) as [s2 g4]. simpl in *.
  apply commit_purges; [done|].
  eapply elem_of_prefix; [exact Hqueued|apply Hext2].
Qed.

Lemma starved_animal_purged_witness :
  let s1 := (update 0%nat starving_eco []).1 in
  0%nat ∈ temp_removed_organisms s1
  ∧ Organism.alive (obj s1 0%nat) = false
  ∧ 0%nat ∉ organisms (tick starving_eco []).1.
Proof.
  apply (starved_animal_purged starving_eco [] [] 0%nat [] [] starving_eco []
           (update 0%nat starving_eco []).1 (update 0%nat starving_eco []).2).
  - apply boundary_starving_eco.
  - reflexivity.
  - reflexivity.
  - reflexivity.
  - discriminate.
  - by destruct (update 0%nat starving_eco []).
  - by vm_compute.
Defined.

(** ** Dead organisms *)

Lemma wf_check_wf eco : wf_check eco → wf eco.
Proof.
  intros (Hnd & Hv & Hc & Hd). split.
  - done.
  - by apply Forall_forall.
  - intros r1 r2 H1 H2.
    pose proof (proj1 (Forall_forall _ _) Hc r1 H1) as Hc1.
    exact (proj1 (Forall_forall _ _) Hc1 r2 H2).
  - exact (proj1 (Forall_forall _ _) Hd).
Qed.

Lemma dead_frozen eco r :
  Organism.alive (obj eco r) = false → frozen (obj eco r) eco r.
Proof.
  intros Hd. split; [done|]. split.
  - intros g. unfold turn. simpl. by rewrite Hd.
  - intros self pc g prey g' (_ & Ha & _)%eat_target_prey. congruence.
Qed.

Lemma tick_frame eco g r :
  wf eco → (r < length (heap eco))%nat → Organism.alive (obj eco r) = false →
  obj (tick eco g).1 r = obj eco r
  ∧ (length (heap eco) ≤ length (heap (tick eco g).1))%nat.
Proof.
  intros Hwf Hr Hd. unfold tick.
  pose proof (shuffle_Permutation (organisms eco) g) as Hperm.
  destruct (shuffle (organisms eco) g) as [order g1]. simpl in Hperm.
  destruct (run_turns_spec order eco g1 Hwf) as [_ Hext].
  { intros r' Hr'. by rewrite <- Hperm. }
  destruct (run_turns order eco g1) as [eco1 g2]. cbn [fst] in *.
  unfold obj at 1. rewrite !heap_commit. split.
  - by apply (ext_dead _ _ Hext).
  - apply (ext_heap _ _ Hext).
Qed.

Lemma ticks_frame n eco g r :
  boundary eco → (r < length (heap eco))%nat → Organism.alive (obj eco r) = false →
  obj (ticks n eco g).1 r = obj eco r.
Proof.
  revert eco g. induction n as [|n IH]; intros eco g Hb Hr Hd; simpl; [done|].
  pose proof (tick_boundary eco g Hb) as Hb1.
  destruct (tick_frame eco g r) as [Hobj Hlen]; [apply Hb|done|done|].
  destruct (tick eco g) as [eco1 g1]. simpl in *.
  rewrite IH; [done|done|lia|by rewrite Hobj].
Qed.

(** *** The states of a run, one after the other *)

Lemma last_state_app eco l1 l2 :
  last_state eco (l1 ++ l2) = last_state (last_state eco l1) l2.
Proof. unfold last_state. rewrite last_app. by destruct (last l2). Qed.

Lemma last_state_cons eco s l : last_state eco (s :: l) = last_state s l.
Proof. unfold last_state. rewrite last_cons. by destruct (last l). Qed.

Lemma last_history eco l : last (eco :: l) = Some (last_state eco l).
Proof. unfold last_state. rewrite last_cons. by destruct (last l). Qed.

Lemma keeps_dead_refl eco : keeps_dead eco eco.
Proof. by intros r _. Qed.

Lemma keeps_dead_trans eco1 eco2 eco3 :
  keeps_dead eco1 eco2 → keeps_dead eco2 eco3 → keeps_dead eco1 eco3.
Proof.
  intros H12 H23 r Hd. rewrite H23; [by apply H12|]. by rewrite H12.
Qed.

Lemma dead_chain_app eco l1 l2 :
  dead_chain eco l1 → dead_chain (last_state eco l1) l2 → dead_chain eco (l1 ++ l2).
Proof.
  revert eco. induction l1 as [|s l1 IH]; intros eco; [by intros _|].
  intros [Hs Hl1] Hl2. split; [done|]. apply IH; [done|].
  by rewrite last_state_cons in Hl2.
Qed.

Lemma dead_chain_lookup eco l i j si sj :
  dead_chain eco l →
  (eco :: l) !! i = Some si → (eco :: l) !! j = Some sj → (i ≤ j)%nat →
  keeps_dead si sj.
Proof.
  revert eco i j si sj. induction l as [|s l IH]; intros eco i j si sj Hc Hi Hj Hle.
  { destruct i as [|i]; [|done]. destruct j as [|j]; [|done].
    simpl in Hi, Hj. simplify_eq. apply keeps_dead_refl. }
  destruct Hc as [Hs Hc]. destruct i as [|i].
  - simpl in Hi. simplify_eq. destruct j as [|j].
    + simpl in Hj. simplify_eq. apply keeps_dead_refl.
    + apply (keeps_dead_trans _ s); [done|].
      apply (IH s 0%nat j s sj); [done|done|done|lia].
  - destruct j as [|j]; [lia|]. apply (IH s i j si sj); [done|done|done|lia].
Qed.

(** A dead object is an object of the heap. *)
Lemma dead_valid eco r :
  Organism.alive (obj eco r) = false → (r < length (heap eco))%nat.
Proof.
  intros Hd. destruct (decide (r < length (heap eco))%nat) as [|Hout]; [done|].
  unfold obj in Hd. by rewrite list_lookup_total_alt, lookup_ge_None_2 in Hd by lia.
Qed.

(** A step that writes to one object, alive before it, changes no dead
    object. *)
Lemma keeps_dead_touch r eco eco' :
  Organism.alive (obj eco r) = true →
  (∀ r', r' ≠ r → obj eco' r' = obj eco r') → keeps_dead eco eco'.
Proof. intros Ha Hrest r' Hd. apply Hrest. congruence. Qed.

Lemma keeps_dead_same eco eco' : (∀ r, obj eco' r = obj eco r) → keeps_dead eco eco'.
Proof. by intros Hsame r _. Qed.

Lemma keeps_dead_set_obj r o eco :
  Organism.alive (obj eco r) = true → keeps_dead eco (set_obj r o eco).
Proof.
  intros Ha. apply (keeps_dead_touch r); [done|].
  intros r' Hne. by apply obj_set_obj_ne.
Qed.

Lemma keeps_dead_alloc o eco : keeps_dead eco (set_heap eco (heap eco ++ [o])).
Proof. intros r Hd. apply obj_set_heap_app_old. by apply dead_valid. Qed.

Lemma alive_set_obj r o eco r' :
  Organism.alive o = true → Organism.alive (obj eco r') = true →
  Organism.alive (obj (set_obj r o eco) r') = true.
Proof.
  intros Ho Ha. by destruct (obj_set_obj_cases r o eco r') as [->|(_ & _ & ->)].
Qed.

Lemma alive_alloc o eco r :
  Organism.alive o = true → Organism.alive (obj eco r) = true →
  Organism.alive (obj (set_heap eco (heap eco ++ [o])) r) = true.
Proof.
  intros Ho Ha. destruct (decide (r < length (heap eco))%nat) as [Hin|Hout].
  - by rewrite obj_set_heap_app_old.
  - destruct (decide (r = length (heap eco))) as [->|Hne].
    + by rewrite obj_set_heap_app_new.
    + unfold obj. simpl.
      rewrite list_lookup_total_alt, lookup_ge_None_2; [done|].
      rewrite length_app. simpl. lia.
Qed.

Lemma remove_organism_states_chain p eco :
  Organism.alive (obj eco p) = true → dead_chain eco (remove_organism_states p eco).
Proof.
  intros Ha. split; [by apply keeps_dead_set_obj|]. split; [|done].
  by apply keeps_dead_same.
Qed.

Lemma move_organism_states_chain r nx ny eco :
  Organism.alive (obj eco r) = true → dead_chain eco (move_organism_states r nx ny eco).
Proof.
  intros Ha. split; [by apply keeps_dead_set_obj|]. split; [|done].
  apply (keeps_dead_touch r); [by apply alive_set_obj|].
  intros r' Hne. unfold move_organism. by rewrite !obj_set_obj_ne.
Qed.

Lemma Plant_update_states_chain self eco g :
  dead_chain eco (Plant_update_states self eco g)
  ∧ last_state eco (Plant_update_states self eco g) = (Plant.update self eco g).1.
Proof.
  unfold Plant_update_states, Plant.update.
  destruct (random_lt PLANT_REPRODUCTION_CHANCE g) as [[] g1]; [|done].
  destruct (get_adjacent_empty_cells _ _ _) as [|c cs]; [done|].
  destruct (choice c cs g1) as [[nx ny] g2]. unfold new_object. split; [|done].
  split; [apply keeps_dead_alloc|]. split; [|done]. by apply keeps_dead_same.
Qed.

Lemma Animal_eat_states_chain self eco prey_class eat_gain g :
  Organism.alive (obj eco self) = true →
  dead_chain eco (Animal_eat_states self eco prey_class eat_gain g)
  ∧ last_state eco (Animal_eat_states self eco prey_class eat_gain g)
    = (Animal.eat self eco prey_class eat_gain g).1.2
  ∧ Organism.alive (obj (Animal.eat self eco prey_class eat_gain g).1.2 self) = true.
Proof.
  intros Ha. unfold Animal_eat_states, Animal.eat.
  destruct (Animal.eat_target self eco prey_class g) as [[prey g1]|] eqn:Ht; [|done].
  apply eat_target_prey in Ht as (_ & Hpa & _ & Hne). cbn [fst snd].
  set (eco1 := move_organism self _ _ eco).
  set (eco2 := remove_organism prey eco1).
  assert (Organism.alive (obj eco1 self) = true) as Ha1
    by (subst eco1; by apply alive_set_obj).
  assert (Organism.alive (obj eco1 prey) = true) as Hp1.
  { subst eco1. unfold move_organism. by rewrite obj_set_obj_ne. }
  assert (Organism.alive (obj eco2 self) = true) as Ha2.
  { subst eco2. rewrite obj_remove_organism. by rewrite obj_set_obj_ne. }
  split; [|split].
  - apply dead_chain_app; [by apply move_organism_states_chain|].
    change (last_state eco (move_organism_states self _ _ eco)) with eco1.
    apply dead_chain_app; [by apply remove_organism_states_chain|].
    change (last_state eco1 (remove_organism_states prey eco1)) with eco2.
    split; [|done]. by apply keeps_dead_set_obj.
  - unfold last_state. by rewrite !last_app.
  - by apply alive_set_obj.
Qed.

Lemma Animal_reproduce_states_chain self eco thr chance cost child_class child_energy g :
  Organism.alive (obj eco self) = true →
  dead_chain eco
    (Animal_reproduce_states self eco thr chance cost child_class child_energy g)
  ∧ last_state eco
      (Animal_reproduce_states self eco thr chance cost child_class child_energy g)
    = (Animal.reproduce self eco thr chance cost child_class child_energy g).1.2
  ∧ Organism.alive
      (obj (Animal.reproduce self eco thr chance cost child_class child_energy g).1.2
           self) = true.
Proof.
  intros Ha. unfold Animal_reproduce_states, Animal.reproduce.
  case_decide; [|done].
  destruct (random_lt chance g) as [[] g1]; [|done].
  destruct (get_adjacent_empty_cells _ _ _) as [|c cs]; [done|].
  destruct (choice c cs g1) as [[nx ny] g2]. unfold new_object. cbn [fst snd].
  destruct (construct_fields child_class nx ny) as (_ & _ & Hca & _).
  set (eco1 := set_heap eco (heap eco ++ [construct child_class nx ny])).
  set (child := length (heap eco)).
  set (eco2 := set_energy child child_energy eco1).
  set (eco3 := add_organism child eco2).
  assert (Organism.alive (obj eco1 child) = true) as Hc1
    by (subst eco1 child; by rewrite obj_set_heap_app_new).
  assert (Organism.alive (obj eco1 self) = true) as Ha1
    by (subst eco1; by apply alive_alloc).
  assert (Organism.alive (obj eco3 self) = true) as Ha3.
  { subst eco3 eco2. rewrite obj_add_organism. by apply alive_set_obj. }
  split; [|split].
  - split; [apply keeps_dead_alloc|].
    split; [by apply keeps_dead_set_obj|].
    split; [by apply keeps_dead_same|].
    split; [|done]. by apply keeps_dead_set_obj.
  - done.
  - by apply alive_set_obj.
Qed.

Lemma Animal_move_states_chain self eco g :
  Organism.alive (obj eco self) = true →
  dead_chain eco (Animal_move_states self eco g)
  ∧ last_state eco (Animal_move_states self eco g) = (Animal.move self eco g).1
  ∧ Organism.alive (obj (Animal.move self eco g).1 self) = true.
Proof.
  intros Ha. unfold Animal_move_states, Animal.move.
  destruct (Animal.move_target self eco g) as [[[nx ny] g1]|]; [|done].
  split; [by apply move_organism_states_chain|]. split; [done|].
  by apply alive_set_obj.
Qed.

Lemma Animal_survive_states_chain self eco :
  Organism.alive (obj eco self) = true →
  dead_chain eco (Animal_survive_states self eco)
  ∧ last_state eco (Animal_survive_states self eco) = (Animal.survive self eco).2.
Proof.
  intros Ha. unfold Animal_survive_states, Animal.survive.
  case_decide; [|done]. split; [by apply remove_organism_states_chain|done].
Qed.

Lemma Animal_act_states_chain self eco prey_class eat_gain thr chance cost child_class
      child_energy g :
  Organism.alive (obj eco self) = true →
  dead_chain eco (Animal_act_states self eco prey_class eat_gain thr chance cost
                    child_class child_energy g)
  ∧ last_state eco (Animal_act_states self eco prey_class eat_gain thr chance cost
                      child_class child_energy g)
    = (Animal.act self eco prey_class eat_gain thr chance cost child_class
         child_energy g).1.
Proof.
  intros Ha. unfold Animal_act_states, Animal.act.
  set (eco1 := Animal.update self eco).
  assert (Organism.alive (obj eco1 self) = true) as Ha1.
  { subst eco1. by destruct (Animal_update_fields self eco self) as (_ & _ & -> & _). }
  assert (dead_chain eco (Animal_update_states self eco)) as Hc1.
  { split; [|done]. by apply keeps_dead_set_obj. }
  destruct (Animal_eat_states_chain self eco1 prey_class eat_gain g Ha1)
    as (Hc2 & Hl2 & Ha2).
  destruct (Animal.eat self eco1 prey_class eat_gain g) as [[ate eco2] g2].
  cbn [fst snd] in Hl2, Ha2.
  assert (∃ acted eco3 g3 states3,
    (if ate then (true, eco2, g2)
     else Animal.reproduce self eco2 thr chance cost child_class child_energy g2)
    = (acted, eco3, g3)
    ∧ (if ate then []
       else Animal_reproduce_states self eco2 thr chance cost child_class
              child_energy g2) = states3
    ∧ dead_chain eco2 states3 ∧ last_state eco2 states3 = eco3
    ∧ Organism.alive (obj eco3 self) = true)
    as (acted & eco3 & g3 & states3 & -> & -> & Hc3 & Hl3 & Ha3).
  { destruct ate; [by exists true, eco2, g2, []|].
    destruct (Animal_reproduce_states_chain self eco2 thr chance cost child_class
                child_energy g2 Ha2) as (Hc & Hl & Hal).
    destruct (Animal.reproduce _ _ _ _ _ _ _ _) as [[b e3] g3].
    by eexists b, e3, g3, _. }
  assert (∃ eco4 g4 states4,
    (if acted then (eco3, g3) else Animal.move self eco3 g3) = (eco4, g4)
    ∧ (if acted then [] else Animal_move_states self eco3 g3) = states4
    ∧ dead_chain eco3 states4 ∧ last_state eco3 states4 = eco4
    ∧ Organism.alive (obj eco4 self) = true)
    as (eco4 & g4 & states4 & -> & -> & Hc4 & Hl4 & Ha4).
  { destruct acted; [by exists eco3, g3, []|].
    destruct (Animal_move_states_chain self eco3 g3 Ha3) as (Hc & Hl & Ham).
    destruct (Animal.move self eco3 g3) as [e4 g4]. cbn [fst] in *.
    by eexists e4, g4, _. }
  destruct (Animal_survive_states_chain self eco4 Ha4) as (Hc5 & Hl5).
  cbn [fst]. split.
  - apply dead_chain_app; [done|].
    change (last_state eco (Animal_update_states self eco)) with eco1.
    apply dead_chain_app; [done|]. rewrite Hl2.
    apply dead_chain_app; [done|]. rewrite Hl3.
    apply dead_chain_app; [done|]. by rewrite Hl4.
  - rewrite !last_state_app.
    change (last_state eco (Animal_update_states self eco)) with eco1.
    by rewrite Hl2, Hl3, Hl4, Hl5.
Qed.

Lemma turn_states_chain st org :
  dead_chain st.1 (turn_states st org)
  ∧ last_state st.1 (turn_states st org) = (turn st org).1.
Proof.
  unfold turn_states, turn. destruct (Organism.alive (obj st.1 org)) eqn:Ha; [|done].
  unfold update_states, update, Herbivore.update, Carnivore.update.
  destruct (Organism.cls (obj st.1 org)).
  - apply Plant_update_states_chain.
  - by apply Animal_act_states_chain.
  - by apply Animal_act_states_chain.
Qed.

Lemma run_turns_states_chain order st :
  dead_chain st.1 (run_turns_states order st)
  ∧ last_state st.1 (run_turns_states order st) = (foldl turn st order).1.
Proof.
  revert st. induction order as [|org order IH]; intros st; [done|].
  cbn [run_turns_states foldl].
  destruct (turn_states_chain st org) as [Hc Hl].
  destruct (IH (turn st org)) as [Hc' Hl'].
  split.
  - apply dead_chain_app; [done|]. by rewrite Hl.
  - by rewrite last_state_app, Hl.
Qed.

Lemma commit_states_chain eco : dead_chain eco (commit_states eco).
Proof.
  unfold commit_states, commit. rewrite commit_deaths_eq, commit_births_eq.
  repeat (split; [by apply keeps_dead_same|]). done.
Qed.

Lemma tick_states_chain eco g :
  dead_chain eco (tick_states eco g)
  ∧ last_state eco (tick_states eco g) = (tick eco g).1.
Proof.
  unfold tick_states, tick, run_turns.
  destruct (shuffle (organisms eco) g) as [order g1].
  destruct (run_turns_states_chain order (eco, g1)) as [Hc Hl]. cbn [fst] in Hc, Hl.
  destruct (foldl turn (eco, g1) order) as [eco1 g2] eqn:Hf. cbn [fst] in *.
  split.
  - apply dead_chain_app; [done|]. rewrite Hl. apply commit_states_chain.
  - by rewrite last_state_app.
Qed.

Lemma run_states_chain n eco g :
  dead_chain eco (run_states n eco g)
  ∧ last_state eco (run_states n eco g) = (ticks n eco g).1.
Proof.
  revert eco g. induction n as [|n IH]; intros eco g; [done|].
  cbn [run_states ticks].
  destruct (tick_states_chain eco g) as [Hc Hl].
  destruct (tick eco g) as [eco1 g1]. cbn [fst snd] in *.
  destruct (IH eco1 g1) as [Hc' Hl'].
  split.
  - apply dead_chain_app; [done|]. by rewrite Hl.
  - by rewrite last_state_app, Hl.
Qed.

(** C9. Once an organism is dead it is frozen.  Take the history of a
    run: the registry it starts from and then, in order, the registry
    left by every statement of every turn and of every commit that
    writes to an object or to a list, down to the boundary the last
    tick ends on.  If the [alive] flag of an object is [False] in one
    state of the history, whether [remove_organism] has just set it in
    the middle of a turn or long before, then in that state and in
    every later one the object has the same fields, the scheduler
    skips it, and no eat step picks it as prey. *)
Theorem dead_organism_frozen n eco g i j si sj r :
  (eco :: run_states n eco g) !! i = Some si →
  (eco :: run_states n eco g) !! j = Some sj →
  (i ≤ j)%nat →
  Organism.alive (obj si r) = false →
  frozen (obj si r) sj r
  ∧ last (eco :: run_states n eco g) = Some (ticks n eco g).1.
Proof.
  intros Hi Hj Hle Hd.
  destruct (run_states_chain n eco g) as [Hc Hl]. split.
  - pose proof (dead_chain_lookup _ _ _ _ _ _ Hc Hi Hj Hle r Hd) as Hobj.
    rewrite <- Hobj. apply dead_frozen. by rewrite Hobj.
  - by rewrite last_history, Hl.
Qed.

Lemma dead_organism_frozen_witness :
  ∃ si sj,
    (scenario_eco :: run_states 1 scenario_eco [1%nat]) !! 4%nat = Some si
    ∧ (scenario_eco :: run_states 1 scenario_eco [1%nat]) !! 9%nat = Some sj
    ∧ Organism.alive (obj scenario_eco 1%nat) = true
    ∧ Organism.alive (obj si 1%nat) = false
    ∧ frozen (obj si 1%nat) sj 1%nat
    ∧ last (scenario_eco :: run_states 1 scenario_eco [1%nat])
      = Some (ticks 1 scenario_eco [1%nat]).1.
Proof.
  destruct ((scenario_eco :: run_states 1 scenario_eco [1%nat]) !! 4%nat)
    as [si|] eqn:Hi; [|vm_compute in Hi; discriminate Hi].
  destruct ((scenario_eco :: run_states 1 scenario_eco [1%nat]) !! 9%nat)
    as [sj|] eqn:Hj; [|vm_compute in Hj; discriminate Hj].
  assert (Organism.alive (obj si 1%nat) = false) as Hd.
  { vm_compute in Hi. injection Hi as <-. reflexivity. }
  exists si, sj. split; [reflexivity|]. split; [reflexivity|].
  split; [reflexivity|]. split; [exact Hd|].
  apply (dead_organism_frozen 1 scenario_eco [1%nat] 4 9 si sj 1%nat Hi Hj);
    [lia|exact Hd].
Defined.

(** C10. With the species constants, a successful reproduction leaves
    the parent with at least threshold minus cost (12 for a Herbivore,
    20 for a Carnivore), which is positive: the energy test of the
    reproduce step runs on the registry left by the metabolic cost, so
    the survival check that ends the turn returns [True] and removes
    nothing, and the turn ends on the registry reproduce left. *)
Theorem reproduction_keeps_parent_alive self eco prey_class eat_gain thr chance cost
        child_energy bound g eco3 g3 :
  (self < length (heap eco))%nat →
  (Organism.cls (obj eco self), prey_class, eat_gain, thr, chance, cost,
   child_energy, bound)
    ∈ [(Herbivore, Plant, 10, 20, 15%nat, 8, 10, 12);
       (Carnivore, Herbivore, 15, 40, 10%nat, 20, 20, 20)] →
  (Animal.eat self (Animal.update self eco) prey_class eat_gain g).1.1 = false →
  Animal.reproduce self (Animal.update self eco) thr chance cost
    (Organism.cls (obj eco self)) child_energy g = (true, eco3, g3) →
  bound = thr - cost ∧ 0 < bound
  ∧ bound ≤ Organism.energy (obj eco3 self)
  ∧ Animal.survive self eco3 = (true, eco3)
  ∧ update self eco g = (eco3, g3).
Proof.
  intros Hself Hspecies Heat Hrep.
  assert (length (heap (Animal.update self eco)) = length (heap eco)) as Hlen
    by apply length_heap_set_obj.
  assert (thr - cost ≤ Organism.energy (obj eco3 self)) as Hbound.
  { apply Animal_reproduce_true in Hrep as (Hthr & _ & Hs & _); [|by rewrite Hlen].
    rewrite Hs. simpl. lia. }
  assert (bound = thr - cost ∧ 0 < bound) as [Hb Hpos].
  { apply elem_of_cons in Hspecies as [Hsp|Hsp];
      [|apply list_elem_of_singleton in Hsp];
      injection Hsp as _ _ _ -> _ -> _ ->; lia. }
  assert (Animal.survive self eco3 = (true, eco3)) as Hsurv.
  { unfold Animal.survive. case_decide; [lia|done]. }
  split; [done|]. split; [done|]. split; [lia|]. split; [done|].
  assert ((Organism.cls (obj eco self), prey_class, eat_gain, thr, chance, cost,
           child_energy)
          ∈ [(Herbivore, Plant, 10, 20, 15%nat, 8, 10);
             (Carnivore, Herbivore, 15, 40, 10%nat, 20, 20)]) as Hsp7.
  { apply elem_of_cons in Hspecies as [Hsp|Hsp];
      [|apply list_elem_of_singleton in Hsp];
      injection Hsp as -> -> -> -> -> -> -> _; [left|right; left]. }
  apply elem_of_cons in Hsp7 as [Hsp|Hsp];
    [|apply list_elem_of_singleton in Hsp];
    injection Hsp as Hcls -> -> -> -> -> ->; rewrite Hcls in *;
    apply Animal_eat_false in Heat; unfold update; rewrite Hcls.
  - unfold Herbivore.update, Animal.act. unfold_constants.
    by rewrite Heat, Hrep, Hsurv.
  - unfold Carnivore.update, Animal.act. unfold_constants.
    by rewrite Heat, Hrep, Hsurv.
Qed.

Lemma reproduction_keeps_parent_alive_witness :
  12 = 20 - 8 ∧ 0 < 12
  ∧ 12 ≤ Organism.energy (obj lone_herbivore_reproduced 0%nat)
  ∧ Animal.survive 0%nat lone_herbivore_reproduced = (true, lone_herbivore_reproduced)
  ∧ update 0%nat lone_herbivore [] = (lone_herbivore_reproduced, []).
Proof.
  apply (reproduction_keeps_parent_alive 0%nat lone_herbivore Plant 10 20 15%nat
           8 10 12 [] lone_herbivore_reproduced []).
  - simpl. lia.
  - left.
  - by vm_compute.
  - by vm_compute.
Defined.

(** ** The calls of [move_organism] *)

Lemma move_relocates self eco g c g1 :
  Animal.move_target self eco g = Some (c, g1) →
  Animal.move self eco g = (move_organism self c.1 c.2 eco, g1).
Proof. unfold Animal.move. intros ->. by destruct c. Qed.

Lemma move_stays self eco g :
  Animal.move_target self eco g = None → Animal.move self eco g = (eco, g).
Proof. unfold Animal.move. by intros ->. Qed.

Lemma eat_relocates self eco prey_class eat_gain g prey g1 :
  Animal.eat_target self eco prey_class g = Some (prey, g1) →
  (Animal.eat self eco prey_class eat_gain g).1.2
  = let eco2 := remove_organism prey
                  (move_organism self (Organism.x (obj eco prey))
                                      (Organism.y (obj eco prey)) eco) in
    set_energy self (Organism.energy (obj eco2 self) + eat_gain) eco2.
Proof. unfold Animal.eat. by intros ->. Qed.

Lemma occupant_unique eco x y r :
  wf eco → r ∈ get_organism_at eco x y → get_organism_at eco x y = [r].
Proof.
  intros Hwf Hr. pose proof (wf_occupancy eco x y Hwf) as Hlen.
  destruct (get_organism_at eco x y) as [|r1 [|r2 l]]; simpl in Hlen; try lia.
  - by apply elem_of_nil in Hr.
  - by apply list_elem_of_singleton in Hr as ->.
Qed.

(** C8, as the code has it.  For an organism on turn: [move] calls
    [move_organism] with a cell that is empty at the call; [eat] calls
    it with the cell of the prey it selected, which at the call holds
    exactly that alive prey (not the predator), and once [eat] has
    removed the prey the cell holds exactly the predator. *)
Theorem relocation_target who eco self x y :
  on_turn self eco → relocation who eco self x y →
  match who with
  | ByMove => get_organism_at eco x y = []
  | ByEat prey =>
      get_organism_at eco x y = [prey] ∧ prey ≠ self
      ∧ get_organism_at (remove_organism prey (move_organism self x y eco)) x y = [self]
  end.
Proof.
  intros Hon Hrel. destruct Hrel as [self eco g c g1 Ht|self eco pc g prey g1 Ht].
  - by apply move_target_Some, elem_of_get_adjacent_empty_cells in Ht as [_ Hempty].
  - apply eat_target_prey in Ht as (Hpv & Hpa & _ & Hne).
    pose proof (on_turn_valid _ _ Hon) as Hv.
    pose proof (on_turn_visible _ _ Hon) as Hsv.
    pose proof Hon as (Hwf & Hin & Ha).
    split; [|split; [done|]].
    + apply occupant_unique; [done|]. apply elem_of_get_organism_at. by repeat split.
    + apply occupant_unique; [by apply wf_eat_step|].
      apply elem_of_get_organism_at. split; [done|].
      unfold at_cell. rewrite obj_remove_organism, obj_set_obj_ne by done.
      unfold move_organism. by rewrite obj_set_obj_eq.
Qed.

Lemma relocation_target_witness :
  get_organism_at (Animal.update 0%nat scenario_eco) 1 2 = [1%nat]
  ∧ 1%nat ≠ 0%nat
  ∧ get_organism_at
      (remove_organism 1%nat
         (move_organism 0%nat 1 2 (Animal.update 0%nat scenario_eco))) 1 2
    = [0%nat].
Proof.
  apply (relocation_target (ByEat 1%nat) (Animal.update 0%nat scenario_eco) 0%nat 1 2).
  - split; [|split; [by left|reflexivity]].
    apply wf_check_wf, (bool_decide_unpack (wf_check _)). by vm_compute.
  - apply (relocation_eat 0%nat (Animal.update 0%nat scenario_eco) Plant [] 1%nat []).
    by vm_compute.
Defined.

(** C8 as stated fails: in the scenario, the herbivore's eat step calls
    [move_organism] with the cell (1,2) while the alive plant still
    stands on it. *)
Lemma relocation_onto_occupied_cell :
  on_turn 0%nat (Animal.update 0%nat scenario_eco)
  ∧ relocation (ByEat 1%nat) (Animal.update 0%nat scenario_eco) 0%nat 1 2
  ∧ get_organism_at (Animal.update 0%nat scenario_eco) 1 2 ≠ [].
Proof.
  split; [|split].
  - split; [|split; [by left|reflexivity]].
    apply wf_check_wf, (bool_decide_unpack (wf_check _)). by vm_compute.
  - apply (relocation_eat 0%nat (Animal.update 0%nat scenario_eco) Plant [] 1%nat []).
    by vm_compute.
  - by vm_compute.
Qed.

(** ** The placement search *)

Lemma first_free_0 eco g c g' :
  first_free 0 eco g c g' ↔ draw_cell eco g = Some (c, g') ∧ c ∉ initial_helper_set eco.
Proof.
  unfold first_free; simpl. destruct (draw_cell eco g) as [[c0 g0]|].
  - split; [by intros (? & ? & _)|]. intros [? ?]. split; [done|]. split; [done|].
    apply Forall_nil_2.
  - split; [by intros (? & _)|by intros [? _]].
Qed.

Lemma first_free_S k eco g c g' :
  first_free (S k) eco g c g' ↔
  ∃ c0 g0, draw_cell eco g = Some (c0, g0) ∧ c0 ∈ initial_helper_set eco
           ∧ first_free k eco g0 c g'.
Proof.
  unfold first_free. split.
  - intros (Hn & Hfree & Hall). rewrite Forall_seq in Hall.
    destruct (Hall 0%nat) as (c0 & g0 & H0 & Hin0); [lia|].
    simpl in Hn, H0. destruct (draw_cell eco g) as [[c1 g1]|] eqn:Hd; [|done].
    injection H0 as -> ->. exists c0, g0.
    split; [done|]. split; [done|]. split; [done|]. split; [done|].
    apply Forall_seq. intros j Hj.
    destruct (Hall (S j)) as (cj & gj & Hj' & Hinj); [lia|].
    simpl in Hj'. rewrite Hd in Hj'. by exists cj, gj.
  - intros (c0 & g0 & Hd & Hin0 & Hn & Hfree & Hall). rewrite Forall_seq in Hall.
    split; [simpl; by rewrite Hd|]. split; [done|].
    apply Forall_seq. intros [|j] Hj.
    + exists c0, g0. simpl. by rewrite Hd.
    + destruct (Hall j) as (cj & gj & Hj' & Hinj); [lia|].
      exists cj, gj. simpl. by rewrite Hd.
Qed.

Lemma random_empty_cell_first_free k eco g c g' fuel :
  first_free k eco g c g' →
  random_empty_cell fuel eco g
  = if decide (k < fuel)%nat
    then Ok (c, set_helper eco (initial_helper_set eco ∪ {[ c ]}), g')
    else OutOfFuel.
Proof.
  revert g fuel. induction k as [|k IH]; intros g fuel.
  - intros [Hd Hfree]%first_free_0. destruct fuel as [|fuel]; [done|].
    cbn [random_empty_cell]. rewrite Hd, (decide_False _ _ Hfree).
    by rewrite decide_True by lia.
  - intros (c0 & g0 & Hd & Hin0 & Hff)%first_free_S.
    destruct fuel as [|fuel]; [done|].
    cbn [random_empty_cell]. rewrite Hd, (decide_True _ _ Hin0), (IH _ _ Hff).
    destruct (decide (k < fuel)%nat).
    + by rewrite decide_True by lia.
    + by rewrite decide_False by lia.
Qed.

(** Conversely, a search that returns a cell drew it at its first free
    attempt. *)
Lemma random_empty_cell_Ok_first_free fuel eco g c eco1 g1 :
  random_empty_cell fuel eco g = Ok (c, eco1, g1) →
  ∃ k, (k < fuel)%nat ∧ first_free k eco g c g1.
Proof.
  revert g. induction fuel as [|fuel IH]; intros g; simpl; [done|].
  destruct (draw_cell eco g) as [[c0 g0]|] eqn:Hd; [|done].
  case_decide as Hin.
  - intros (k & Hk & Hff)%IH. exists (S k). split; [lia|].
    apply first_free_S. by exists c0, g0.
  - intros [= <- _ <-]. exists 0%nat. split; [lia|]. by apply first_free_0.
Qed.

Lemma draw_cell_Some eco g :
  0 < width eco → 0 < height eco → ∃ c g', draw_cell eco g = Some (c, g').
Proof.
  intros Hw Hh. unfold draw_cell, randint.
  rewrite decide_False by lia. destruct (randbelow _ g) as [k1 g1].
  rewrite decide_False by lia. destruct (randbelow _ g1) as [k2 g2].
  by eexists _, _.
Qed.

Lemma random_empty_cell_no_raise fuel eco g e :
  0 < width eco → 0 < height eco → random_empty_cell fuel eco g ≠ Raise e.
Proof.
  intros Hw Hh. revert g. induction fuel as [|fuel IH]; intros g; simpl; [done|].
  destruct (draw_cell_Some eco g Hw Hh) as (c & g' & ->).
  case_decide; [apply IH|done].
Qed.

(** When the grid has cells and all of them are taken, the search
    exhausts any number of attempts. *)
Lemma random_empty_cell_grid_full fuel eco g :
  0 < width eco → 0 < height eco → grid_full eco →
  random_empty_cell fuel eco g = OutOfFuel.
Proof.
  intros Hw Hh Hfull. revert g. induction fuel as [|fuel IH]; intros g; simpl; [done|].
  destruct (draw_cell_Some eco g Hw Hh) as (c & g' & Hd). rewrite Hd.
  rewrite decide_True; [apply IH|]. eapply Hfull, draw_cell_bounds, Hd.
Qed.

Lemma grid_full_1x1 eco :
  width eco = 1 → height eco = 1 → (0, 0) ∈ initial_helper_set eco → grid_full eco.
Proof.
  intros Hw Hh Hin [cx cy] [[? ?] [? ?]]. simpl in *.
  by replace cx with 0 by lia; replace cy with 0 by lia.
Qed.

(** The construction of a 1x1 world with two plants: the second search
    finds the only cell taken. *)
Lemma init_1x1_two_plants fuel g : init fuel 1 1 2 0 0 1 g = OutOfFuel.
Proof.
  unfold init, populate. change (Z.to_nat 2) with 2%nat.
  set (eco0 := mkEcosystem _ _ _ _ _ _ _ _).
  cbn [populate_loop].
  destruct (random_empty_cell fuel eco0 g) as [[[[x y] eco1] g1]|e|] eqn:H1.
  - apply random_empty_cell_Ok in H1 as (_ & -> & [[? ?] [? ?]]). simpl in *.
    replace x with 0 by lia. replace y with 0 by lia.
    unfold tuple_truth, new_object. cbn [fst snd].
    rewrite random_empty_cell_grid_full; [done|done|done|].
    apply grid_full_1x1; [done|done|]. simpl.
    apply elem_of_union. right. by apply elem_of_singleton.
  - by apply random_empty_cell_no_raise in H1.
  - done.
Qed.

(** C7, as the code has it.  The search returns the first cell the
    generator draws outside the helper set, after exactly as many
    attempts as it takes to draw it ([k + 1] when attempt [k] is the
    first free one), and [populate] then always spawns on that cell: no
    round of [populate] is skipped, and a search that runs out leaves
    [populate] without a result. *)
Theorem search_returns_first_free organism_class n k eco g c g' fuel :
  first_free k eco g c g' →
  random_empty_cell fuel eco g
  = (if decide (k < fuel)%nat
     then Ok (c, set_helper eco (initial_helper_set eco ∪ {[ c ]}), g')
     else OutOfFuel)
  ∧ populate_loop fuel organism_class (S n) eco g
    = (if decide (k < fuel)%nat
       then populate_loop fuel organism_class n (spawned organism_class c eco) g'
       else OutOfFuel).
Proof.
  intros Hff. pose proof (random_empty_cell_first_free k eco g c g' fuel Hff) as Hs.
  split; [done|]. cbn [populate_loop]. rewrite Hs.
  case_decide; [|done]. by destruct c.
Qed.

Lemma search_returns_first_free_witness :
  random_empty_cell 5 seeding_2x2 [0; 0; 1; 0]%nat
  = Ok ((1, 0), set_helper seeding_2x2 ({[ (0, 0) ]} ∪ {[ (1, 0) ]}), [])
  ∧ populate_loop 5 Plant 1 seeding_2x2 [0; 0; 1; 0]%nat
    = populate_loop 5 Plant 0 (spawned Plant (1, 0) seeding_2x2) [].
Proof.
  apply (search_returns_first_free Plant 0 1 seeding_2x2 [0; 0; 1; 0]%nat (1, 0) [] 5).
  split; [reflexivity|]. split.
  - by vm_compute.
  - apply Forall_cons. split; [|apply Forall_nil_2].
    exists (0, 0), [1; 0]%nat. split; [reflexivity|]. by vm_compute.
Defined.

(** C7 as stated fails: on a 1x1 grid whose cell is taken the search
    never returns, whatever the generator delivers and however many
    attempts it is granted, and neither does the construction of a 1x1
    world with two plants. *)
Lemma search_never_returns_when_full :
  ¬ (∃ fuel g, random_empty_cell fuel full_1x1 g ≠ OutOfFuel)
  ∧ ¬ (∃ fuel g, init fuel 1 1 2 0 0 1 g ≠ OutOfFuel).
Proof.
  split.
  - intros (fuel & g & Hne). apply Hne.
    apply random_empty_cell_grid_full; [done|done|].
    apply grid_full_1x1; [done|done|]. by vm_compute.
  - intros (fuel & g & Hne). apply Hne. apply init_1x1_two_plants.
Qed.

(** ** The dimensions the constructor hands on *)

Lemma populate_loop_spawned fuel c n eco g :
  populate_loop fuel c (S n) eco g
  = match random_empty_cell fuel eco g with
    | Ok (cell, _, g1) => populate_loop fuel c n (spawned c cell eco) g1
    | Raise e => Raise e
    | OutOfFuel => OutOfFuel
    end.
Proof.
  cbn [populate_loop].
  destruct (random_empty_cell fuel eco g) as [[[[x y] eco1] g1]|e|] eqn:Hs; try done.
  by apply random_empty_cell_Ok in Hs as (_ & -> & _).
Qed.

Lemma populate_loop_dims fuel c n eco g eco' g' :
  populate_loop fuel c n eco g = Ok (eco', g') →
  width eco' = width eco ∧ height eco' = height eco
  ∧ total_ticks eco' = total_ticks eco.
Proof.
  revert eco g. induction n as [|n IH]; intros eco g.
  { by intros [= <- _]. }
  rewrite populate_loop_spawned.
  destruct (random_empty_cell fuel eco g) as [[[cell eco1] g1]| |]; try done.
  intros (-> & -> & ->)%IH. done.
Qed.

Lemma init_dims fuel w h np nh nc t g eco g1 s0 :
  init fuel w h np nh nc t g = Ok (eco, g1, s0) →
  width eco = w ∧ height eco = h ∧ total_ticks eco = t ∧ snap_tick s0 = 0.
Proof.
  unfold init, populate.
  set (eco0 := mkEcosystem _ _ _ _ _ _ _ _).
  destruct (populate_loop fuel Plant _ eco0 g) as [[eco1 g1']| |] eqn:H1; try done.
  destruct (populate_loop fuel Herbivore _ eco1 g1') as [[eco2 g2]| |] eqn:H2; try done.
  destruct (populate_loop fuel Carnivore _ eco2 g2) as [[eco3 g3]| |] eqn:H3; try done.
  destruct (separator _) as [line| |] eqn:Hline; try done.
  destruct (display _ 0) as [s| |] eqn:Hd; try done.
  intros [= <- _ <-].
  apply populate_loop_dims in H1 as (Hw1 & Hh1 & Ht1).
  apply populate_loop_dims in H2 as (Hw2 & Hh2 & Ht2).
  apply populate_loop_dims in H3 as (Hw3 & Hh3 & Ht3).
  simpl. rewrite Hw3, Hw2, Hw1, Hh3, Hh2, Hh1, Ht3, Ht2, Ht1.
  repeat split; try done.
  unfold display in Hd. destruct (place_organisms _ _ _); [|done].
  by injection Hd as <-.
Qed.

(** ** Determinism *)






(** *** The draws of the generator's primitives *)

Lemma draw_drop i k g : draw i (drop k g) = draw (k + i) g.
Proof.
  unfold draw. revert g. induction k as [|k IH]; intros g; [done|].
  destruct g as [|d g]; simpl; [by destruct i|apply IH].
Qed.

Lemma next_draw_eq g : next_draw g = (draw 0 g, drop 1 g).
Proof. by destruct g. Qed.

Lemma randbelow_eq n g : randbelow n g = ((draw 0 g mod n)%nat, drop 1 g).
Proof. unfold randbelow. by rewrite next_draw_eq. Qed.





Lemma same_stream_refl g : same_stream g g.
Proof. by intros i. Qed.

Lemma same_stream_drop k g g' : same_stream g g' → same_stream (drop k g) (drop k g').
Proof. intros H i. by rewrite !draw_drop. Qed.


(** *** Generators of the same stream give the same run *)

Lemma randbelow_stream n g g' :
  same_stream g g' → same_result (randbelow n g) (randbelow n g').
Proof.
  intros H. rewrite !randbelow_eq. split; simpl; [by rewrite (H 0%nat)|].
  by apply same_stream_drop.
Qed.





















(** * Further properties of the code *)

(** ** The neighbourhood *)

Lemma DIRECTIONS_NoDup : NoDup DIRECTIONS.
Proof. apply (bool_decide_unpack (NoDup DIRECTIONS)). by vm_compute. Qed.

(** X1. [get_adjacent_cells eco x y] lists exactly the cells of the grid
    that differ from [(x, y)] by at most one in each coordinate, [(x, y)]
    itself left out; it lists each of them once, and so at most 8. *)
Theorem get_adjacent_cells_exact eco x y c :
  (c ∈ get_adjacent_cells eco x y ↔
     in_bounds eco c ∧ c ≠ (x, y)
     ∧ (-1 ≤ c.1 - x ≤ 1) ∧ (-1 ≤ c.2 - y ≤ 1))
  ∧ NoDup (get_adjacent_cells eco x y)
  ∧ (length (get_adjacent_cells eco x y) ≤ 8)%nat.
Proof.
  split; [|split].
  - split.
    + intros Hin. pose proof (elem_of_get_adjacent_cells _ _ _ _ Hin) as [Hb Hne].
      split; [done|]. split; [done|].
      unfold get_adjacent_cells in Hin.
      apply list_elem_of_filter in Hin as [_ Hin].
      apply list_elem_of_fmap in Hin as (d & -> & Hd). unfold DIRECTIONS in Hd.
      repeat (apply elem_of_cons in Hd as [->|Hd]; [simpl; lia|]).
      by apply elem_of_nil in Hd.
    + intros (Hb & Hne & Hx & Hy). destruct c as [cx cy]. simpl in *.
      unfold get_adjacent_cells. apply list_elem_of_filter. split; [done|].
      apply list_elem_of_fmap. exists (cx - x, cy - y). split; [simpl; f_equal; lia|].
      assert (cx - x ≠ 0 ∨ cy - y ≠ 0) as Hnz.
      { destruct (decide (cx - x = 0)); [|by left]. right. intros ?. apply Hne.
        f_equal; lia. }
      assert (cx - x = -1 ∨ cx - x = 0 ∨ cx - x = 1) as Hdx by lia.
      assert (cy - y = -1 ∨ cy - y = 0 ∨ cy - y = 1) as Hdy by lia.
      unfold DIRECTIONS. rewrite !elem_of_cons.
      destruct Hdx as [Hdx|[Hdx|Hdx]], Hdy as [Hdy|[Hdy|Hdy]];
        rewrite Hdx, Hdy; tauto.
  - unfold get_adjacent_cells. apply NoDup_filter, NoDup_fmap_2_strong.
    + intros [a1 b1] [a2 b2] _ _ [= ? ?]. f_equal; lia.
    + apply DIRECTIONS_NoDup.
  - unfold get_adjacent_cells.
    etrans; [apply length_filter|]. by rewrite length_fmap.
Qed.

(** ** Tidy objects: the mutators *)

Lemma tidy_set_obj ex r o eco :
  tidy ex eco →
  (r ∈ visible eco →
     in_bounds eco (Organism.x o, Organism.y o)
     ∧ Organism.symbol o = class_symbol (Organism.cls o)
     ∧ (Some r ≠ ex → Organism.alive o = true → Organism.cls o ≠ Plant →
        0 < Organism.energy o)) →
  (r ∈ temp_removed_organisms eco → Organism.alive o = false) →
  (r ∈ temp_added_organisms eco → newborn_energy o) →
  tidy ex (set_obj r o eco).
Proof.
  intros [Hb Hs He Hq Hn] Hvis Hrem Hadd. split.
  - intros r' Hin. destruct (obj_set_obj_cases r o eco r') as [->|(-> & _ & ->)].
    + by apply Hb.
    + by apply Hvis.
  - intros r' Hin. destruct (obj_set_obj_cases r o eco r') as [->|(-> & _ & ->)].
    + by apply Hs.
    + by apply Hvis.
  - intros r' Hin. destruct (obj_set_obj_cases r o eco r') as [->|(-> & _ & ->)].
    + by apply He.
    + by apply Hvis.
  - intros r' Hin. rewrite length_heap_set_obj.
    destruct (obj_set_obj_cases r o eco r') as [->|(-> & ? & ->)].
    + by apply Hq.
    + split; [done|]. by apply Hrem.
  - intros r' Hin. destruct (obj_set_obj_cases r o eco r') as [->|(-> & _ & ->)].
    + by apply Hn.
    + by apply Hadd.
Qed.

Lemma tidy_remove_organism ex p eco :
  tidy ex eco → (p < length (heap eco))%nat → tidy ex (remove_organism p eco).
Proof.
  intros Ht Hp.
  assert (tidy ex (set_obj p (Organism.set_alive (obj eco p) false) eco)) as Ht1.
  { apply tidy_set_obj; [done| | |].
    - intros Hin. split; [by apply (tidy_bounds _ _ Ht)|].
      split; [by apply (tidy_symbol _ _ Ht)|]. done.
    - done.
    - intros Hin. by apply (tidy_newborn _ _ Ht). }
  destruct Ht1 as [Hb Hs He Hq Hn]. split; try done.
  intros r [Hr| ->%list_elem_of_singleton]%elem_of_app; [by apply Hq|].
  split.
  - by rewrite length_heap_remove_organism.
  - by rewrite obj_remove_organism, obj_set_obj_eq.
Qed.

Lemma tidy_birth ex o eco :
  tidy ex eco → no_dangling eco →
  in_bounds eco (Organism.x o, Organism.y o) →
  Organism.symbol o = class_symbol (Organism.cls o) →
  (Organism.alive o = true → Organism.cls o ≠ Plant → 0 < Organism.energy o) →
  newborn_energy o →
  tidy ex (add_organism (length (heap eco)) (set_heap eco (heap eco ++ [o]))).
Proof.
  intros [Hb Hs He Hq Hn] Hnd Hbo Hso Heo Hno.
  set (n := length (heap eco)). set (eco' := add_organism n _).
  assert (∀ r, (r < n)%nat → obj eco' r = obj eco r) as Hold
    by (intros r Hr; by apply obj_set_heap_app_old).
  assert (obj eco' n = o) as Hnew by apply obj_set_heap_app_new.
  assert (∀ r, r ∈ visible eco' → (r ∈ visible eco ∧ (r < n)%nat) ∨ r = n) as Hvis.
  { intros r. unfold visible; simpl. rewrite app_assoc.
    intros [Hr| ->%list_elem_of_singleton]%elem_of_app; [left|by right].
    split; [done|]. by apply (no_dangling_valid eco). }
  split.
  - intros r [[Hr Hlt]| ->]%Hvis; [rewrite Hold by done; by apply Hb|by rewrite Hnew].
  - intros r [[Hr Hlt]| ->]%Hvis; [rewrite Hold by done; by apply Hs|by rewrite Hnew].
  - intros r [[Hr Hlt]| ->]%Hvis; [rewrite Hold by done; by apply He|].
    rewrite Hnew. intros _. apply Heo.
  - intros r Hr. destruct (Hq r Hr) as [Hlt Hd]. split.
    + simpl. rewrite length_app. simpl. lia.
    + by rewrite Hold.
  - intros r. simpl. intros [Hr| ->%list_elem_of_singleton]%elem_of_app.
    + rewrite Hold; [by apply Hn|]. apply (no_dangling_valid eco); [done|].
      apply elem_of_app. by right.
    + by rewrite Hnew.
Qed.

Lemma tidy_exempt ex eco : tidy None eco → tidy ex eco.
Proof. intros [Hb Hs He Hq Hn]. split; try done. intros r Hr _. by apply He. Qed.

Lemma tidy_unexempt self eco :
  tidy (Some self) eco →
  (Organism.alive (obj eco self) = true → Organism.cls (obj eco self) ≠ Plant →
   0 < Organism.energy (obj eco self)) →
  tidy None eco.
Proof.
  intros [Hb Hs He Hq Hn] Hself. split; try done.
  intros r Hr _. destruct (decide (r = self)) as [->|Hne]; [done|].
  apply He; [done|congruence].
Qed.

(** Rewriting the organism on turn, alive before and after. *)
Lemma tidy_set_self self o eco :
  tidy (Some self) eco → NoDup (visible eco) → self ∈ organisms eco →
  Organism.alive (obj eco self) = true →
  in_bounds eco (Organism.x o, Organism.y o) →
  Organism.symbol o = class_symbol (Organism.cls o) →
  tidy (Some self) (set_obj self o eco).
Proof.
  intros Ht Hnd Hin Ha Hbo Hso. apply tidy_set_obj; [done| | |].
  - intros _. split; [done|]. split; [done|]. intros Hne. done.
  - intros Hr. apply (tidy_queued _ _ Ht) in Hr as [_ Hd]. congruence.
  - intros Hr. apply NoDup_app in Hnd as (_ & Hdisj & _). by destruct (Hdisj self).
Qed.

Lemma tidy_set_energy_self self e eco :
  tidy (Some self) eco → NoDup (visible eco) → self ∈ organisms eco →
  Organism.alive (obj eco self) = true →
  tidy (Some self) (set_energy self e eco).
Proof.
  intros Ht Hnd Hin Ha.
  assert (self ∈ visible eco) as Hv by (apply elem_of_app; by left).
  apply tidy_set_self; try done.
  - by apply (tidy_bounds _ _ Ht).
  - by apply (tidy_symbol _ _ Ht).
Qed.

Lemma set_energy_fresh eco o e :
  set_energy (length (heap eco)) e (set_heap eco (heap eco ++ [o]))
  = set_heap eco (heap eco ++ [Organism.set_energy o e]).
Proof.
  unfold set_energy, set_obj, obj, set_heap; simpl.
  rewrite list_lookup_total_middle by done.
  by rewrite insert_app_r_alt, Nat.sub_diag by lia.
Qed.

(** ** Tidy objects: the behaviours *)

Lemma Animal_update_tidy self eco :
  on_turn self eco → tidy (Some self) eco → tidy (Some self) (Animal.update self eco).
Proof.
  intros (Hwf & Hin & Ha) Ht. apply tidy_set_energy_self; try done. apply Hwf.
Qed.

Lemma Animal_eat_tidy self eco prey_class eat_gain g :
  on_turn self eco → tidy (Some self) eco →
  tidy (Some self) (Animal.eat self eco prey_class eat_gain g).1.2.
Proof.
  intros Hon Ht. unfold Animal.eat.
  destruct (Animal.eat_target self eco prey_class g) as [[prey g1]|] eqn:Htgt;
    simpl; [|done].
  apply eat_target_prey in Htgt as (Hpv & Hpa & _ & Hne).
  pose proof (on_turn_valid _ _ Hon) as Hv.
  pose proof Hon as (Hwf & Hin & Ha).
  pose proof (wf_valid _ Hwf prey Hpv) as Hp.
  set (eco1 := move_organism self _ _ eco).
  set (eco2 := remove_organism prey eco1).
  assert (tidy (Some self) eco1) as Ht1.
  { apply tidy_set_self; try done; [apply Hwf| |].
    - by apply (tidy_bounds _ _ Ht).
    - apply (tidy_symbol _ _ Ht). apply elem_of_app. by left. }
  assert (tidy (Some self) eco2) as Ht2.
  { apply tidy_remove_organism; [done|].
    subst eco1. unfold move_organism. by rewrite length_heap_set_obj. }
  apply tidy_set_energy_self; try done; [apply Hwf|].
  subst eco2. rewrite obj_remove_organism, obj_set_obj_ne by done.
  subst eco1. unfold move_organism. by rewrite obj_set_obj_eq.
Qed.

Lemma Animal_move_tidy self eco g :
  on_turn self eco → tidy (Some self) eco →
  tidy (Some self) (Animal.move self eco g).1.
Proof.
  intros Hon Ht. unfold Animal.move.
  destruct (Animal.move_target self eco g) as [[[nx ny] g1]|] eqn:Htgt;
    simpl; [|done].
  apply move_target_Some, elem_of_get_adjacent_empty_cells in Htgt as [Hadj _].
  apply elem_of_get_adjacent_cells in Hadj as [Hb _].
  pose proof Hon as (Hwf & Hin & Ha).
  apply tidy_set_self; try done; [apply Hwf|].
  apply (tidy_symbol _ _ Ht). apply elem_of_app. by left.
Qed.

Lemma Animal_reproduce_tidy self eco thr chance cost child_class child_energy g :
  (child_class, child_energy)
    ∈ [(Herbivore, HERBIVORE_CHILD_ENERGY); (Carnivore, CARNIVORE_CHILD_ENERGY)] →
  on_turn self eco → tidy (Some self) eco →
  tidy (Some self)
       (Animal.reproduce self eco thr chance cost child_class child_energy g).1.2.
Proof.
  intros Hchild Hon Ht. unfold Animal.reproduce.
  case_decide; simpl; [|done].
  destruct (random_lt chance g) as [[] g1]; simpl; [|done].
  destruct (get_adjacent_empty_cells _ _ _) as [|c cs] eqn:Hl; simpl; [done|].
  pose proof (choice_elem c cs g1) as Hin. rewrite <- Hl in Hin.
  destruct (choice c cs g1) as [[nx ny] g2]. simpl in Hin.
  apply elem_of_get_adjacent_empty_cells in Hin as [Hadj Hempty]. simpl in Hempty.
  apply elem_of_get_adjacent_cells in Hadj as [Hb _].
  destruct (construct_fields child_class nx ny) as (Hx & Hy & Ha & Hc).
  unfold new_object.
  destruct (birth_spec self eco (construct child_class nx ny) child_energy Hon)
    as (Hon' & _ & _); [by rewrite Hx, Hy|done|].
  set (eco3 := add_organism _ _) in *. simpl.
  assert (tidy (Some self) eco3) as Ht3.
  { subst eco3. rewrite set_energy_fresh.
    apply tidy_birth; [done|apply wf_no_dangling, Hon|..]; simpl.
    - by rewrite Hx, Hy.
    - rewrite Hc. by destruct child_class.
    - intros _ _.
      apply elem_of_cons in Hchild as [[= _ ->]|Hchild]; [done|].
      by apply list_elem_of_singleton in Hchild as [= _ ->].
    - unfold newborn_energy; simpl. rewrite Hc.
      apply elem_of_cons in Hchild as [[= -> ->]|Hchild]; [done|].
      by apply list_elem_of_singleton in Hchild as [= -> ->]. }
  pose proof Hon' as (Hwf' & Hin' & Ha').
  apply tidy_set_energy_self; try done. apply Hwf'.
Qed.

Lemma Animal_survive_tidy self eco :
  on_turn self eco → tidy (Some self) eco → tidy None (Animal.survive self eco).2.
Proof.
  intros Hon Ht. pose proof (on_turn_valid _ _ Hon) as Hv.
  unfold Animal.survive. case_decide as He; simpl.
  - apply (tidy_unexempt self).
    + by apply tidy_remove_organism.
    + rewrite obj_remove_organism, obj_set_obj_eq by done. done.
  - apply (tidy_unexempt self); [done|]. intros _ _. lia.
Qed.

Lemma Animal_act_tidy self eco prey_class eat_gain thr chance cost child_class
      child_energy g :
  (child_class, child_energy)
    ∈ [(Herbivore, HERBIVORE_CHILD_ENERGY); (Carnivore, CARNIVORE_CHILD_ENERGY)] →
  on_turn self eco → tidy None eco →
  tidy None (Animal.act self eco prey_class eat_gain thr chance cost child_class
               child_energy g).1.
Proof.
  intros Hchild Hon Ht%(tidy_exempt (Some self)). unfold Animal.act.
  destruct (Animal_update_spec self eco Hon) as [Hon1 _].
  pose proof (Animal_update_tidy self eco Hon Ht) as Ht1.
  pose proof (Animal_eat_spec self _ prey_class eat_gain g Hon1) as [Hon2 _].
  pose proof (Animal_eat_tidy self _ prey_class eat_gain g Hon1 Ht1) as Ht2.
  destruct (Animal.eat _ _ _ _ _) as [[ate eco2] g2]. simpl in Hon2, Ht2.
  assert (∃ acted eco3 g3,
    (if ate then (true, eco2, g2)
     else Animal.reproduce self eco2 thr chance cost child_class child_energy g2)
    = (acted, eco3, g3) ∧ on_turn self eco3 ∧ tidy (Some self) eco3)
    as (acted & eco3 & g3 & -> & Hon3 & Ht3).
  { destruct ate.
    - by do 3 eexists.
    - pose proof (Animal_reproduce_spec self eco2 thr chance cost child_class
                    child_energy g2 Hon2) as [? _].
      pose proof (Animal_reproduce_tidy self eco2 thr chance cost child_class
                    child_energy g2 Hchild Hon2 Ht2).
      destruct (Animal.reproduce _ _ _ _ _ _ _ _) as [[b e3] g3]. by do 3 eexists. }
  assert (∃ eco4 g4,
    (if acted then (eco3, g3) else Animal.move self eco3 g3) = (eco4, g4)
    ∧ on_turn self eco4 ∧ tidy (Some self) eco4) as (eco4 & g4 & -> & Hon4 & Ht4).
  { destruct acted.
    - by do 2 eexists.
    - pose proof (Animal_move_spec self eco3 g3 Hon3) as [? _].
      pose proof (Animal_move_tidy self eco3 g3 Hon3 Ht3).
      destruct (Animal.move _ _ _) as [e4 g4]. by do 2 eexists. }
  simpl. by apply Animal_survive_tidy.
Qed.

Lemma Plant_update_tidy self eco g :
  on_turn self eco → tidy None eco → tidy None (Plant.update self eco g).1.
Proof.
  intros Hon Ht. unfold Plant.update.
  destruct (random_lt _ g) as [[] g1]; simpl; [|done].
  destruct (get_adjacent_empty_cells _ _ _) as [|c cs] eqn:Hl; simpl; [done|].
  pose proof (choice_elem c cs g1) as Hin. rewrite <- Hl in Hin.
  destruct (choice c cs g1) as [[nx ny] g2]. simpl in Hin.
  apply elem_of_get_adjacent_empty_cells in Hin as [Hadj _].
  apply elem_of_get_adjacent_cells in Hadj as [Hb _].
  unfold new_object. simpl.
  by apply tidy_birth; [done|apply wf_no_dangling, Hon|..].
Qed.

Lemma update_tidy self eco g :
  on_turn self eco → tidy None eco → tidy None (update self eco g).1.
Proof.
  intros Hon Ht. unfold update, Herbivore.update, Carnivore.update.
  destruct (Organism.cls (obj eco self)).
  - by apply Plant_update_tidy.
  - apply Animal_act_tidy; [left|done|done].
  - apply Animal_act_tidy; [right; left|done|done].
Qed.

Lemma run_turns_tidy order eco g :
  wf eco → tidy None eco → (∀ r, r ∈ order → r ∈ organisms eco) →
  tidy None (run_turns order eco g).1.
Proof.
  unfold run_turns. revert eco g.
  induction order as [|org order IH]; intros eco g Hwf Ht Hsub; simpl; [done|].
  assert (org ∈ organisms eco) as Hin by (apply Hsub; by left).
  destruct (turn_spec (eco, g) org Hwf Hin) as [Hwf1 Hext1].
  assert (tidy None (turn (eco, g) org).1) as Ht1.
  { unfold turn. simpl. destruct (Organism.alive (obj eco org)) eqn:Ha; [|done].
    by apply update_tidy. }
  destruct (turn (eco, g) org) as [eco1 g1]. simpl in *.
  apply IH; [done|done|].
  intros r Hr. rewrite (ext_organisms _ _ Hext1). apply Hsub. by right.
Qed.

(** ** Tidy objects: commit, ticks and seeding *)

Lemma tidy_check_tidy eco : tidy_check eco → tidy None eco.
Proof.
  intros (Hv & Hq & Hn).
  pose proof (proj1 (Forall_forall _ _) Hv) as Hv'.
  split.
  - intros r Hr. by apply Hv'.
  - intros r Hr. by apply Hv'.
  - intros r Hr _. by apply Hv'.
  - exact (proj1 (Forall_forall _ _) Hq).
  - exact (proj1 (Forall_forall _ _) Hn).
Qed.

Lemma in_bounds_commit eco c : in_bounds (commit eco) c ↔ in_bounds eco c.
Proof.
  unfold commit. by rewrite commit_deaths_eq, commit_births_eq.
Qed.

Lemma commit_tidy eco : wf eco → tidy None eco → tidy None (commit eco).
Proof.
  intros Hwf [Hb Hs He Hq Hn].
  pose proof (organisms_commit_sublist eco) as Hsub.
  assert (∀ r, r ∈ visible (commit eco) → r ∈ visible eco) as Hvis.
  { intros r. unfold visible at 1, commit; simpl. rewrite app_nil_r.
    intros Hr. by eapply sublist_elem. }
  assert (∀ r, obj (commit eco) r = obj eco r) as Hobj.
  { intros r. unfold obj. by rewrite heap_commit. }
  split.
  - intros r Hr%Hvis. rewrite Hobj. apply in_bounds_commit. by apply Hb.
  - intros r Hr%Hvis. rewrite Hobj. by apply Hs.
  - intros r Hr%Hvis. rewrite Hobj. by apply He.
  - intros r Hr. by apply elem_of_nil in Hr.
  - intros r Hr. by apply elem_of_nil in Hr.
Qed.

Lemma tick_settled eco g : settled eco → settled (tick eco g).1.
Proof.
  intros [Hb Ht]. split; [by apply tick_boundary|].
  destruct Hb as (Hwf & _). unfold tick.
  pose proof (shuffle_Permutation (organisms eco) g) as Hperm.
  destruct (shuffle (organisms eco) g) as [order g1]. simpl in Hperm.
  assert (∀ r, r ∈ order → r ∈ organisms eco) as Hsub
    by (intros r Hr; by rewrite <- Hperm).
  destruct (run_turns_spec order eco g1 Hwf Hsub) as [Hwf1 _].
  pose proof (run_turns_tidy order eco g1 Hwf Ht Hsub) as Ht1.
  destruct (run_turns order eco g1) as [eco1 g2]. cbn [fst] in *.
  by apply commit_tidy.
Qed.

Lemma ticks_settled n eco g : settled eco → settled (ticks n eco g).1.
Proof.
  revert eco g. induction n as [|n IH]; intros eco g Hs; simpl; [done|].
  pose proof (tick_settled eco g Hs) as Hs1.
  destruct (tick eco g) as [eco1 g1]. by apply IH.
Qed.

Lemma tidy_spawned c cell eco :
  seeding eco → tidy None eco → in_bounds eco cell → tidy None (spawned c cell eco).
Proof.
  intros [Hos Had Hre Hal Hce Hdi] [Hb Hs He Hq Hn] Hcell.
  unfold spawned, new_object. cbn [snd].
  set (eco' := set_organisms _ _).
  assert (∀ r, (r < length (heap eco))%nat → obj eco' r = obj eco r) as Hold.
  { intros r Hr. subst eco'. unfold obj; simpl. by apply lookup_total_app_l. }
  assert (obj eco' (length (heap eco)) = construct c cell.1 cell.2) as Hnew.
  { subst eco'. unfold obj; simpl. by rewrite list_lookup_total_middle. }
  assert (∀ r, r ∈ visible eco' →
    (r ∈ visible eco ∧ (r < length (heap eco))%nat) ∨ r = length (heap eco)) as Hvis.
  { intros r. unfold visible; simpl. rewrite Had, !app_nil_r.
    intros [Hr| ->%list_elem_of_singleton]%elem_of_app; [left|by right].
    split; [done|]. rewrite Hos in Hr. apply elem_of_seq in Hr. lia. }
  destruct (construct_fields c cell.1 cell.2) as (Hx & Hy & Ha & Hc).
  split.
  - intros r [[Hr Hlt]| ->]%Hvis; [rewrite Hold by done; exact (Hb r Hr)|].
    rewrite Hnew, Hx, Hy. destruct cell. exact Hcell.
  - intros r [[Hr Hlt]| ->]%Hvis; [rewrite Hold by done; by apply Hs|].
    rewrite Hnew. by destruct c.
  - intros r [[Hr Hlt]| ->]%Hvis; [rewrite Hold by done; by apply He|].
    rewrite Hnew. intros _ _ Hanimal. by destruct c; [|vm_compute..].
  - intros r. simpl. rewrite Hre. by intros ?%elem_of_nil.
  - intros r. simpl. rewrite Had. by intros ?%elem_of_nil.
Qed.

Lemma seeding_spawned c cell eco :
  seeding eco → cell ∉ initial_helper_set eco → seeding (spawned c cell eco).
Proof.
  intros Hs Hfree. destruct (construct_fields c cell.1 cell.2) as (Hx & Hy & Ha & _).
  by apply (seeding_step eco cell (construct c cell.1 cell.2)).
Qed.

Lemma populate_loop_tidy fuel c n eco g eco' g' :
  seeding eco → tidy None eco →
  populate_loop fuel c n eco g = Ok (eco', g') → tidy None eco'.
Proof.
  revert eco g. induction n as [|n IH]; intros eco g Hs Ht.
  { by intros [= <- _]. }
  rewrite populate_loop_spawned.
  destruct (random_empty_cell fuel eco g) as [[[cell eco1] g1]| |] eqn:Hc; try done.
  apply random_empty_cell_Ok in Hc as (Hfree & _ & Hb).
  apply IH; [by apply seeding_spawned|by apply tidy_spawned].
Qed.

Lemma init_settled fuel w h np nh nc t g eco g' s0 :
  init fuel w h np nh nc t g = Ok (eco, g', s0) → settled eco.
Proof.
  intros Hi. split; [by eapply init_boundary|].
  revert Hi. unfold init, populate.
  set (eco0 := mkEcosystem _ _ _ _ _ _ _ _).
  assert (seeding eco0) as Hs0.
  { split; try done; simpl; intros; lia. }
  assert (tidy None eco0) as Ht0.
  { split; intros r Hr; by apply elem_of_nil in Hr. }
  destruct (populate_loop fuel Plant _ eco0 g) as [[eco1 g1]| |] eqn:H1; try done.
  destruct (populate_loop fuel Herbivore _ eco1 g1) as [[eco2 g2]| |] eqn:H2; try done.
  destruct (populate_loop fuel Carnivore _ eco2 g2) as [[eco3 g3]| |] eqn:H3; try done.
  destruct (separator _) as [line| |]; try done.
  destruct (display _ 0) as [s| |]; try done.
  intros [= <- _ _].
  assert (tidy None eco3) as [Hb Hs He Hq Hn].
  { eapply populate_loop_tidy; [| |exact H3].
    - eauto using populate_loop_seeding.
    - eapply populate_loop_tidy; [| |exact H2].
      + eauto using populate_loop_seeding.
      + eapply populate_loop_tidy; [| |exact H1]; done. }
  by split.
Qed.

(** ** What the main storage holds at a boundary *)

(** X2. Whenever the construction returns, then at every tick boundary
    every organism of the main storage is alive, stands inside the
    grid, shows the symbol of its class and, if it is an animal, has
    positive energy. *)
Theorem main_storage_sound fuel w h np nh nc t g eco g1 s0 n r :
  init fuel w h np nh nc t g = Ok (eco, g1, s0) →
  r ∈ organisms (ticks n eco g1).1 →
  Organism.alive (obj (ticks n eco g1).1 r) = true
  ∧ in_bounds (ticks n eco g1).1
      (Organism.x (obj (ticks n eco g1).1 r), Organism.y (obj (ticks n eco g1).1 r))
  ∧ Organism.symbol (obj (ticks n eco g1).1 r)
    = class_symbol (Organism.cls (obj (ticks n eco g1).1 r))
  ∧ (Organism.cls (obj (ticks n eco g1).1 r) ≠ Plant →
     0 < Organism.energy (obj (ticks n eco g1).1 r)).
Proof.
  intros Hi%init_settled Hr.
  destruct (ticks_settled n eco g1 Hi) as [Hb Ht].
  pose proof (boundary_alive _ _ Hb Hr) as Ha.
  assert (r ∈ visible (ticks n eco g1).1) as Hv by (apply elem_of_app; by left).
  split; [done|]. split; [by apply (tidy_bounds _ _ Ht)|].
  split; [by apply (tidy_symbol _ _ Ht)|].
  intros Hc. by apply (tidy_energy _ _ Ht).
Qed.

Lemma main_storage_sound_witness :
  ∃ eco g1 s0,
    init 50 3 3 2 2 1 3 demo_tape = Ok (eco, g1, s0)
    ∧ Organism.alive (obj (ticks 3 eco g1).1 4%nat) = true
    ∧ in_bounds (ticks 3 eco g1).1
        (Organism.x (obj (ticks 3 eco g1).1 4%nat),
         Organism.y (obj (ticks 3 eco g1).1 4%nat))
    ∧ Organism.symbol (obj (ticks 3 eco g1).1 4%nat)
      = class_symbol (Organism.cls (obj (ticks 3 eco g1).1 4%nat))
    ∧ (Organism.cls (obj (ticks 3 eco g1).1 4%nat) ≠ Plant →
       0 < Organism.energy (obj (ticks 3 eco g1).1 4%nat)).
Proof.
  destruct (init 50 3 3 2 2 1 3 demo_tape) as [[[eco g1] s0]| |] eqn:Hi.
  - exists eco, g1, s0. split; [reflexivity|].
    apply (main_storage_sound 50 3 3 2 2 1 3 demo_tape eco g1 s0 3 4%nat Hi).
    vm_compute in Hi. injection Hi as <- <- _.
    apply (bool_decide_unpack _). by vm_compute.
  - vm_compute in Hi. discriminate Hi.
  - vm_compute in Hi. discriminate Hi.
Defined.

(** ** The commit, exactly *)

Lemma filter_ext_in {A} (P Q : A → Prop) `{!∀ x, Decision (P x), !∀ x, Decision (Q x)}
      (l : list A) :
  (∀ x, x ∈ l → (P x ↔ Q x)) → filter P l = filter Q l.
Proof.
  induction l as [|a l IH]; intros Hext; [done|].
  rewrite !filter_cons.
  rewrite IH by (intros x Hx; apply Hext; by right).
  apply decide_ext. apply Hext. by left.
Qed.

Lemma filter_all {A} (P : A → Prop) `{!∀ x, Decision (P x)} (l : list A) :
  (∀ x, x ∈ l → P x) → filter P l = l.
Proof.
  induction l as [|a l IH]; intros Hall; [done|].
  rewrite filter_cons_True by (apply Hall; by left).
  rewrite IH; [done|]. intros x Hx. apply Hall. by right.
Qed.

Lemma remove_first_filter d l :
  NoDup l → remove_first d l = filter (λ r, r ≠ d) l.
Proof.
  induction 1 as [|a l Ha Hnd IH]; simpl; [done|].
  rewrite filter_cons. destruct (decide (a = d)) as [->|Hne].
  - rewrite decide_False by (intros ?; done).
    symmetry. apply filter_all. intros x Hx ->. done.
  - rewrite decide_True by done. by rewrite IH.
Qed.

Lemma purge_filter dead l :
  NoDup l → purge dead l = filter (λ r, r ∉ dead) l.
Proof.
  revert l. induction dead as [|d dead IH]; intros l Hnd.
  { symmetry. apply filter_all. intros x _. apply not_elem_of_nil. }
  assert (purge (d :: dead) l
          = purge dead (if decide (d ∈ l) then remove_first d l else l)) as ->
    by reflexivity.
  case_decide as Hd.
  - rewrite IH by (eapply sublist_NoDup; [exact Hnd|apply remove_first_sublist]).
    rewrite remove_first_filter by done. rewrite list_filter_filter.
    apply list_filter_iff. intros x. rewrite not_elem_of_cons. tauto.
  - rewrite IH by done. apply filter_ext_in. intros x Hx.
    rewrite not_elem_of_cons. split; [|tauto]. intros ?. split; [|done].
    intros ->. done.
Qed.

Lemma organisms_commit_alive eco :
  wf eco → tidy None eco →
  organisms (commit eco)
  = filter (λ r, Organism.alive (obj eco r) = true) (visible eco).
Proof.
  intros Hwf Ht. rewrite organisms_commit.
  rewrite purge_filter.
  2:{ eapply sublist_NoDup; [apply (wf_nodup _ Hwf)|].
      unfold visible. apply sublist_app; [done|]. apply sublist_filter. }
  unfold visible. rewrite !filter_app. f_equal.
  - apply filter_ext_in. intros r Hr. split.
    + intros Hnq. destruct (Organism.alive (obj eco r)) eqn:Ha; [done|].
      destruct Hnq. by apply (wf_dead _ Hwf).
    + intros Ha Hq. apply (tidy_queued _ _ Ht) in Hq as [_ Hd]. congruence.
  - apply filter_all. intros r [Ha _]%list_elem_of_filter Hq.
    apply (tidy_queued _ _ Ht) in Hq as [_ Hd]. congruence.
Qed.

Lemma organisms_commit_queue eco :
  wf eco →
  organisms (commit eco)
  = filter (λ r, r ∉ temp_removed_organisms eco)
      (organisms eco
       ++ filter (λ r, Organism.alive (obj eco r) = true) (temp_added_organisms eco)).
Proof.
  intros Hwf. rewrite organisms_commit. apply purge_filter.
  eapply sublist_NoDup; [apply (wf_nodup _ Hwf)|].
  unfold visible. apply sublist_app; [done|]. apply sublist_filter.
Qed.

Lemma organisms_commit_dead_queue eco :
  wf eco →
  (∀ r, r ∈ temp_removed_organisms eco → Organism.alive (obj eco r) = false) →
  organisms (commit eco)
  = filter (λ r, Organism.alive (obj eco r) = true) (visible eco).
Proof.
  intros Hwf Hq. rewrite organisms_commit_queue by done.
  unfold visible. rewrite !filter_app. f_equal.
  - apply filter_ext_in. intros r Hr. split.
    + intros Hnq. destruct (Organism.alive (obj eco r)) eqn:Ha; [done|].
      destruct Hnq. by apply (wf_dead _ Hwf).
    + intros Ha Hin. apply Hq in Hin. congruence.
  - apply filter_all. intros r [Ha _]%list_elem_of_filter Hin.
    apply Hq in Hin. congruence.
Qed.

(** X3. In a well-formed registry the commit leaves in the main
    storage the organisms of the main storage followed by the alive
    newborns of the birth queue, less those of the death queue, each
    in the order it had.  When every organism of the death queue is
    dead, as [remove_organism] leaves it, that is exactly the alive
    organisms of the main storage followed by those of the birth
    queue: nothing alive is lost, nothing dead is kept, nothing is
    reordered. *)
Theorem commit_keeps_the_alive eco :
  wf eco →
  organisms (commit eco)
  = filter (λ r, r ∉ temp_removed_organisms eco)
      (organisms eco
       ++ filter (λ r, Organism.alive (obj eco r) = true) (temp_added_organisms eco))
  ∧ ((∀ r, r ∈ temp_removed_organisms eco → Organism.alive (obj eco r) = false) →
     organisms (commit eco)
     = filter (λ r, Organism.alive (obj eco r) = true) (visible eco)).
Proof.
  intros Hwf. split; [by apply organisms_commit_queue|].
  by apply organisms_commit_dead_queue.
Qed.

Lemma commit_keeps_the_alive_witness :
  organisms (commit (run_turns [0; 1]%nat nursery_eco [0; 2; 0]%nat).1)
  = filter (λ r, r ∉ temp_removed_organisms
                       (run_turns [0; 1]%nat nursery_eco [0; 2; 0]%nat).1)
      (organisms (run_turns [0; 1]%nat nursery_eco [0; 2; 0]%nat).1
       ++ filter (λ r, Organism.alive
                         (obj (run_turns [0; 1]%nat nursery_eco [0; 2; 0]%nat).1 r)
                       = true)
                 (temp_added_organisms
                    (run_turns [0; 1]%nat nursery_eco [0; 2; 0]%nat).1))
  ∧ ((∀ r, r ∈ temp_removed_organisms
                 (run_turns [0; 1]%nat nursery_eco [0; 2; 0]%nat).1 →
           Organism.alive (obj (run_turns [0; 1]%nat nursery_eco [0; 2; 0]%nat).1 r)
           = false) →
     organisms (commit (run_turns [0; 1]%nat nursery_eco [0; 2; 0]%nat).1)
     = filter (λ r, Organism.alive
                      (obj (run_turns [0; 1]%nat nursery_eco [0; 2; 0]%nat).1 r) = true)
              (visible (run_turns [0; 1]%nat nursery_eco [0; 2; 0]%nat).1)).
Proof.
  apply commit_keeps_the_alive.
  apply wf_check_wf, (bool_decide_unpack (wf_check _)). by vm_compute.
Defined.

(** X4. Whatever enters the main storage during a tick started at a
    settled boundary is an alive newborn of that tick's birth queue;
    if it is an animal, its energy is exactly the child energy of its
    class (10 for a Herbivore, 20 for a Carnivore): it took no turn
    and paid no metabolic cost in the tick of its birth. *)
Theorem newcomers_are_newborn eco g r :
  settled eco →
  r ∈ organisms (tick eco g).1 → r ∉ organisms eco →
  Organism.alive (obj (tick eco g).1 r) = true
  ∧ newborn_energy (obj (tick eco g).1 r).
Proof.
  intros [(Hwf & _) Ht]. unfold tick.
  pose proof (shuffle_Permutation (organisms eco) g) as Hperm.
  destruct (shuffle (organisms eco) g) as [order g1]. simpl in Hperm.
  assert (∀ r, r ∈ order → r ∈ organisms eco) as Hsub
    by (intros r' Hr'; by rewrite <- Hperm).
  destruct (run_turns_spec order eco g1 Hwf Hsub) as [Hwf1 Hext].
  pose proof (run_turns_tidy order eco g1 Hwf Ht Hsub) as Ht1.
  destruct (run_turns order eco g1) as [eco1 g2]. cbn [fst] in *.
  intros Hr Hnew. unfold obj. rewrite heap_commit. fold (obj eco1 r).
  rewrite (organisms_commit_alive eco1 Hwf1 Ht1) in Hr.
  apply list_elem_of_filter in Hr as [Ha Hv].
  split; [done|]. apply (tidy_newborn _ _ Ht1).
  apply elem_of_app in Hv as [Hv|Hv]; [|done].
  rewrite (ext_organisms _ _ Hext) in Hv. done.
Qed.

Lemma settled_check eco :
  wf_check eco → tidy_check eco →
  temp_added_organisms eco = [] → temp_removed_organisms eco = [] → settled eco.
Proof.
  intros Hwf%wf_check_wf Ht%tidy_check_tidy Ha Hr.
  split; [split; [done|by split]|done].
Qed.

Lemma settled_lone_herbivore : settled lone_herbivore.
Proof.
  apply settled_check; try done.
  - apply (bool_decide_unpack (wf_check _)). by vm_compute.
  - apply (bool_decide_unpack (tidy_check _)). by vm_compute.
Qed.

Lemma newcomers_are_newborn_witness :
  Organism.alive (obj (tick lone_herbivore []).1 1%nat) = true
  ∧ newborn_energy (obj (tick lone_herbivore []).1 1%nat).
Proof.
  apply newcomers_are_newborn.
  - apply settled_lone_herbivore.
  - apply (bool_decide_unpack _). by vm_compute.
  - apply (bool_decide_unpack _). by vm_compute.
Defined.

(** ** The display *)

Lemma py_index_in n i :
  0 ≤ i < Z.of_nat n → py_index n i = Some (Z.to_nat i).
Proof. intros Hi. unfold py_index. by rewrite decide_True. Qed.

Lemma grid_cell_in grid x y :
  0 ≤ x → 0 ≤ y →
  grid_cell grid x y = (row ← grid !! Z.to_nat y; row !! Z.to_nat x).
Proof. intros. unfold grid_cell. by rewrite decide_True. Qed.

(** Writing a symbol inside the grid keeps its shape and changes
    that cell only. *)
Lemma grid_set_in cols rows grid ox oy s :
  grid_shape cols rows grid →
  0 ≤ ox < Z.of_nat cols → 0 ≤ oy < Z.of_nat rows →
  ∃ grid', grid_set grid ox oy s = Some grid'
    ∧ grid_shape cols rows grid'
    ∧ ∀ x y, 0 ≤ x < Z.of_nat cols → 0 ≤ y < Z.of_nat rows →
        grid_cell grid' x y
        = if decide (x = ox ∧ y = oy) then Some s else grid_cell grid x y.
Proof.
  intros [Hrows Hcols] Hx Hy. unfold grid_set.
  rewrite py_index_in by lia. simpl.
  destruct (grid !! Z.to_nat oy) as [row|] eqn:Hrow.
  2:{ apply lookup_ge_None in Hrow. lia. }
  assert (length row = cols) as Hlen.
  { eapply (proj1 (Forall_forall _ _) Hcols), list_elem_of_lookup_2, Hrow. }
  simpl. rewrite py_index_in by lia. simpl.
  eexists. split; [done|]. split.
  - split; [by rewrite length_insert|].
    apply Forall_insert; [done|]. by rewrite length_insert.
  - intros x y Hxb Hyb. rewrite !grid_cell_in by lia.
    destruct (decide (y = oy)) as [->|Hne].
    + rewrite list_lookup_insert_eq by lia. simpl. rewrite Hrow. simpl.
      destruct (decide (x = ox)) as [->|Hnx].
      * rewrite decide_True by done. apply list_lookup_insert_eq. lia.
      * rewrite decide_False by tauto. apply list_lookup_insert_ne. lia.
    + rewrite decide_False by tauto. rewrite list_lookup_insert_ne by lia. done.
Qed.

(** [place_organisms] on organisms that stand inside the grid: the
    last alive organism placed on a cell shows there, the other cells
    keep what they had. *)
Lemma place_organisms_in eco l grid :
  grid_shape (Z.to_nat (width eco)) (Z.to_nat (height eco)) grid →
  (∀ r, r ∈ l → Organism.alive (obj eco r) = true →
        in_bounds eco (Organism.x (obj eco r), Organism.y (obj eco r))) →
  ∃ grid', place_organisms eco l grid = Some grid'
    ∧ grid_shape (Z.to_nat (width eco)) (Z.to_nat (height eco)) grid'
    ∧ ∀ x y, in_bounds eco (x, y) →
        grid_cell grid' x y
        = match last (filter (at_cell eco x y) l) with
          | Some r => Some (Organism.symbol (obj eco r))
          | None => grid_cell grid x y
          end.
Proof.
  revert grid. induction l as [|org l IH]; intros grid Hshape Hin.
  { exists grid. split; [done|]. split; [done|]. intros x y Hb. by rewrite filter_nil. }
  cbn [place_organisms].
  assert (∀ r, r ∈ l → Organism.alive (obj eco r) = true →
    in_bounds eco (Organism.x (obj eco r), Organism.y (obj eco r))) as Hin'
    by (intros r Hr; apply Hin; by right).
  destruct (Organism.alive (obj eco org)) eqn:Ha.
  - destruct (Hin org) as [[? ?] [? ?]]; [by left|done|]. simpl in *.
    destruct (grid_set_in _ _ grid (Organism.x (obj eco org)) (Organism.y (obj eco org))
                (Organism.symbol (obj eco org)) Hshape)
      as (grid1 & -> & Hshape1 & Hcell1); [lia|lia|].
    simpl. destruct (IH grid1 Hshape1 Hin') as (grid' & -> & Hshape' & Hcell').
    exists grid'. split; [done|]. split; [done|].
    intros x y Hb. rewrite (Hcell' x y Hb). rewrite filter_cons.
    destruct Hb as [[? ?] [? ?]]. simpl in *.
    destruct (decide (at_cell eco x y org)) as [(Hx & Hy & _)|Hnot].
    + rewrite last_cons. destruct (last (filter (at_cell eco x y) l)); [done|].
      rewrite Hcell1 by lia. by rewrite decide_True.
    + destruct (last (filter (at_cell eco x y) l)); [done|].
      rewrite Hcell1 by lia. rewrite decide_False; [done|].
      intros [-> ->]. apply Hnot. by repeat split.
  - destruct (IH grid Hshape Hin') as (grid' & -> & Hshape' & Hcell').
    exists grid'. split; [done|]. split; [done|].
    intros x y Hb. rewrite (Hcell' x y Hb). rewrite filter_cons_False; [done|].
    intros (_ & _ & ?). congruence.
Qed.

Lemma empty_grid_shape cols rows :
  grid_shape cols rows (replicate rows (replicate cols EMPTY_SYMBOL)).
Proof.
  split; [apply length_replicate|]. apply Forall_replicate, length_replicate.
Qed.

Lemma empty_grid_cell cols rows x y :
  0 ≤ x < Z.of_nat cols → 0 ≤ y < Z.of_nat rows →
  grid_cell (replicate rows (replicate cols EMPTY_SYMBOL)) x y = Some EMPTY_SYMBOL.
Proof.
  intros Hx Hy. rewrite grid_cell_in by lia.
  rewrite lookup_replicate_2 by lia. simpl. apply lookup_replicate_2. lia.
Qed.

(** The three counters add up to the alive organisms of the main storage. *)
Lemma count_alive_sum eco :
  (count_alive eco Plant + count_alive eco Herbivore + count_alive eco Carnivore
   = length (filter (λ r, Organism.alive (obj eco r) = true) (organisms eco)))%nat.
Proof.
  unfold count_alive, Organism.isinstance.
  induction (organisms eco) as [|r l IH]; [done|].
  rewrite !filter_cons.
  destruct (Organism.alive (obj eco r)) eqn:Ha, (Organism.cls (obj eco r)) eqn:Hc;
    repeat (case_decide; simplify_eq/=; try done); lia.
Qed.

Lemma display_settled eco t :
  settled eco →
  ∃ s, display eco t = Ok s
    ∧ snap_tick s = t
    ∧ (snap_plants s + snap_herbivores s + snap_carnivores s
       = length (organisms eco))%nat
    ∧ grid_shape (Z.to_nat (width eco)) (Z.to_nat (height eco)) (snap_grid s)
    ∧ ∀ x y, in_bounds eco (x, y) →
        grid_cell (snap_grid s) x y
        = Some match get_organism_at eco x y with
               | [] => EMPTY_SYMBOL
               | r :: _ => class_symbol (Organism.cls (obj eco r))
               end.
Proof.
  intros [Hb Ht]. pose proof Hb as (Hwf & Hadd & Hrem). unfold display.
  destruct (place_organisms_in eco (organisms eco)
              (replicate (Z.to_nat (height eco))
                         (replicate (Z.to_nat (width eco)) EMPTY_SYMBOL)))
    as (grid' & -> & Hshape & Hcell).
  { apply empty_grid_shape. }
  { intros r Hr _. apply (tidy_bounds _ _ Ht). apply elem_of_app. by left. }
  eexists. split; [done|]. simpl. split; [done|]. split.
  { rewrite count_alive_sum. f_equal. apply filter_all.
    intros r Hr. by apply boundary_alive. }
  split; [done|].
  intros x y Hxy. rewrite (Hcell x y Hxy).
  assert (get_organism_at eco x y = filter (at_cell eco x y) (organisms eco)) as Hget.
  { unfold get_organism_at, visible. by rewrite Hadd, app_nil_r. }
  rewrite <- Hget.
  destruct (get_organism_at eco x y) as [|r l] eqn:Hl.
  - simpl. destruct Hxy as [[? ?] [? ?]]. simpl in *.
    apply empty_grid_cell; lia.
  - assert (r ∈ get_organism_at eco x y) as Hr by (rewrite Hl; by left).
    pose proof (occupant_unique eco x y r Hwf Hr) as Hone.
    rewrite Hl in Hone. injection Hone as ->. simpl. f_equal.
    apply (tidy_symbol _ _ Ht).
    by apply elem_of_get_organism_at in Hr as [Hv _].
Qed.

(** X5. At a settled boundary [display] never raises: the snapshot
    carries the tick it was given, its three counters add up to the size
    of the main storage, its grid has [height] rows of [width] symbols,
    and every cell of the grid shows the class symbol of the organism
    standing on it, or the empty symbol when no organism does. *)
Theorem display_shows_the_occupants eco t :
  settled eco →
  ∃ s, display eco t = Ok s
    ∧ snap_tick s = t
    ∧ (snap_plants s + snap_herbivores s + snap_carnivores s
       = length (organisms eco))%nat
    ∧ grid_shape (Z.to_nat (width eco)) (Z.to_nat (height eco)) (snap_grid s)
    ∧ ∀ x y, in_bounds eco (x, y) →
        grid_cell (snap_grid s) x y
        = Some match get_organism_at eco x y with
               | [] => EMPTY_SYMBOL
               | r :: _ => class_symbol (Organism.cls (obj eco r))
               end.
Proof. apply display_settled. Qed.

Lemma display_shows_the_occupants_witness :
  ∃ s, display lone_herbivore 7 = Ok s
    ∧ snap_tick s = 7
    ∧ (snap_plants s + snap_herbivores s + snap_carnivores s
       = length (organisms lone_herbivore))%nat
    ∧ grid_shape (Z.to_nat (width lone_herbivore)) (Z.to_nat (height lone_herbivore))
                 (snap_grid s)
    ∧ ∀ x y, in_bounds lone_herbivore (x, y) →
        grid_cell (snap_grid s) x y
        = Some match get_organism_at lone_herbivore x y with
               | [] => EMPTY_SYMBOL
               | r :: _ => class_symbol (Organism.cls (obj lone_herbivore r))
               end.
Proof.
  apply display_shows_the_occupants. apply settled_lone_herbivore.
Defined.

(** ** The run *)

Lemma run_from_settled n t eco g :
  settled eco →
  ∃ eco' g' ss, run_from n t eco g = Ok (eco', g', ss)
    ∧ snap_tick <$> ss = seqZ (t + 1) (Z.of_nat n).
Proof.
  revert t eco g. induction n as [|n IH]; intros t eco g Hs.
  { by exists eco, g, []. }
  cbn [run_from]. pose proof (tick_settled eco g Hs) as Hs1.
  destruct (tick eco g) as [eco1 g1]. cbn [fst] in Hs1.
  destruct (display_settled eco1 (t + 1) Hs1) as (s & -> & Htick & _).
  destruct (IH (t + 1) eco1 g1 Hs1) as (eco' & g' & ss & -> & Hticks).
  exists eco', g', (s :: ss). split; [done|].
  rewrite fmap_cons, Htick, Hticks.
  rewrite (seqZ_cons (t + 1)) by lia. f_equal. f_equal; lia.
Qed.

(** X6. Once the construction has returned, the simulation runs to
    completion: no tick raises, and the snapshots shown are those of
    the ticks 0, 1, ..., [ticks], one each, the first being the one the
    construction displayed. *)
Theorem simulation_runs_to_completion fuel w h np nh nc t g eco g1 s0 :
  init fuel w h np nh nc t g = Ok (eco, g1, s0) →
  ∃ ss, simulate fuel w h np nh nc t g = Ok (s0 :: ss)
    ∧ snap_tick <$> (s0 :: ss) = seqZ 0 (Z.of_nat (Z.to_nat t) + 1).
Proof.
  intros Hi. pose proof (init_settled _ _ _ _ _ _ _ _ _ _ _ Hi) as Hs.
  pose proof (init_dims _ _ _ _ _ _ _ _ _ _ _ Hi) as (_ & _ & Ht & H0).
  unfold simulate, run. rewrite Hi, Ht.
  destruct (run_from_settled (Z.to_nat t) 0 eco g1 Hs) as (eco' & g' & ss & -> & Hss).
  exists ss. split; [done|].
  rewrite fmap_cons, H0, Hss. rewrite (seqZ_cons 0) by lia.
  f_equal. f_equal; lia.
Qed.

Lemma simulation_runs_to_completion_witness :
  ∃ eco g1 s0 ss,
    init 50 3 3 2 2 1 3 demo_tape = Ok (eco, g1, s0)
    ∧ simulate 50 3 3 2 2 1 3 demo_tape = Ok (s0 :: ss)
    ∧ snap_tick <$> (s0 :: ss) = seqZ 0 (Z.of_nat (Z.to_nat 3) + 1).
Proof.
  destruct (init 50 3 3 2 2 1 3 demo_tape) as [[[eco g1] s0]| |] eqn:Hi.
  - destruct (simulation_runs_to_completion 50 3 3 2 2 1 3 demo_tape eco g1 s0 Hi)
      as (ss & Hsim & Hticks).
    exists eco, g1, s0, ss. split; [reflexivity|]. split; [exact Hsim|exact Hticks].
  - vm_compute in Hi. discriminate Hi.
  - vm_compute in Hi. discriminate Hi.
Defined.

(** ** What the constructor seeds *)

Lemma seeded_cells_spawned c cell eco :
  seeded_cells (spawned c cell eco) = seeded_cells eco ++ [cell].
Proof.
  unfold seeded_cells, spawned, new_object. simpl. rewrite fmap_app. simpl.
  destruct (construct_fields c cell.1 cell.2) as (-> & -> & _). by destruct cell.
Qed.

Lemma construct_fresh c x y :
  construct c x y
  = construct (Organism.cls (construct c x y)) (Organism.x (construct c x y))
              (Organism.y (construct c x y)).
Proof. by destruct c. Qed.

Lemma packed_spawned c cell eco :
  packed eco → in_bounds eco cell → (cell ∉ initial_helper_set eco) →
  packed (spawned c cell eco).
Proof.
  intros [Hh Hb Hnd Hf] Hcell Hfree. split.
  - intros c'. rewrite seeded_cells_spawned. unfold spawned; cbn [initial_helper_set set_organisms new_object snd set_heap set_helper].
    rewrite elem_of_union, elem_of_singleton, elem_of_app, list_elem_of_singleton.
    by rewrite Hh.
  - intros c'. rewrite seeded_cells_spawned, elem_of_app. intros [Hc|Hc].
    + exact (Hb c' Hc).
    + apply list_elem_of_singleton in Hc as ->. exact Hcell.
  - rewrite seeded_cells_spawned. apply NoDup_app. split; [done|]. split.
    + intros c' Hc ->%list_elem_of_singleton. by apply Hfree, Hh.
    + apply NoDup_singleton.
  - intros o. unfold spawned, new_object; simpl. rewrite elem_of_app.
    intros [Ho|Ho]; [by apply Hf|].
    apply list_elem_of_singleton in Ho as ->. apply construct_fresh.
Qed.

Lemma count_alive_spawned c cell eco c' :
  seeding eco →
  count_alive (spawned c cell eco) c'
  = (count_alive eco c' + (if decide (c = c') then 1 else 0))%nat.
Proof.
  intros [Hos Had Hre Hal Hce Hdi]. unfold count_alive.
  set (eco' := spawned c cell eco).
  assert (organisms eco' = organisms eco ++ [length (heap eco)]) as -> by done.
  assert (∀ r, (r < length (heap eco))%nat → obj eco' r = obj eco r) as Hold.
  { intros r Hr. subst eco'. unfold obj, spawned, new_object; simpl.
    by apply lookup_total_app_l. }
  assert (obj eco' (length (heap eco)) = construct c cell.1 cell.2) as Hnew.
  { subst eco'. unfold obj, spawned, new_object; simpl.
    by rewrite list_lookup_total_middle. }
  rewrite filter_app, length_app. f_equal.
  - f_equal. apply filter_ext_in. intros r Hr.
    rewrite Hold; [done|]. rewrite Hos in Hr. apply elem_of_seq in Hr. lia.
  - rewrite filter_cons, filter_nil, Hnew.
    destruct (construct_fields c cell.1 cell.2) as (_ & _ & Ha & Hc).
    unfold Organism.isinstance. rewrite Ha, Hc.
    repeat case_decide; simplify_eq/=; try done;
      repeat case_bool_decide; simplify_eq/=; done.
Qed.

Lemma populate_loop_count fuel c n eco g eco' g' :
  seeding eco → populate_loop fuel c n eco g = Ok (eco', g') →
  length (heap eco') = (length (heap eco) + n)%nat
  ∧ ∀ c', count_alive eco' c'
          = (count_alive eco c' + (if decide (c = c') then n else 0))%nat.
Proof.
  revert eco g. induction n as [|n IH]; intros eco g Hs.
  { intros [= <- _]. split; [lia|]. intros c'. case_decide; lia. }
  rewrite populate_loop_spawned.
  destruct (random_empty_cell fuel eco g) as [[[cell eco1] g1]| |] eqn:Hc; try done.
  apply random_empty_cell_Ok in Hc as (Hfree & _ & Hb).
  intros [Hlen Hcount]%IH; [|by apply seeding_spawned]. split.
  - rewrite Hlen. unfold spawned, new_object; simpl. rewrite length_app. simpl. lia.
  - intros c'. rewrite Hcount, count_alive_spawned by done. case_decide; lia.
Qed.

Lemma populate_loop_packed fuel c n eco g eco' g' :
  packed eco → populate_loop fuel c n eco g = Ok (eco', g') → packed eco'.
Proof.
  revert eco g. induction n as [|n IH]; intros eco g Hp.
  { by intros [= <- _]. }
  rewrite populate_loop_spawned.
  destruct (random_empty_cell fuel eco g) as [[[cell eco1] g1]| |] eqn:Hc; try done.
  apply random_empty_cell_Ok in Hc as (Hfree & _ & Hb).
  apply IH. by apply packed_spawned.
Qed.

(** The grid has [width * height] cells, each listed once. *)
Lemma elem_of_all_cells eco c : c ∈ all_cells eco ↔ in_bounds eco c.
Proof.
  unfold all_cells, in_bounds. rewrite list_elem_of_join. split.
  - intros (l & Hc & Hl). apply list_elem_of_fmap in Hl as (x & -> & Hx).
    apply list_elem_of_fmap in Hc as (y & -> & Hy).
    apply elem_of_seqZ in Hx, Hy. simpl. lia.
  - intros [Hx Hy]. exists ((λ y, (c.1, y)) <$> seqZ 0 (height eco)). split.
    + apply list_elem_of_fmap. exists c.2. split; [by destruct c|].
      apply elem_of_seqZ. lia.
    + apply list_elem_of_fmap. exists c.1. split; [done|].
      apply elem_of_seqZ. lia.
Qed.

Lemma length_all_cells eco :
  length (all_cells eco) = (Z.to_nat (width eco) * Z.to_nat (height eco))%nat.
Proof.
  unfold all_cells.
  assert (∀ l : list Z,
    length (mjoin ((λ x, (λ y, (x, y)) <$> seqZ 0 (height eco)) <$> l))
    = (length l * Z.to_nat (height eco))%nat) as Hlen.
  { induction l as [|x l IH]; [done|].
    rewrite fmap_cons. change (mjoin (?a :: ?k)) with (a ++ mjoin k).
    rewrite length_app, IH, length_fmap, length_seqZ. simpl. lia. }
  by rewrite Hlen, length_seqZ.
Qed.


Lemma packed_capacity eco :
  packed eco →
  (length (heap eco) ≤ Z.to_nat (width eco) * Z.to_nat (height eco))%nat.
Proof.
  intros [Hh Hb Hnd Hf].
  rewrite <- length_all_cells, <- (length_fmap (λ o, (Organism.x o, Organism.y o))).
  apply submseteq_length, NoDup_submseteq; [done|].
  intros c Hc. by apply elem_of_all_cells, Hb.
Qed.

Lemma classes_spawned c cell eco :
  Organism.cls <$> heap (spawned c cell eco) = (Organism.cls <$> heap eco) ++ [c].
Proof.
  unfold spawned, new_object. simpl. rewrite fmap_app. simpl.
  by destruct (construct_fields c cell.1 cell.2) as (_ & _ & _ & ->).
Qed.

Lemma populate_loop_classes fuel c n eco g eco' g' :
  populate_loop fuel c n eco g = Ok (eco', g') →
  Organism.cls <$> heap eco' = (Organism.cls <$> heap eco) ++ replicate n c.
Proof.
  revert eco g. induction n as [|n IH]; intros eco g.
  { intros [= <- _]. by rewrite app_nil_r. }
  rewrite populate_loop_spawned.
  destruct (random_empty_cell fuel eco g) as [[[cell eco1] g1]| |]; try done.
  intros ->%IH. rewrite classes_spawned, <- app_assoc. done.
Qed.

Lemma seeding_objects eco : seeding eco → obj eco <$> organisms eco = heap eco.
Proof.
  intros Hs. rewrite (seed_organisms _ Hs). unfold obj.
  apply list_eq. intros i. rewrite list_lookup_fmap.
  destruct (decide (i < length (heap eco))%nat) as [Hi|Hi].
  - rewrite lookup_seq_lt by done. simpl.
    destruct (lookup_lt_is_Some_2 (heap eco) i Hi) as [o Ho].
    by rewrite (list_lookup_total_correct _ _ _ Ho), Ho.
  - rewrite lookup_seq_ge by lia. simpl. symmetry. apply lookup_ge_None. lia.
Qed.

(** What the three calls of [populate] have built when the constructor
    returns. *)
Lemma init_Ok_inv fuel w h np nh nc t g eco g1 s0 :
  init fuel w h np nh nc t g = Ok (eco, g1, s0) →
  ∃ eco3, eco = set_helper eco3 ∅ ∧ display eco 0 = Ok s0
    ∧ seeding eco3 ∧ packed eco3
    ∧ Organism.cls <$> heap eco3
      = replicate (Z.to_nat np) Plant ++ replicate (Z.to_nat nh) Herbivore
        ++ replicate (Z.to_nat nc) Carnivore
    ∧ count_alive eco3 Plant = Z.to_nat np
    ∧ count_alive eco3 Herbivore = Z.to_nat nh
    ∧ count_alive eco3 Carnivore = Z.to_nat nc.
Proof.
  unfold init, populate.
  set (eco0 := mkEcosystem _ _ _ _ _ _ _ _).
  assert (seeding eco0) as Hs0.
  { split; try done; simpl; intros; lia. }
  assert (packed eco0) as Hp0.
  { split; unfold seeded_cells; simpl.
    - intros c. by rewrite elem_of_empty, elem_of_nil.
    - by intros c Hc%elem_of_nil.
    - constructor.
    - by intros o Ho%elem_of_nil. }
  destruct (populate_loop fuel Plant _ eco0 g) as [[eco1 g1']| |] eqn:H1; try done.
  destruct (populate_loop fuel Herbivore _ eco1 g1') as [[eco2 g2]| |] eqn:H2; try done.
  destruct (populate_loop fuel Carnivore _ eco2 g2) as [[eco3 g3]| |] eqn:H3; try done.
  destruct (separator _) as [line| |] eqn:Hline; try done.
  destruct (display _ 0) as [s| |] eqn:Hd; try done.
  intros [= <- _ <-]. exists eco3.
  pose proof (populate_loop_seeding _ _ _ _ _ _ _ Hs0 H1) as Hs1.
  pose proof (populate_loop_seeding _ _ _ _ _ _ _ Hs1 H2) as Hs2.
  pose proof (populate_loop_seeding _ _ _ _ _ _ _ Hs2 H3) as Hs3.
  pose proof (populate_loop_packed _ _ _ _ _ _ _ Hp0 H1) as Hp1.
  pose proof (populate_loop_packed _ _ _ _ _ _ _ Hp1 H2) as Hp2.
  pose proof (populate_loop_packed _ _ _ _ _ _ _ Hp2 H3) as Hp3.
  destruct (populate_loop_count _ _ _ _ _ _ _ Hs0 H1) as [_ Hc1].
  destruct (populate_loop_count _ _ _ _ _ _ _ Hs1 H2) as [_ Hc2].
  destruct (populate_loop_count _ _ _ _ _ _ _ Hs2 H3) as [_ Hc3].
  apply populate_loop_classes in H1, H2, H3.
  do 4 (split; [done|]). split.
  { rewrite H3, H2, H1. simpl. by rewrite <- app_assoc. }
  assert (∀ c, count_alive eco0 c = 0%nat) as Hc0 by done.
  rewrite !Hc3, !Hc2, !Hc1, !Hc0.
  repeat split; repeat case_decide; simplify_eq; lia.
Qed.

(** X7. When the constructor returns, the main storage holds exactly
    the requested populations (a negative one counting as none), the
    plants first, then the herbivores, then the carnivores, every
    organism as its class constructor made it (so with the initial
    energy of its class); the snapshot of tick 0 counts them, the
    helper set and both queues are empty, and there are no more
    organisms than the grid has cells. *)
Theorem constructor_seeds_the_populations fuel w h np nh nc t g eco g1 s0 :
  init fuel w h np nh nc t g = Ok (eco, g1, s0) →
  (λ r, Organism.cls (obj eco r)) <$> organisms eco
  = replicate (Z.to_nat np) Plant ++ replicate (Z.to_nat nh) Herbivore
    ++ replicate (Z.to_nat nc) Carnivore
  ∧ (∀ r, r ∈ organisms eco →
       obj eco r = construct (Organism.cls (obj eco r)) (Organism.x (obj eco r))
                             (Organism.y (obj eco r)))
  ∧ snap_plants s0 = Z.to_nat np
  ∧ snap_herbivores s0 = Z.to_nat nh
  ∧ snap_carnivores s0 = Z.to_nat nc
  ∧ initial_helper_set eco = ∅
  ∧ temp_added_organisms eco = []
  ∧ temp_removed_organisms eco = []
  ∧ (length (organisms eco) ≤ Z.to_nat w * Z.to_nat h)%nat.
Proof.
  intros Hi. destruct (init_dims _ _ _ _ _ _ _ _ _ _ _ Hi) as (Hw & Hh & _).
  apply init_Ok_inv in Hi as (eco3 & -> & Hd & Hs & Hp & Hcls & Hnp & Hnh & Hnc).
  pose proof (seeding_objects _ Hs) as Hobj.
  split.
  { change ((λ r, Organism.cls (obj (set_helper eco3 ∅) r)) <$> organisms (set_helper eco3 ∅))
      with ((Organism.cls ∘ obj eco3) <$> organisms eco3).
    by rewrite list_fmap_compose, Hobj. }
  split.
  { intros r Hr. apply (packed_fresh _ Hp).
    change (obj (set_helper eco3 ∅) r) with (obj eco3 r). rewrite <- Hobj.
    apply list_elem_of_fmap. by exists r. }
  unfold display in Hd. destruct (place_organisms _ _ _); [|done].
  injection Hd as <-. simpl.
  do 3 (split; [done|]). split; [done|]. split; [apply Hs|]. split; [apply Hs|].
  simpl in Hw, Hh. rewrite <- Hw, <- Hh.
  rewrite <- (length_fmap (obj eco3)), Hobj. by apply packed_capacity.
Qed.

Lemma constructor_seeds_the_populations_witness :
  ∃ eco g1 s0,
    init 50 3 3 2 2 1 3 demo_tape = Ok (eco, g1, s0)
    ∧ (λ r, Organism.cls (obj eco r)) <$> organisms eco
      = [Plant; Plant; Herbivore; Herbivore; Carnivore]
    ∧ snap_plants s0 = 2%nat ∧ snap_herbivores s0 = 2%nat
    ∧ snap_carnivores s0 = 1%nat
    ∧ (length (organisms eco) ≤ 9)%nat.
Proof.
  destruct (init 50 3 3 2 2 1 3 demo_tape) as [[[eco g1] s0]| |] eqn:Hi.
  - exists eco, g1, s0. split; [reflexivity|].
    destruct (constructor_seeds_the_populations 50 3 3 2 2 1 3 demo_tape eco g1 s0 Hi)
      as (Hc & _ & Hp & Hh & Hn & _ & _ & _ & Hcap).
    split; [exact Hc|]. split; [exact Hp|]. split; [exact Hh|].
    split; [exact Hn|exact Hcap].
  - vm_compute in Hi. discriminate Hi.
  - vm_compute in Hi. discriminate Hi.
Defined.

(** ** When the constructor returns *)

Lemma populate_loop_no_raise fuel c n eco g e :
  0 < width eco → 0 < height eco → populate_loop fuel c n eco g ≠ Raise e.
Proof.
  intros Hw Hh. revert eco g Hw Hh. induction n as [|n IH]; intros eco g Hw Hh.
  { done. }
  rewrite populate_loop_spawned.
  pose proof (random_empty_cell_no_raise fuel eco g) as Hno.
  destruct (random_empty_cell fuel eco g) as [[[cell eco1] g1]|e'|]; [|by destruct (Hno e')|done].
  by apply IH.
Qed.


Lemma random_empty_cell_raise fuel eco g e :
  random_empty_cell fuel eco g = Raise e → e = ValueError.
Proof.
  revert g. induction fuel as [|fuel IH]; intros g; simpl; [done|].
  destruct (draw_cell eco g) as [[c g2]|]; [|by intros [= <-]].
  case_decide; [apply IH|done].
Qed.

Lemma populate_loop_raise fuel c n eco g e :
  populate_loop fuel c n eco g = Raise e →
  e = ValueError ∧ (width eco ≤ 0 ∨ height eco ≤ 0).
Proof.
  intros Hr. split.
  - revert eco g Hr. induction n as [|n IH]; intros eco g; [done|].
    rewrite populate_loop_spawned.
    destruct (random_empty_cell fuel eco g) as [[[cell eco1] g1]|e'|] eqn:Hc;
      [apply IH| |done].
    intros [= <-]. by eapply random_empty_cell_raise.
  - destruct (decide (0 < width eco ∧ 0 < height eco)) as [[Hw Hh]|Hno]; [|lia].
    by destruct (populate_loop_no_raise fuel c n eco g e Hw Hh).
Qed.

(** How the constructor ends: it searches for ever, or a search raises
    the [ValueError] of an empty range, or the three populations are
    seeded and what is left is the separator line and the first
    display. *)
Lemma init_outcome fuel w h np nh nc t g :
  init fuel w h np nh nc t g = OutOfFuel
  ∨ (init fuel w h np nh nc t g = Raise ValueError ∧ (w ≤ 0 ∨ h ≤ 0))
  ∨ ∃ eco3 g3,
      seeding eco3 ∧ tidy None eco3 ∧ packed eco3
      ∧ width eco3 = w ∧ height eco3 = h ∧ total_ticks eco3 = t
      ∧ length (heap eco3) = (Z.to_nat np + Z.to_nat nh + Z.to_nat nc)%nat
      ∧ init fuel w h np nh nc t g
        = match separator (set_helper eco3 ∅) with
          | Ok _ =>
              match display (set_helper eco3 ∅) 0 with
              | Ok s => Ok (set_helper eco3 ∅, g3, s)
              | Raise e => Raise e
              | OutOfFuel => OutOfFuel
              end
          | Raise e => Raise e
          | OutOfFuel => OutOfFuel
          end.
Proof.
  unfold init, populate.
  set (eco0 := mkEcosystem _ _ _ _ _ _ _ _).
  assert (seeding eco0) as Hs0.
  { split; try done; simpl; intros; lia. }
  assert (tidy None eco0) as Ht0.
  { split; intros r Hr; by apply elem_of_nil in Hr. }
  assert (packed eco0) as Hp0.
  { split; unfold seeded_cells; simpl.
    - intros c. by rewrite elem_of_empty, elem_of_nil.
    - by intros c Hc%elem_of_nil.
    - constructor.
    - by intros o Ho%elem_of_nil. }
  destruct (populate_loop fuel Plant _ eco0 g) as [[eco1 g1]|e1|] eqn:H1;
    [|right; left|by left].
  2:{ apply populate_loop_raise in H1 as [-> Hd]. done. }
  destruct (populate_loop_dims _ _ _ _ _ _ _ H1) as (Hw1 & Hh1 & Ht1).
  destruct (populate_loop fuel Herbivore _ eco1 g1) as [[eco2 g2]|e2|] eqn:H2;
    [|right; left|by left].
  2:{ apply populate_loop_raise in H2 as [-> Hd]. by rewrite Hw1, Hh1 in Hd. }
  destruct (populate_loop_dims _ _ _ _ _ _ _ H2) as (Hw2 & Hh2 & Ht2).
  destruct (populate_loop fuel Carnivore _ eco2 g2) as [[eco3 g3]|e3|] eqn:H3;
    [|right; left|by left].
  2:{ apply populate_loop_raise in H3 as [-> Hd].
      by rewrite Hw2, Hh2, Hw1, Hh1 in Hd. }
  destruct (populate_loop_dims _ _ _ _ _ _ _ H3) as (Hw3 & Hh3 & Ht3).
  pose proof (populate_loop_seeding _ _ _ _ _ _ _ Hs0 H1) as Hs1.
  pose proof (populate_loop_seeding _ _ _ _ _ _ _ Hs1 H2) as Hs2.
  pose proof (populate_loop_seeding _ _ _ _ _ _ _ Hs2 H3) as Hs3.
  pose proof (populate_loop_tidy _ _ _ _ _ _ _ Hs0 Ht0 H1) as Hti1.
  pose proof (populate_loop_tidy _ _ _ _ _ _ _ Hs1 Hti1 H2) as Hti2.
  pose proof (populate_loop_tidy _ _ _ _ _ _ _ Hs2 Hti2 H3) as Hti3.
  pose proof (populate_loop_packed _ _ _ _ _ _ _ Hp0 H1) as Hp1.
  pose proof (populate_loop_packed _ _ _ _ _ _ _ Hp1 H2) as Hp2.
  pose proof (populate_loop_packed _ _ _ _ _ _ _ Hp2 H3) as Hp3.
  destruct (populate_loop_count _ _ _ _ _ _ _ Hs0 H1) as [Hl1 _].
  destruct (populate_loop_count _ _ _ _ _ _ _ Hs1 H2) as [Hl2 _].
  destruct (populate_loop_count _ _ _ _ _ _ _ Hs2 H3) as [Hl3 _].
  right. right. exists eco3, g3.
  do 3 (split; [done|]).
  split; [by rewrite Hw3, Hw2, Hw1|]. split; [by rewrite Hh3, Hh2, Hh1|].
  split; [by rewrite Ht3, Ht2, Ht1|]. split; [|done].
  rewrite Hl3, Hl2, Hl1. simpl. lia.
Qed.

(** X8. On a grid that has cells, asking for more organisms than there
    are cells makes the constructor search for a free cell for ever:
    whatever the generator yields and however many attempts are
    granted, it neither returns nor raises. *)
Theorem over_capacity_never_constructs fuel w h np nh nc t g :
  0 < w → 0 < h →
  (Z.to_nat w * Z.to_nat h < Z.to_nat np + Z.to_nat nh + Z.to_nat nc)%nat →
  init fuel w h np nh nc t g = OutOfFuel.
Proof.
  intros Hw Hh Hover.
  destruct (init_outcome fuel w h np nh nc t g)
    as [Hi|[[_ Hd]|(eco3 & g3 & _ & _ & Hp & Hwe & Hhe & _ & Hlen & _)]];
    [done|lia|].
  apply packed_capacity in Hp. rewrite Hwe, Hhe in Hp. lia.
Qed.

Lemma over_capacity_never_constructs_witness :
  init 50 2 1 1 1 1 4 demo_tape = OutOfFuel.
Proof. apply over_capacity_never_constructs; [lia|lia|vm_compute; lia]. Defined.









(** ** The constructor at its edges *)

(** X10. With no population to seed (a negative count is an empty
    [range]) the constructor draws nothing from the generator and
    searches for nothing, whatever the dimensions, even non-positive
    ones: it goes straight to the separator line, which raises
    [OverflowError] when three times the width does not fit the index
    type, and then to the display of tick 0 of the empty world, which,
    when it returns, shows a grid of empty symbols with all three
    counters at zero. *)
Theorem constructor_with_nothing_to_seed fuel w h np nh nc t g :
  np ≤ 0 → nh ≤ 0 → nc ≤ 0 →
  init fuel w h np nh nc t g
  = (if decide (PY_SSIZE_T_MIN ≤ w * 3 ≤ PY_SSIZE_T_MAX) then
       match display {| width := w; height := h; heap := []; organisms := [];
                        total_ticks := t; initial_helper_set := ∅;
                        temp_added_organisms := [];
                        temp_removed_organisms := [] |} 0 with
       | Ok s =>
           Ok ({| width := w; height := h; heap := []; organisms := [];
                  total_ticks := t; initial_helper_set := ∅;
                  temp_added_organisms := []; temp_removed_organisms := [] |},
               g, s)
       | Raise e => Raise e
       | OutOfFuel => OutOfFuel
       end
     else Raise OverflowError)
  ∧ ∀ s,
      display {| width := w; height := h; heap := []; organisms := [];
                 total_ticks := t; initial_helper_set := ∅;
                 temp_added_organisms := []; temp_removed_organisms := [] |} 0
      = Ok s →
      s = {| snap_tick := 0; snap_plants := 0; snap_herbivores := 0;
             snap_carnivores := 0;
             snap_grid := replicate (Z.to_nat h)
                                    (replicate (Z.to_nat w) EMPTY_SYMBOL) |}.
Proof.
  intros Hp Hh Hc. split.
  - unfold init, populate.
    replace (Z.to_nat np) with 0%nat by lia.
    replace (Z.to_nat nh) with 0%nat by lia.
    replace (Z.to_nat nc) with 0%nat by lia.
    cbn [populate_loop]. unfold separator, CELL_WIDTH. cbn [width set_helper].
    replace (2 + 1) with 3 by lia. by case_decide.
  - by intros s [= <-].
Qed.

Lemma constructor_with_nothing_to_seed_witness :
  init 0 (-3) 2 0 (-1) 0 7 demo_tape
  = (if decide (PY_SSIZE_T_MIN ≤ -3 * 3 ≤ PY_SSIZE_T_MAX) then
       match display {| width := -3; height := 2; heap := []; organisms := [];
                        total_ticks := 7; initial_helper_set := ∅;
                        temp_added_organisms := [];
                        temp_removed_organisms := [] |} 0 with
       | Ok s =>
           Ok ({| width := -3; height := 2; heap := []; organisms := [];
                  total_ticks := 7; initial_helper_set := ∅;
                  temp_added_organisms := []; temp_removed_organisms := [] |},
               demo_tape, s)
       | Raise e => Raise e
       | OutOfFuel => OutOfFuel
       end
     else Raise OverflowError)
  ∧ ∀ s,
      display {| width := -3; height := 2; heap := []; organisms := [];
                 total_ticks := 7; initial_helper_set := ∅;
                 temp_added_organisms := []; temp_removed_organisms := [] |} 0
      = Ok s →
      s = {| snap_tick := 0; snap_plants := 0; snap_herbivores := 0;
             snap_carnivores := 0;
             snap_grid := replicate (Z.to_nat 2)
                                    (replicate (Z.to_nat (-3)) EMPTY_SYMBOL) |}.
Proof. apply (constructor_with_nothing_to_seed 0 (-3) 2 0 (-1) 0 7); lia. Defined.

Lemma draw_cell_None eco g :
  width eco ≤ 0 ∨ height eco ≤ 0 → draw_cell eco g = None.
Proof.
  intros Hno. unfold draw_cell, randint.
  destruct (decide (width eco - 1 < 0)) as [Hw|Hw]; [done|].
  destruct (randbelow _ g) as [k g1].
  by rewrite decide_True by lia.
Qed.

Lemma populate_loop_no_cells fuel c n eco g :
  (0 < fuel)%nat → width eco ≤ 0 ∨ height eco ≤ 0 →
  populate_loop fuel c n eco g
  = match n with O => Ok (eco, g) | S _ => Raise ValueError end.
Proof.
  intros Hfuel Hno. destruct n as [|n]; [done|].
  rewrite populate_loop_spawned. destruct fuel as [|fuel]; [lia|].
  cbn [random_empty_cell]. by rewrite draw_cell_None.
Qed.

(** X11. On a grid without cells (a width or a height that is not
    positive) with something to seed, the first search raises the
    [ValueError] of [random.randint] on an empty range, and the
    constructor propagates it. *)
Theorem constructor_without_cells_raises fuel w h np nh nc t g :
  (0 < fuel)%nat → w ≤ 0 ∨ h ≤ 0 → 0 < np ∨ 0 < nh ∨ 0 < nc →
  init fuel w h np nh nc t g = Raise ValueError.
Proof.
  intros Hfuel Hno Hsome. unfold init, populate.
  rewrite !populate_loop_no_cells by done.
  destruct (Z.to_nat np) as [|kp] eqn:Hp; [|done].
  rewrite !populate_loop_no_cells by done.
  destruct (Z.to_nat nh) as [|kh] eqn:Hh; [|done].
  rewrite !populate_loop_no_cells by done.
  destruct (Z.to_nat nc) as [|kc] eqn:Hc; [|done].
  lia.
Qed.

Lemma constructor_without_cells_raises_witness :
  init 1 3 0 0 0 2 5 demo_tape = Raise ValueError.
Proof. apply constructor_without_cells_raises; lia. Defined.

(** ** main.py: the parameters read from the console *)

Lemma accepted_iff allow_zero value :
  accepted allow_zero value ↔ ¬ (value < 0 ∨ (allow_zero = false ∧ value = 0)).
Proof.
  unfold accepted. destruct allow_zero.
  - split.
    + intros [H0 _] [Hneg|[[=] _]]. lia.
    + intros Hno. split; [lia|done].
  - split.
    + intros [H0 H1] [Hneg|[_ Hz]]; [lia|by apply H1].
    + intros Hno. split; [lia|]. intros _ Hz. apply Hno. by right.
Qed.

Lemma get_positive_integer_Some allow_zero inputs value rest :
  get_positive_integer allow_zero inputs = Some (value, rest) ↔
  ∃ skipped, inputs = skipped ++ Integer value :: rest
    ∧ Forall (rejected allow_zero) skipped ∧ accepted allow_zero value.
Proof.
  induction inputs as [|e inputs IH].
  { simpl. split; [done|]. intros (sk & Heq & _). by destruct sk. }
  assert (rejected allow_zero e →
    (get_positive_integer allow_zero inputs = Some (value, rest) ↔
     ∃ skipped, e :: inputs = skipped ++ Integer value :: rest
       ∧ Forall (rejected allow_zero) skipped ∧ accepted allow_zero value)) as Hskip.
  { intros Hrej. rewrite IH. split.
    - intros (sk & -> & Hf & Ha). exists (e :: sk).
      split; [done|]. split; [by constructor|done].
    - intros (sk & Heq & Hf & Ha). destruct sk as [|e' sk].
      + simpl in Heq. injection Heq as -> ->. done.
      + simpl in Heq. injection Heq as -> ->. exists sk.
        apply Forall_cons in Hf as [_ Hf]. done. }
  destruct e as [|v]; simpl; [by apply Hskip|].
  case_decide as Hv.
  - apply Hskip. simpl. rewrite accepted_iff. tauto.
  - apply accepted_iff in Hv. split.
    + intros [= -> ->]. exists []. split; [done|]. split; [constructor|done].
    + intros (sk & Heq & Hf & Ha). destruct sk as [|e' sk].
      * simpl in Heq. by injection Heq as -> ->.
      * simpl in Heq. injection Heq as <- _.
        apply Forall_cons in Hf as [Hrej _]. done.
Qed.

Lemma get_positive_integer_None allow_zero inputs :
  get_positive_integer allow_zero inputs = None ↔ Forall (rejected allow_zero) inputs.
Proof.
  induction inputs as [|e inputs IH]; [done|].
  rewrite Forall_cons. destruct e as [|v]; simpl.
  - rewrite IH. tauto.
  - rewrite accepted_iff. case_decide as Hv; [rewrite IH; tauto|].
    split; [done|]. tauto.
Qed.

(** X12. [get_positive_integer] returns the first entry that is an
    integer it accepts (non-negative, and not zero unless zero is
    allowed), having asked again for every entry before it, and leaves
    the entries after it unread; when no entry is acceptable it never
    returns. *)
Theorem get_positive_integer_first_accepted allow_zero inputs :
  (∀ value rest,
     get_positive_integer allow_zero inputs = Some (value, rest) ↔
     ∃ skipped, inputs = skipped ++ Integer value :: rest
       ∧ Forall (rejected allow_zero) skipped ∧ accepted allow_zero value)
  ∧ (get_positive_integer allow_zero inputs = None ↔
     Forall (rejected allow_zero) inputs).
Proof.
  split; [intros value rest; apply get_positive_integer_Some|].
  apply get_positive_integer_None.
Qed.

Lemma get_positive_integer_spec allow_zero inputs value rest :
  get_positive_integer allow_zero inputs = Some (value, rest) →
  accepted allow_zero value ∧ rest `suffix_of` inputs
  ∧ (length rest < length inputs)%nat.
Proof.
  intros (sk & -> & _ & Ha)%get_positive_integer_Some. split; [done|]. split.
  - exists (sk ++ [Integer value]). by rewrite <- app_assoc.
  - rewrite length_app. simpl. lia.
Qed.

(** Room for deeper calls changes nothing once the call has not run
    out of depth. *)
Lemma get_simulation_parameters_mono depth n inputs :
  get_simulation_parameters depth inputs ≠ Raise RecursionError → (depth ≤ n)%nat →
  get_simulation_parameters n inputs = get_simulation_parameters depth inputs.
Proof.
  revert n inputs. induction depth as [|depth IH]; intros n inputs Hne Hle.
  { done. }
  destruct n as [|n]; [lia|]. revert Hne.
  cbn [get_simulation_parameters].
  destruct (get_positive_integer false inputs) as [[w i1]|]; [|done].
  destruct (get_positive_integer false i1) as [[h i2]|]; [|done].
  destruct (get_positive_integer true i2) as [[p i3]|]; [|done].
  destruct (get_positive_integer true i3) as [[hb i4]|]; [|done].
  destruct (get_positive_integer true i4) as [[c i5]|]; [|done].
  cbn zeta. case_decide; [|done]. intros Hne. apply IH; [done|lia].
Qed.

Lemma get_simulation_parameters_valid depth inputs w h p hb c t rest :
  get_simulation_parameters depth inputs = Ok (w, h, p, hb, c, t, rest) →
  0 < w ∧ 0 < h ∧ 0 ≤ p ∧ 0 ≤ hb ∧ 0 ≤ c ∧ p + hb + c ≤ w * h ∧ 0 < t
  ∧ rest `suffix_of` inputs.
Proof.
  revert inputs. induction depth as [|depth IH]; intros inputs; [done|].
  cbn [get_simulation_parameters].
  destruct (get_positive_integer false inputs) as [[w' i1]|] eqn:H1; [|done].
  destruct (get_positive_integer false i1) as [[h' i2]|] eqn:H2; [|done].
  destruct (get_positive_integer true i2) as [[p' i3]|] eqn:H3; [|done].
  destruct (get_positive_integer true i3) as [[hb' i4]|] eqn:H4; [|done].
  destruct (get_positive_integer true i4) as [[c' i5]|] eqn:H5; [|done].
  cbn zeta.
  apply get_positive_integer_spec in H1 as ([? ?] & S1 & _), H2 as ([? ?] & S2 & _),
    H3 as ([? _] & S3 & _), H4 as ([? _] & S4 & _), H5 as ([? _] & S5 & _).
  assert (i5 `suffix_of` inputs) as S by (by repeat (etrans; [eassumption|])).
  case_decide as Hcap.
  - intros (? & ? & ? & ? & ? & ? & ? & Sr)%IH.
    repeat (split; [done|]). by etrans.
  - destruct (get_positive_integer false i5) as [[t' i6]|] eqn:H6; [|done].
    apply get_positive_integer_spec in H6 as ([? ?] & S6 & _).
    intros [= <- <- <- <- <- <- <-].
    repeat (split; [lia|]). by etrans.
Qed.


(** X13. The parameters [get_simulation_parameters] returns satisfy
    what the simulation needs: positive dimensions, non-negative
    populations that fit the grid, a positive number of ticks; they are
    followed on the console by the entries left unread, and more room
    for nested calls makes no difference to them. *)
Theorem accepted_parameters_are_valid depth inputs w h p hb c t rest :
  get_simulation_parameters depth inputs = Ok (w, h, p, hb, c, t, rest) →
  0 < w ∧ 0 < h ∧ 0 ≤ p ∧ 0 ≤ hb ∧ 0 ≤ c ∧ p + hb + c ≤ w * h ∧ 0 < t
  ∧ rest `suffix_of` inputs
  ∧ ∀ n, (depth ≤ n)%nat →
      get_simulation_parameters n inputs = Ok (w, h, p, hb, c, t, rest).
Proof.
  intros Hget.
  destruct (get_simulation_parameters_valid _ _ _ _ _ _ _ _ _ Hget)
    as (? & ? & ? & ? & ? & ? & ? & ?).
  do 8 (split; [done|]). intros n Hn. rewrite <- Hget.
  apply get_simulation_parameters_mono; [by rewrite Hget|done].
Qed.

Lemma accepted_parameters_are_valid_witness :
  get_simulation_parameters 2 demo_console = Ok (3, 3, 2, 2, 1, 3, [NotAnInteger])
  ∧ 0 < 3 ∧ 0 < 3 ∧ 0 ≤ 2 ∧ 0 ≤ 2 ∧ 0 ≤ 1 ∧ 2 + 2 + 1 ≤ 3 * 3 ∧ 0 < 3
  ∧ [NotAnInteger] `suffix_of` demo_console
  ∧ ∀ n, (2 ≤ n)%nat →
      get_simulation_parameters n demo_console
      = Ok (3, 3, 2, 2, 1, 3, [NotAnInteger]).
Proof.
  split; [reflexivity|].
  apply (accepted_parameters_are_valid 2 demo_console). reflexivity.
Defined.

(** ** main.py: the whole program *)






(** ** The energy balance of a turn *)

Lemma Animal_reproduce_false self eco thr chance cost child_class child_energy g :
  (Animal.reproduce self eco thr chance cost child_class child_energy g).1.1 = false →
  (Animal.reproduce self eco thr chance cost child_class child_energy g).1.2 = eco.
Proof.
  unfold Animal.reproduce. case_decide; [|done].
  destruct (random_lt chance g) as [[] g1]; [|done].
  destruct (get_adjacent_empty_cells _ _ _) as [|c cs]; [done|].
  by destruct (choice c cs g1) as [[nx ny] g2].
Qed.

Lemma Animal_move_self self eco g :
  Organism.energy (obj (Animal.move self eco g).1 self) = Organism.energy (obj eco self)
  ∧ Organism.alive (obj (Animal.move self eco g).1 self) = Organism.alive (obj eco self)
  ∧ length (heap (Animal.move self eco g).1) = length (heap eco).
Proof.
  unfold Animal.move.
  destruct (Animal.move_target self eco g) as [[[nx ny] g1]|]; [|done].
  cbn [fst]. unfold move_organism. rewrite length_heap_set_obj.
  by destruct (obj_set_obj_cases self (Organism.set_pos (obj eco self) nx ny) eco self)
    as [->|(_ & _ & ->)].
Qed.

Lemma Animal_survive_self self eco :
  (self < length (heap eco))%nat → Organism.alive (obj eco self) = true →
  Organism.energy (obj (Animal.survive self eco).2 self) = Organism.energy (obj eco self)
  ∧ Organism.alive (obj (Animal.survive self eco).2 self)
    = bool_decide (0 < Organism.energy (obj eco self)).
Proof.
  intros Hself Ha. unfold Animal.survive. case_decide as He; cbn [snd].
  - rewrite obj_remove_organism, obj_set_obj_eq by done. simpl.
    by rewrite bool_decide_eq_false_2 by lia.
  - by rewrite Ha, bool_decide_eq_true_2 by lia.
Qed.

Lemma Animal_eat_length self eco prey_class eat_gain g :
  length (heap (Animal.eat self eco prey_class eat_gain g).1.2) = length (heap eco).
Proof.
  unfold Animal.eat.
  destruct (Animal.eat_target self eco prey_class g) as [[prey g1]|]; [|done].
  cbn [fst snd]. unfold set_energy, move_organism.
  by rewrite length_heap_set_obj, length_heap_remove_organism, length_heap_set_obj.
Qed.

(** The energy an animal ends its turn with, by what it did: the eat
    step returned [True]; or it did not and the reproduce step did; or
    neither did.  The survival check has the last word. *)
Lemma Animal_act_balance self eco prey_class eat_gain thr chance cost child_class
      child_energy g :
  no_dangling eco → (self < length (heap eco))%nat →
  Organism.alive (obj eco self) = true →
  let eco' := (Animal.act self eco prey_class eat_gain thr chance cost child_class
                 child_energy g).1 in
  let ate := (Animal.eat self (Animal.update self eco) prey_class eat_gain g).1.1 in
  let bred := (Animal.reproduce self (Animal.update self eco) thr chance cost
                 child_class child_energy g).1.1 in
  (ate = true →
   Organism.energy (obj eco' self) = Organism.energy (obj eco self) - 1 + eat_gain)
  ∧ (ate = false → bred = true →
     thr ≤ Organism.energy (obj eco self) - 1
     ∧ Organism.energy (obj eco' self) = Organism.energy (obj eco self) - 1 - cost)
  ∧ (ate = false → bred = false →
     Organism.energy (obj eco' self) = Organism.energy (obj eco self) - 1)
  ∧ Organism.alive (obj eco' self) = bool_decide (0 < Organism.energy (obj eco' self)).
Proof.
  intros Hnd Hself Ha eco' ate bred. subst eco' ate bred. unfold Animal.act.
  set (e := Organism.energy (obj eco self)).
  set (eco1 := Animal.update self eco).
  assert (length (heap eco1) = length (heap eco)) as Hlen1
    by apply length_heap_set_obj.
  assert (obj eco1 self = Organism.set_energy (obj eco self) (e - 1)) as Hobj1.
  { subst eco1. by rewrite Animal_update_obj, decide_True by done. }
  assert (∀ eco4 (g4 : Rng), (self < length (heap eco4))%nat →
    Organism.alive (obj eco4 self) = true →
    let eco5 := ((Animal.survive self eco4).2, g4).1 in
    Organism.energy (obj eco5 self) = Organism.energy (obj eco4 self)
    ∧ Organism.alive (obj eco5 self)
      = bool_decide (0 < Organism.energy (obj eco5 self))) as Hlast.
  { intros eco4 g4 H4 Ha4. cbn [fst].
    destruct (Animal_survive_self self eco4 H4 Ha4) as [He5 Ha5].
    by rewrite He5. }
  destruct (Animal.eat self eco1 prey_class eat_gain g) as [[ate eco2] g2] eqn:Heat.
  pose proof (Animal_eat_length self eco1 prey_class eat_gain g) as Hlen2.
  rewrite Heat in Hlen2. cbn [fst snd] in Hlen2.
  destruct ate.
  { apply Animal_eat_true in Heat as (prey & _ & _ & _ & Hobj2 & _);
      [|by apply Animal_update_no_dangling|by rewrite Hlen1].
    destruct (Hlast eco2 g2) as [He5 Ha5].
    - by rewrite Hlen2, Hlen1.
    - by rewrite Hobj2, Hobj1.
    - cbn [fst snd] in He5, Ha5 |- *. split; [|split; [done|split; [done|done]]].
      intros _. rewrite He5, Hobj2, Hobj1. done. }
  pose proof (Animal_eat_false self eco1 prey_class eat_gain g) as Hfalse.
  rewrite Heat in Hfalse. specialize (Hfalse eq_refl). injection Hfalse as -> ->.
  destruct (Animal.reproduce self eco1 thr chance cost child_class child_energy g)
    as [[acted eco3] g3] eqn:Hrep.
  destruct acted.
  { apply Animal_reproduce_true in Hrep as (Hthr & _ & Hobj3 & Hlen3 & _);
      [|by rewrite Hlen1].
    destruct (Hlast eco3 g3) as [He5 Ha5].
    - rewrite Hlen3, Hlen1. lia.
    - by rewrite Hobj3, Hobj1.
    - cbn [fst snd] in He5, Ha5 |- *. split; [done|]. split; [|split; [done|done]].
      intros _ _. rewrite He5, Hobj3, Hobj1 in *. simpl in *. done. }
  pose proof (Animal_reproduce_false self eco1 thr chance cost child_class
                child_energy g) as Hsame.
  rewrite Hrep in Hsame. specialize (Hsame eq_refl). cbn [fst snd] in Hsame.
  subst eco3.
  destruct (Animal_move_self self eco1 g3) as (Hem & Ham & Hlm).
  destruct (Animal.move self eco1 g3) as [eco4 g4]. cbn [fst] in Hem, Ham, Hlm.
  destruct (Hlast eco4 g4) as [He5 Ha5].
  - by rewrite Hlm, Hlen1.
  - by rewrite Ham, Hobj1.
  - cbn [fst snd] in He5, Ha5 |- *. split; [done|]. split; [done|]. split; [|done].
    intros _ _. by rewrite He5, Hem, Hobj1.
Qed.

(** The queries an animal makes see the registry as it was before the
    metabolic cost. *)
Lemma get_adjacent_organisms_update self eco x y target :
  get_adjacent_organisms (Animal.update self eco) x y target
  = get_adjacent_organisms eco x y target.
Proof.
  unfold get_adjacent_organisms. f_equal.
  apply list_fmap_ext. intros i c _. apply filter_ext_in. intros r _.
  unfold prey_at, Organism.isinstance.
  destruct (Animal_update_fields self eco r) as (-> & -> & -> & ->). done.
Qed.

Lemma get_adjacent_empty_cells_update self eco x y :
  get_adjacent_empty_cells (Animal.update self eco) x y
  = get_adjacent_empty_cells eco x y.
Proof.
  unfold get_adjacent_empty_cells. apply filter_ext_in. intros c _.
  unfold is_empty_cell, get_organism_at.
  replace (filter (at_cell (Animal.update self eco) c.1 c.2)
                  (visible (Animal.update self eco)))
    with (filter (at_cell eco c.1 c.2) (visible eco)); [done|].
  apply filter_ext_in. intros r _. unfold at_cell.
  destruct (Animal_update_fields self eco r) as (-> & -> & -> & _). done.
Qed.

(** The eat step returns [True] exactly when there is adjacent prey. *)
Lemma Animal_eat_iff self eco prey_class eat_gain g :
  (Animal.eat self eco prey_class eat_gain g).1.1 = true
  ↔ get_adjacent_organisms eco (Organism.x (obj eco self))
                               (Organism.y (obj eco self)) prey_class ≠ [].
Proof.
  unfold Animal.eat, Animal.eat_target.
  destruct (get_adjacent_organisms _ _ _ _) as [|p ps]; [simpl; split; done|].
  destruct (choice p ps g) as [prey g1]. simpl. done.
Qed.

(** The reproduce step returns [True] exactly when the energy reaches
    the threshold, the roll succeeds and a neighbouring cell is empty. *)
Lemma Animal_reproduce_iff self eco thr chance cost child_class child_energy g :
  (Animal.reproduce self eco thr chance cost child_class child_energy g).1.1 = true
  ↔ thr ≤ Organism.energy (obj eco self)
    ∧ (random_lt chance g).1 = true
    ∧ get_adjacent_empty_cells eco (Organism.x (obj eco self))
                                   (Organism.y (obj eco self)) ≠ [].
Proof.
  unfold Animal.reproduce. case_decide as Hthr.
  2:{ simpl. split; [done|]. by intros (? & _). }
  destruct (random_lt chance g) as [[] g1].
  2:{ simpl. split; [done|]. by intros (_ & ? & _). }
  destruct (get_adjacent_empty_cells _ _ _) as [|c cs].
  { simpl. split; [done|]. by intros (_ & _ & ?). }
  destruct (choice c cs g1) as [[nx ny] g2]. simpl. done.
Qed.

Lemma Plant_update_frame self eco g r :
  (r < length (heap eco))%nat → obj (Plant.update self eco g).1 r = obj eco r.
Proof.
  intros Hr. unfold Plant.update.
  destruct (random_lt PLANT_REPRODUCTION_CHANCE g) as [[] g1]; [|done].
  destruct (get_adjacent_empty_cells _ _ _) as [|c cs]; [done|].
  destruct (choice c cs g1) as [[nx ny] g2]. unfold new_object. cbn [fst].
  by rewrite obj_add_organism, obj_set_heap_app_old.
Qed.

(** X16. The energy balance of a turn.  The turn of a plant changes no
    object there was.  In the turn of an animal the eat step returns
    [True] exactly when there is adjacent prey, and the reproduce step
    exactly when the energy left by the metabolic cost reaches the
    threshold, the roll succeeds and a neighbouring cell is empty.  If
    the animal ate, its energy has changed by the eat gain less the
    metabolic cost (+9 for a herbivore, +14 for a carnivore); if it did
    not eat but reproduced, by the metabolic and the reproduction cost
    (-9, resp. -21); if it did neither, by the metabolic cost alone
    (-1).  At the end of its turn the animal is alive exactly when its
    energy is positive. *)
Theorem turn_energy_balance self eco g :
  on_turn self eco →
  let eco' := (update self eco g).1 in
  let x := Organism.x (obj eco self) in
  let y := Organism.y (obj eco self) in
  let e := Organism.energy (obj eco self) in
  let e' := Organism.energy (obj eco' self) in
  match Organism.cls (obj eco self) with
  | Plant => ∀ r, (r < length (heap eco))%nat → obj eco' r = obj eco r
  | Herbivore =>
      let ate := (Animal.eat self (Animal.update self eco) Plant 10 g).1.1 in
      let bred := (Animal.reproduce self (Animal.update self eco) 20 15 8
                     Herbivore 10 g).1.1 in
      (ate = true ↔ get_adjacent_organisms eco x y Plant ≠ [])
      ∧ (bred = true ↔
         21 ≤ e ∧ (random_lt 15 g).1 = true ∧ get_adjacent_empty_cells eco x y ≠ [])
      ∧ (ate = true → e' = e + 9)
      ∧ (ate = false → bred = true → e' = e - 9)
      ∧ (ate = false → bred = false → e' = e - 1)
      ∧ Organism.alive (obj eco' self) = bool_decide (0 < e')
  | Carnivore =>
      let ate := (Animal.eat self (Animal.update self eco) Herbivore 15 g).1.1 in
      let bred := (Animal.reproduce self (Animal.update self eco) 40 10 20
                     Carnivore 20 g).1.1 in
      (ate = true ↔ get_adjacent_organisms eco x y Herbivore ≠ [])
      ∧ (bred = true ↔
         41 ≤ e ∧ (random_lt 10 g).1 = true ∧ get_adjacent_empty_cells eco x y ≠ [])
      ∧ (ate = true → e' = e + 14)
      ∧ (ate = false → bred = true → e' = e - 21)
      ∧ (ate = false → bred = false → e' = e - 1)
      ∧ Organism.alive (obj eco' self) = bool_decide (0 < e')
  end.
Proof.
  intros Hon eco' x y e e'. subst eco' x y e e'.
  pose proof (on_turn_valid _ _ Hon) as Hself.
  destruct Hon as (Hwf%wf_no_dangling & _ & Ha).
  destruct (Animal_update_fields self eco self) as (Hx & Hy & _).
  assert (Organism.energy (obj (Animal.update self eco) self)
          = Organism.energy (obj eco self) - 1) as He1.
  { by rewrite Animal_update_obj, decide_True by done. }
  unfold update. destruct (Organism.cls (obj eco self)).
  - intros r Hr. by apply Plant_update_frame.
  - unfold Herbivore.update. cbv zeta.
    destruct (Animal_act_balance self eco Plant HERBIVORE_EAT_GAIN
                HERBIVORE_REPRODUCTION_ENERGY_THRESHOLD HERBIVORE_REPRODUCTION_CHANCE
                HERBIVORE_REPRODUCTION_COST Herbivore HERBIVORE_CHILD_ENERGY g
                Hwf Hself Ha) as (Hate & Hbred & Hnone & Halive).
    revert Hate Hbred Hnone. unfold_constants. intros Hate Hbred Hnone.
    split; [by rewrite Animal_eat_iff, Hx, Hy, get_adjacent_organisms_update|].
    split.
    { rewrite Animal_reproduce_iff, Hx, Hy, He1, get_adjacent_empty_cells_update.
      split; intros (? & ? & ?); (split; [lia|done]). }
    split; [intros H1; rewrite (Hate H1); lia|].
    split; [intros H1 H2; destruct (Hbred H1 H2) as [_ ->]; lia|].
    split; [intros H1 H2; by rewrite (Hnone H1 H2)|done].
  - unfold Carnivore.update. cbv zeta.
    destruct (Animal_act_balance self eco Herbivore CARNIVORE_EAT_GAIN
                CARNIVORE_REPRODUCTION_ENERGY_THRESHOLD CARNIVORE_REPRODUCTION_CHANCE
                CARNIVORE_REPRODUCTION_COST Carnivore CARNIVORE_CHILD_ENERGY g
                Hwf Hself Ha) as (Hate & Hbred & Hnone & Halive).
    revert Hate Hbred Hnone. unfold_constants. intros Hate Hbred Hnone.
    split; [by rewrite Animal_eat_iff, Hx, Hy, get_adjacent_organisms_update|].
    split.
    { rewrite Animal_reproduce_iff, Hx, Hy, He1, get_adjacent_empty_cells_update.
      split; intros (? & ? & ?); (split; [lia|done]). }
    split; [intros H1; rewrite (Hate H1); lia|].
    split; [intros H1 H2; destruct (Hbred H1 H2) as [_ ->]; lia|].
    split; [intros H1 H2; by rewrite (Hnone H1 H2)|done].
Qed.

Lemma turn_energy_balance_witness :
  ((Animal.eat 0%nat (Animal.update 0%nat scenario_eco) Plant 10 []).1.1 = true
   ↔ get_adjacent_organisms scenario_eco 1 1 Plant ≠ [])
  ∧ ((Animal.reproduce 0%nat (Animal.update 0%nat scenario_eco) 20 15 8
        Herbivore 10 []).1.1 = true
     ↔ 21 ≤ 1 ∧ (random_lt 15 []).1 = true
       ∧ get_adjacent_empty_cells scenario_eco 1 1 ≠ [])
  ∧ ((Animal.eat 0%nat (Animal.update 0%nat scenario_eco) Plant 10 []).1.1 = true →
     Organism.energy (obj (update 0%nat scenario_eco []).1 0%nat) = 1 + 9)
  ∧ ((Animal.eat 0%nat (Animal.update 0%nat scenario_eco) Plant 10 []).1.1 = false →
     (Animal.reproduce 0%nat (Animal.update 0%nat scenario_eco) 20 15 8
        Herbivore 10 []).1.1 = true →
     Organism.energy (obj (update 0%nat scenario_eco []).1 0%nat) = 1 - 9)
  ∧ ((Animal.eat 0%nat (Animal.update 0%nat scenario_eco) Plant 10 []).1.1 = false →
     (Animal.reproduce 0%nat (Animal.update 0%nat scenario_eco) 20 15 8
        Herbivore 10 []).1.1 = false →
     Organism.energy (obj (update 0%nat scenario_eco []).1 0%nat) = 1 - 1)
  ∧ Organism.alive (obj (update 0%nat scenario_eco []).1 0%nat)
    = bool_decide (0 < Organism.energy (obj (update 0%nat scenario_eco []).1 0%nat)).
Proof.
  apply (turn_energy_balance 0%nat scenario_eco []).
  split; [|split].
  - apply wf_check_wf. apply (bool_decide_unpack _). by vm_compute.
  - by left.
  - reflexivity.
Defined.

(** ** The neighbours of a cell, counted *)

Lemma get_adjacent_cells_NoDup eco x y : NoDup (get_adjacent_cells eco x y).
Proof.
  unfold get_adjacent_cells. apply NoDup_filter, NoDup_fmap_2_strong.
  - intros [a1 b1] [a2 b2] _ _ [= ? ?]. f_equal; lia.
  - apply DIRECTIONS_NoDup.
Qed.

Lemma prey_at_occupants eco c target :
  filter (prey_at eco c target) (visible eco)
  = filter (λ r, Organism.cls (obj eco r) = target) (get_organism_at eco c.1 c.2).
Proof.
  unfold get_organism_at. rewrite list_filter_filter.
  apply filter_ext_in. intros r _.
  unfold prey_at, at_cell, Organism.isinstance.
  rewrite bool_decide_eq_true. tauto.
Qed.

(** A cell is empty or holds one organism of one class. *)
Lemma cell_census eco c :
  wf eco →
  ((if decide (is_empty_cell eco c) then 1 else 0)
   + length (filter (prey_at eco c Plant) (visible eco))
   + length (filter (prey_at eco c Herbivore) (visible eco))
   + length (filter (prey_at eco c Carnivore) (visible eco)) = 1)%nat.
Proof.
  intros Hwf. rewrite !prey_at_occupants.
  pose proof (wf_occupancy eco c.1 c.2 Hwf) as Hocc.
  destruct (decide (is_empty_cell eco c)) as [He|He]; unfold is_empty_cell in He.
  { by rewrite He. }
  destruct (get_organism_at eco c.1 c.2) as [|r [|r' l]]; simpl in Hocc;
    [done| |lia].
  rewrite !filter_cons, !filter_nil.
  destruct (Organism.cls (obj eco r)); repeat case_decide; simplify_eq; done.
Qed.

Lemma neighbourhood_census eco target_cells :
  wf eco →
  (length target_cells
   = length (filter (is_empty_cell eco) target_cells)
     + length (mjoin ((λ c, filter (prey_at eco c Plant) (visible eco)) <$> target_cells))
     + length (mjoin ((λ c, filter (prey_at eco c Herbivore) (visible eco)) <$> target_cells))
     + length (mjoin ((λ c, filter (prey_at eco c Carnivore) (visible eco)) <$> target_cells)))%nat.
Proof.
  intros Hwf. induction target_cells as [|c l IH]; [done|].
  rewrite !fmap_cons. change (mjoin (?a :: ?k)) with (a ++ mjoin k).
  rewrite !length_app, filter_cons. pose proof (cell_census eco c Hwf) as Hc.
  destruct (decide (is_empty_cell eco c)); simpl in *; lia.
Qed.

Lemma get_adjacent_organisms_NoDup eco x y target :
  wf eco → NoDup (get_adjacent_organisms eco x y target).
Proof.
  intros Hwf. unfold get_adjacent_organisms.
  pose proof (get_adjacent_cells_NoDup eco x y) as Hnd.
  induction Hnd as [|c l Hc Hnd IH]; [constructor|].
  rewrite fmap_cons. change (mjoin (?a :: ?k)) with (a ++ mjoin k).
  apply NoDup_app. split; [apply NoDup_filter, Hwf|]. split; [|done].
  intros r [(Hx & Hy & _) _]%list_elem_of_filter (k & Hr & Hk)%list_elem_of_join.
  apply list_elem_of_fmap in Hk as (c' & -> & Hc').
  apply list_elem_of_filter in Hr as [(Hx' & Hy' & _) _].
  apply Hc. replace c with c'; [done|].
  destruct c, c'. simpl in *. congruence.
Qed.

(** X17. In a well-formed registry the neighbouring cells of a cell
    split into the empty ones and those held by exactly one organism:
    [get_adjacent_empty_cells] and [get_adjacent_organisms] list
    nothing twice, an adjacent organism is the only occupant of its
    cell, and the numbers of empty cells, plants, herbivores and
    carnivores around a cell add up to the number of its neighbouring
    cells. *)
Theorem neighbourhood_partition eco x y :
  wf eco →
  NoDup (get_adjacent_empty_cells eco x y)
  ∧ (∀ target, NoDup (get_adjacent_organisms eco x y target))
  ∧ (∀ target r, r ∈ get_adjacent_organisms eco x y target →
       get_organism_at eco (Organism.x (obj eco r)) (Organism.y (obj eco r)) = [r])
  ∧ (length (get_adjacent_cells eco x y)
     = length (get_adjacent_empty_cells eco x y)
       + length (get_adjacent_organisms eco x y Plant)
       + length (get_adjacent_organisms eco x y Herbivore)
       + length (get_adjacent_organisms eco x y Carnivore))%nat.
Proof.
  intros Hwf. split; [apply NoDup_filter, get_adjacent_cells_NoDup|].
  split; [intros target; by apply get_adjacent_organisms_NoDup|]. split.
  - intros target r (Hv & _ & _ & Ha)%elem_of_get_adjacent_organisms.
    assert (r ∈ get_organism_at eco (Organism.x (obj eco r)) (Organism.y (obj eco r)))
      as Hin by (apply elem_of_get_organism_at; by repeat split).
    pose proof (wf_occupancy eco (Organism.x (obj eco r)) (Organism.y (obj eco r)) Hwf)
      as Hocc.
    destruct (get_organism_at eco _ _) as [|r1 [|r2 l]]; simpl in Hocc; [| |lia].
    + by apply elem_of_nil in Hin.
    + by apply list_elem_of_singleton in Hin as ->.
  - by apply neighbourhood_census.
Qed.

Lemma neighbourhood_partition_witness :
  NoDup (get_adjacent_empty_cells nursery_eco 1 1)
  ∧ (∀ target, NoDup (get_adjacent_organisms nursery_eco 1 1 target))
  ∧ (∀ target r, r ∈ get_adjacent_organisms nursery_eco 1 1 target →
       get_organism_at nursery_eco (Organism.x (obj nursery_eco r))
                       (Organism.y (obj nursery_eco r)) = [r])
  ∧ (length (get_adjacent_cells nursery_eco 1 1)
     = length (get_adjacent_empty_cells nursery_eco 1 1)
       + length (get_adjacent_organisms nursery_eco 1 1 Plant)
       + length (get_adjacent_organisms nursery_eco 1 1 Herbivore)
       + length (get_adjacent_organisms nursery_eco 1 1 Carnivore))%nat.
Proof.
  apply (neighbourhood_partition nursery_eco 1 1).
  apply wf_check_wf. apply (bool_decide_unpack _). by vm_compute.
Defined.

(** ** What no step ever changes *)

Lemma steady_refl eco : steady eco eco.
Proof. split; [done|done|done|]. intros r _ _. by left. Qed.

Lemma steady_trans eco1 eco2 eco3 : steady eco1 eco2 → steady eco2 eco3 → steady eco1 eco3.
Proof.
  intros [(Hw1 & Hh1 & Ht1) Hl1 Hc1 Hp1] [(Hw2 & Hh2 & Ht2) Hl2 Hc2 Hp2]. split.
  - by rewrite Hw2, Hh2, Ht2.
  - lia.
  - intros r Hr. destruct (Hc1 r Hr) as [<- <-]. apply Hc2. lia.
  - intros r Hr Hplant.
    assert (Organism.cls (obj eco2 r) = Plant) as Hplant2
      by (destruct (Hc1 r Hr) as [-> _]; done).
    destruct (Hp1 r Hr Hplant) as [H1|H1], (Hp2 r ltac:(lia) Hplant2) as [H2|H2];
      rewrite H2, H1; auto.
Qed.

Lemma steady_set_obj r o eco :
  Organism.cls o = Organism.cls (obj eco r) →
  Organism.symbol o = Organism.symbol (obj eco r) →
  (Organism.cls (obj eco r) = Plant →
   o = obj eco r ∨ o = Organism.set_alive (obj eco r) false) →
  steady eco (set_obj r o eco).
Proof.
  intros Hc Hs Hp. split.
  - done.
  - by rewrite length_heap_set_obj.
  - intros r' _. by destruct (obj_set_obj_cases r o eco r') as [->|(-> & _ & ->)].
  - intros r' _ Hplant.
    destruct (obj_set_obj_cases r o eco r') as [->|(-> & _ & ->)]; [by left|].
    by apply Hp.
Qed.

Lemma steady_remove_organism p eco : steady eco (remove_organism p eco).
Proof.
  pose proof (steady_set_obj p (Organism.set_alive (obj eco p) false) eco) as Hs.
  destruct Hs as [Hd Hl Hc Hp]; [done|done|by right|]. by split.
Qed.

Lemma steady_set_energy r e eco :
  Organism.cls (obj eco r) ≠ Plant → steady eco (set_energy r e eco).
Proof. intros Hne. by apply steady_set_obj. Qed.

Lemma steady_move_organism r nx ny eco :
  Organism.cls (obj eco r) ≠ Plant → steady eco (move_organism r nx ny eco).
Proof. intros Hne. by apply steady_set_obj. Qed.

(** Allocating an object and queueing it as a birth. *)
Lemma steady_birth o eco :
  steady eco (add_organism (length (heap eco)) (set_heap eco (heap eco ++ [o]))).
Proof.
  split.
  - done.
  - simpl. rewrite length_app. lia.
  - intros r Hr. by rewrite obj_add_organism, obj_set_heap_app_old.
  - intros r Hr _. left. by rewrite obj_add_organism, obj_set_heap_app_old.
Qed.

Lemma steady_cls_ne eco eco' r :
  steady eco eco' → (r < length (heap eco))%nat →
  Organism.cls (obj eco r) ≠ Plant → Organism.cls (obj eco' r) ≠ Plant.
Proof. intros Hs Hr Hne. by destruct (steady_class _ _ Hs r Hr) as [-> _]. Qed.

(** A reference that reads as an animal is a reference into the heap. *)
Lemma animal_valid eco r :
  Organism.cls (obj eco r) ≠ Plant → (r < length (heap eco))%nat.
Proof.
  intros Hne. destruct (decide (r < length (heap eco))%nat) as [|Hout]; [done|].
  exfalso. apply Hne. unfold obj.
  by rewrite list_lookup_total_alt, lookup_ge_None_2 by lia.
Qed.

Lemma Plant_update_steady self eco g : steady eco (Plant.update self eco g).1.
Proof.
  unfold Plant.update.
  destruct (random_lt PLANT_REPRODUCTION_CHANCE g) as [[] g1]; [|apply steady_refl].
  destruct (get_adjacent_empty_cells _ _ _) as [|c cs]; [apply steady_refl|].
  destruct (choice c cs g1) as [[nx ny] g2]. unfold new_object. cbn [fst].
  apply steady_birth.
Qed.

Lemma Animal_eat_steady self eco prey_class eat_gain g :
  Organism.cls (obj eco self) ≠ Plant →
  steady eco (Animal.eat self eco prey_class eat_gain g).1.2.
Proof.
  intros Hne. unfold Animal.eat.
  destruct (Animal.eat_target self eco prey_class g) as [[prey g1]|];
    [|apply steady_refl].
  cbn [fst snd].
  set (eco1 := move_organism self _ _ eco).
  assert (steady eco eco1) as H1 by by apply steady_move_organism.
  set (eco2 := remove_organism prey eco1).
  assert (steady eco1 eco2) as H2 by apply steady_remove_organism.
  assert (steady eco eco2) as H12 by by eapply steady_trans.
  eapply steady_trans; [exact H12|]. apply steady_set_energy.
  apply (steady_cls_ne eco eco2); [done|by apply animal_valid|done].
Qed.

Lemma Animal_reproduce_steady self eco thr chance cost child_class child_energy g :
  Organism.cls (obj eco self) ≠ Plant →
  steady eco (Animal.reproduce self eco thr chance cost child_class child_energy g).1.2.
Proof.
  intros Hne. unfold Animal.reproduce.
  case_decide; [|apply steady_refl].
  destruct (random_lt chance g) as [[] g1]; [|apply steady_refl].
  destruct (get_adjacent_empty_cells _ _ _) as [|c cs]; [apply steady_refl|].
  destruct (choice c cs g1) as [[nx ny] g2]. unfold new_object. cbn [fst snd].
  set (o := construct child_class nx ny).
  set (eco1 := set_heap eco (heap eco ++ [o])).
  set (child := length (heap eco)).
  set (eco2 := set_energy child child_energy eco1).
  set (eco3 := add_organism child eco2).
  assert (∀ r, (r < length (heap eco))%nat → obj eco3 r = obj eco r) as Hold.
  { intros r Hr. subst eco3 eco2. rewrite obj_add_organism. unfold set_energy.
    rewrite obj_set_obj_ne by (subst child; lia).
    by apply obj_set_heap_app_old. }
  assert (length (heap eco) ≤ length (heap eco3))%nat as Hlen.
  { subst eco3 eco2 eco1. unfold set_energy. simpl.
    rewrite length_insert, length_app. lia. }
  assert (steady eco eco3) as H3.
  { split; [done|done| |].
    - intros r Hr. by rewrite Hold.
    - intros r Hr _. left. by apply Hold. }
  eapply steady_trans; [exact H3|]. apply steady_set_energy.
  by rewrite Hold by by apply animal_valid.
Qed.

Lemma Animal_move_steady self eco g :
  Organism.cls (obj eco self) ≠ Plant → steady eco (Animal.move self eco g).1.
Proof.
  intros Hne. unfold Animal.move.
  destruct (Animal.move_target self eco g) as [[[nx ny] g1]|]; [|apply steady_refl].
  by apply steady_move_organism.
Qed.

Lemma Animal_survive_steady self eco : steady eco (Animal.survive self eco).2.
Proof.
  unfold Animal.survive. case_decide; [apply steady_remove_organism|apply steady_refl].
Qed.

Lemma Animal_act_steady self eco prey_class eat_gain thr chance cost child_class
      child_energy g :
  Organism.cls (obj eco self) ≠ Plant →
  steady eco (Animal.act self eco prey_class eat_gain thr chance cost child_class
                child_energy g).1.
Proof.
  intros Hne. pose proof (animal_valid _ _ Hne) as Hself. unfold Animal.act.
  set (eco1 := Animal.update self eco).
  assert (steady eco eco1) as H1 by by apply steady_set_energy.
  pose proof (steady_cls_ne _ _ _ H1 Hself Hne) as Hne1.
  pose proof (Animal_eat_steady self eco1 prey_class eat_gain g Hne1) as H2.
  destruct (Animal.eat self eco1 prey_class eat_gain g) as [[ate eco2] g2].
  cbn [fst snd] in H2.
  assert (steady eco eco2) as H02 by by eapply steady_trans.
  pose proof (steady_cls_ne _ _ _ H02 Hself Hne) as Hne2.
  assert (∃ acted eco3 g3,
    (if ate then (true, eco2, g2)
     else Animal.reproduce self eco2 thr chance cost child_class child_energy g2)
    = (acted, eco3, g3) ∧ steady eco eco3) as (acted & eco3 & g3 & -> & H03).
  { destruct ate; [by do 3 eexists|].
    pose proof (Animal_reproduce_steady self eco2 thr chance cost child_class
                  child_energy g2 Hne2) as H3.
    destruct (Animal.reproduce _ _ _ _ _ _ _ _) as [[b e3] g3].
    do 3 eexists. split; [done|]. by eapply steady_trans. }
  pose proof (steady_cls_ne _ _ _ H03 Hself Hne) as Hne3.
  assert (∃ eco4 g4,
    (if acted then (eco3, g3) else Animal.move self eco3 g3) = (eco4, g4)
    ∧ steady eco eco4) as (eco4 & g4 & -> & H04).
  { destruct acted; [by do 2 eexists|].
    pose proof (Animal_move_steady self eco3 g3 Hne3) as H4.
    destruct (Animal.move _ _ _) as [e4 g4].
    do 2 eexists. split; [done|]. by eapply steady_trans. }
  cbn [fst]. eapply steady_trans; [exact H04|apply Animal_survive_steady].
Qed.

Lemma update_steady self eco g : steady eco (update self eco g).1.
Proof.
  unfold update, Herbivore.update, Carnivore.update.
  destruct (Organism.cls (obj eco self)) eqn:Hc.
  - apply Plant_update_steady.
  - apply Animal_act_steady. by rewrite Hc.
  - apply Animal_act_steady. by rewrite Hc.
Qed.

Lemma run_turns_steady order eco g : steady eco (run_turns order eco g).1.
Proof.
  unfold run_turns. revert eco g.
  induction order as [|org order IH]; intros eco g; [apply steady_refl|].
  simpl. assert (steady eco (turn (eco, g) org).1) as Hs.
  { unfold turn. cbn [fst snd].
    destruct (Organism.alive (obj eco org)); [apply update_steady|apply steady_refl]. }
  destruct (turn (eco, g) org) as [eco1 g1]. cbn [fst] in Hs.
  eapply steady_trans; [exact Hs|apply IH].
Qed.

Lemma commit_steady eco : steady eco (commit eco).
Proof.
  unfold commit. rewrite commit_deaths_eq, commit_births_eq.
  split; [done|done|done|]. intros r _ _. by left.
Qed.

Lemma tick_steady eco g : steady eco (tick eco g).1.
Proof.
  unfold tick. destruct (shuffle (organisms eco) g) as [order g1].
  pose proof (run_turns_steady order eco g1) as Hs.
  destruct (run_turns order eco g1) as [eco1 g2]. cbn [fst] in *.
  eapply steady_trans; [exact Hs|apply commit_steady].
Qed.

Lemma ticks_steady n eco g : steady eco (ticks n eco g).1.
Proof.
  revert eco g. induction n as [|n IH]; intros eco g; [apply steady_refl|].
  simpl. pose proof (tick_steady eco g) as Hs.
  destruct (tick eco g) as [eco1 g1]. cbn [fst] in Hs.
  eapply steady_trans; [exact Hs|apply IH].
Qed.

(** X18. What no tick ever changes.  Through any number of ticks, from
    any registry, the grid keeps its dimensions and the run its length,
    objects are only ever added to the heap, no object changes its
    class or its symbol, and a plant is never moved: the only change
    to a plant is its [alive] flag going down. *)
Theorem ticks_keep_classes_and_plants n eco g :
  width (ticks n eco g).1 = width eco
  ∧ height (ticks n eco g).1 = height eco
  ∧ total_ticks (ticks n eco g).1 = total_ticks eco
  ∧ (length (heap eco) ≤ length (heap (ticks n eco g).1))%nat
  ∧ ∀ r, (r < length (heap eco))%nat →
      Organism.cls (obj (ticks n eco g).1 r) = Organism.cls (obj eco r)
      ∧ Organism.symbol (obj (ticks n eco g).1 r) = Organism.symbol (obj eco r)
      ∧ (Organism.cls (obj eco r) = Plant →
         obj (ticks n eco g).1 r = obj eco r
         ∨ obj (ticks n eco g).1 r = Organism.set_alive (obj eco r) false).
Proof.
  destruct (ticks_steady n eco g) as [(Hw & Hh & Ht) Hl Hc Hp].
  do 4 (split; [done|]). intros r Hr.
  destruct (Hc r Hr) as [Hcls Hsym]. do 2 (split; [done|]). by apply Hp.
Qed.

(** ** The population and the capacity of the grid *)

Lemma settled_capacity eco :
  settled eco →
  (length (organisms eco) ≤ Z.to_nat (width eco) * Z.to_nat (height eco))%nat.
Proof.
  intros [Hb Ht]. pose proof Hb as [Hwf [Had _]].
  assert (visible eco = organisms eco) as Hvis
    by (unfold visible; by rewrite Had, app_nil_r).
  rewrite <- length_all_cells,
    <- (length_fmap (λ r, (Organism.x (obj eco r), Organism.y (obj eco r)))).
  apply submseteq_length, NoDup_submseteq.
  - apply NoDup_fmap_2_strong.
    + intros r1 r2 H1 H2 [= Hx Hy].
      apply (wf_cells _ Hwf); rewrite ?Hvis; try done;
        by apply (boundary_alive _ _ Hb).
    + rewrite <- Hvis. apply Hwf.
  - intros c (r & -> & Hr)%list_elem_of_fmap.
    apply elem_of_all_cells, (tidy_bounds _ _ Ht). by rewrite Hvis.
Qed.

(** X19. Whenever the constructor returns, the population never
    outgrows the grid: at every tick boundary the main storage holds
    at most [width * height] organisms. *)
Theorem population_within_capacity fuel w h np nh nc t g eco g1 s0 n :
  init fuel w h np nh nc t g = Ok (eco, g1, s0) →
  (length (organisms (ticks n eco g1).1) ≤ Z.to_nat w * Z.to_nat h)%nat.
Proof.
  intros Hi. destruct (init_dims _ _ _ _ _ _ _ _ _ _ _ Hi) as (Hw & Hh & _).
  apply init_settled in Hi.
  pose proof (ticks_settled n eco g1 Hi) as Hs.
  destruct (ticks_steady n eco g1) as [(Hw' & Hh' & _) _ _ _].
  apply settled_capacity in Hs. by rewrite Hw', Hh', Hw, Hh in Hs.
Qed.

Lemma population_within_capacity_witness :
  ∃ eco g1 s0,
    init 50 3 3 2 2 1 3 demo_tape = Ok (eco, g1, s0)
    ∧ (length (organisms (ticks 3 eco g1).1) ≤ Z.to_nat 3 * Z.to_nat 3)%nat.
Proof.
  destruct (init 50 3 3 2 2 1 3 demo_tape) as [[[eco g1] s0]| |] eqn:Hi.
  - exists eco, g1, s0. split; [reflexivity|].
    exact (population_within_capacity 50 3 3 2 2 1 3 demo_tape eco g1 s0 3 Hi).
  - vm_compute in Hi. discriminate Hi.
  - vm_compute in Hi. discriminate Hi.
Defined.
